(** * Volume Cartographer: propagation engine and volume access

    A shallow embedding of the parts of the repository that the
    specification talks about:

    - [Slice] (segmentation/localResliceParticleSim/slice.cpp): the candidate
      search of a reslice and the slice-to-voxel coordinate map;
    - [Volume] (common/datatypes/Volume.h): only the class declaration is
      among the sources, the sampling function and the slice cache are
      modelled from the specification;
    - [Segment] (apps/src/Segment.cpp): the driver of a propagation run;
    - [MyThread] (apps/VC-Texture/MyThread.cpp): the texturing worker;
    - [InvertCloud] (utils/src/InvertCloud.cpp): the cloud inversion tool;
    - [PPMGenerator] (texturing/src/PPMGenerator.cpp): the per-pixel map from
      the uv plane to the mesh, which the texturing worker computes;
    - [HalfEdgeMesh] (core/src/HalfEdgeMesh.cpp): the mesh that the flattening
      works on;
    - [Texture] (core/src/Texture.cpp) and [Metadata]
      (apps/src/metadata.cpp): the texture container and the metadata editor.

    Conventions.  C++ [int], [int32_t], [uint32_t] and [size_t] values are
    integers of [Z]; arithmetic that can leave the range of its type is
    written with its wrap-around.  The [double] arithmetic of the proximity
    comparator, of the cloud inversion and of the angles of the half-edge
    mesh is binary64 ([PrimFloat]).  The geometry of [Slice] and
    [PPMGenerator] ([cv::Vec3f], [cv::Vec3d]) is idealised: coordinates are
    exact rationals ([Qc]), so rounding, infinities and NaN are outside that
    part of the model, and a division by zero has the value 0 there. *)

From Stdlib Require Import ZArith Arith List Bool Lia Permutation Sorted.
From Stdlib Require Import QArith Qcanon Qround.
From Stdlib Require Import Floats Uint63.
From Stdlib Require Import Ascii.
From Stdlib Require String.
Import String.StringSyntax.
Delimit Scope string_scope with string.
Import ListNotations.

Open Scope Z_scope.

(** ** Machine integers *)

Module Int.

Definition UINT32_MOD : Z := 2 ^ 32.
Definition INT32_MIN : Z := - 2 ^ 31.
Definition INT32_MAX : Z := 2 ^ 31 - 1.
Definition SIZE_MOD : Z := 2 ^ 64.

(** Conversion to [uint32_t] (and the result of unsigned arithmetic). *)
Definition u32 (z : Z) : Z := z mod UINT32_MOD.

(** Conversion to [size_t]. *)
Definition usize (z : Z) : Z := z mod SIZE_MOD.

Definition in_int32 (z : Z) : bool := (INT32_MIN <=? z) && (z <=? INT32_MAX).

(** The result of [int] arithmetic as the program computes it: the exact
    result when it is an [int], and otherwise its two's complement
    wrap-around (C++ leaves the overflow of signed arithmetic undefined; the
    32-bit addition and subtraction of the build wrap). *)
Definition int32 (z : Z) : Z := (z - INT32_MIN) mod UINT32_MOD + INT32_MIN.

(** [uint32_t] to [double]: exact, every 32-bit value is a binary64 number. *)
Definition double_of_u32 (u : Z) : float := PrimFloat.of_uint63 (Uint63.of_Z u).


(** The integer part of a finite binary64 number (rounding toward zero). *)
Definition trunc (f : float) : option Z :=
  match Prim2SF f with
  | S754_zero _ => Some 0
  | S754_finite s m e =>
      let v := match e with
               | Z0 => Zpos m
               | Zpos p => Zpos m * 2 ^ Zpos p
               | Zneg p => Zpos m / 2 ^ Zpos p
               end in
      Some (if s then - v else v)
  | S754_infinity _ => None
  | S754_nan => None
  end.

(** [int32_t(d)] for a [double] [d].  The conversion truncates; when the
    truncated value is not representable the C++ program has no defined
    result.  [oob] stands for the value the conversion instruction leaves
    in that case (x86-64 [cvttsd2si]: [INT32_MIN]; AArch64 [fcvtzs]:
    [INT32_MAX] for a positive operand). *)
Definition int32_of_double (oob : Z) (f : float) : Z :=
  match trunc f with
  | Some v => if in_int32 v then v else oob
  | None => oob
  end.

(** The x86-64 "integer indefinite" result. *)
Definition int32_indefinite : Z := INT32_MIN.

End Int.

(** ** OpenCV values *)

Module Cv.

(** [cv::Vec3f] / [cv::Vec3d] with exact rational components. *)
Record Vec3 : Type := mkVec3 { vx : Qc; vy : Qc; vz : Qc }.

Definition vadd (a b : Vec3) : Vec3 :=
  mkVec3 (vx a + vx b)%Qc (vy a + vy b)%Qc (vz a + vz b)%Qc.

Definition smul (k : Qc) (a : Vec3) : Vec3 :=
  mkVec3 (k * vx a)%Qc (k * vy a)%Qc (k * vz a)%Qc.

(** An integer as a coordinate. *)
Definition ofZ (z : Z) : Qc := Q2Qc (inject_Z z).

(** [cv::Vec3d] with its binary64 components [pt[0]], [pt[1]], [pt[2]],
    where the arithmetic of the program is modelled as it is. *)
Record Vec3d : Type := mkVec3d { v0 : float; v1 : float; v2 : float }.

(** [a - b] on [cv::Vec3d]: component by component. *)
Definition subd (a b : Vec3d) : Vec3d :=
  mkVec3d (v0 a - v0 b)%float (v1 a - v1 b)%float (v2 a - v2 b)%float.

(** The integer part of a coordinate, rounding down. *)
Definition floorQc (a : Qc) : Z := Qfloor (this a).

(** [cv::Point]: integer pixel coordinates. *)
Record Point : Type := mkPoint { px : Z; py : Z }.

(** [cv::Mat] holding one intensity per pixel, row major. *)
Definition Mat : Type := list (list Z).

Definition rows (m : Mat) : Z := Z.of_nat (length m).

Definition cols (m : Mat) : Z :=
  match m with
  | [] => 0
  | r :: _ => Z.of_nat (length r)
  end.

(** [m.row(y)]; outside [0, rows) OpenCV raises its assertion error
    ([None] here). *)
Definition row (m : Mat) (y : Z) : option (list Z) :=
  if (0 <=? y) && (y <? rows m) then nth_error m (Z.to_nat y) else None.

End Cv.

(** ** Results of code that may throw *)

Inductive Exception : Type :=
| OutOfRange      (* std::out_of_range, std::range_error *)
| CvAssertion     (* cv::Exception *)
| BadAnyCast.     (* boost::bad_any_cast *)

Inductive Result (A : Type) : Type :=
| Returned (a : A)
| Threw (e : Exception).

Arguments Returned {A} a.
Arguments Threw {A} e.

(** ** std::sort *)

Module Std.

Section Sort.
Context {A : Type}.
Variable comp : A -> A -> bool.

(** What [std::sort(first, last, comp)] guarantees of the sorted range
    [l']: it is a rearrangement of the input, and no element is [comp]-less
    than one placed before it.  The order of equivalent elements is
    unspecified. *)
Definition sort_result (l l' : list A) : Prop :=
  Permutation l l' /\ StronglySorted (fun a b => comp b a = false) l'.

Fixpoint insert (a : A) (l : list A) : list A :=
  match l with
  | [] => [a]
  | b :: l' => if comp b a then b :: insert a l' else a :: b :: l'
  end.

(** An executable instance: insertion sort that keeps the input order of
    equivalent elements. *)
Definition sort (l : list A) : list A := fold_right insert [] l.

(** [v.at(n)]. *)
Definition at_ (l : list A) (n : nat) : Result A :=
  match nth_error l n with
  | Some a => Returned a
  | None => Threw OutOfRange
  end.

End Sort.

(** The indices [0, 1, ..., n - 1] of a counting loop. *)
Definition range (n : Z) : list Z := map Z.of_nat (seq 0 (Z.to_nat n)).

End Std.

(** ** NormalizedIntensityMap *)

Module NormalizedIntensityMap.

(** [std::pair<uint32_t, double>]: index in the profile and its value. *)
Definition Pair : Type := (Z * float)%type.

(** Interior positions where the first difference changes sign from
    positive to negative, scanning left to right from index [i]. *)
Fixpoint localMaxima (i : Z) (prev : Z) (l : list Z) : list (Z * Z) :=
  match l with
  | cur :: tl =>
      match tl with
      | next :: _ =>
          (if (0 <? cur - prev) && (next - cur <? 0) then [(i, cur)] else [])
            ++ localMaxima (i + 1) cur tl
      | [] => []
      end
  | [] => []
  end.

(** Larger intensity first, then smaller index. *)
Definition higher (a b : Z * Z) : bool :=
  (snd b <? snd a) || ((snd a =? snd b) && (fst a <? fst b)).

(** Modelled from the spec: NormalizedIntensityMap::findNMaxima
    (NormalizedIntensityMap.h is not among the sources).  "The n highest
    local maxima of a 1D intensity curve extracted from a reslice row, found
    by scanning for sign changes in the discrete first difference; ties
    broken by larger intensity, then by smaller index." *)
Definition findNMaxima (profile : list Z) (n : nat) : list Pair :=
  match profile with
  | [] => []
  | p0 :: tl =>
      map (fun c => (fst c, Int.double_of_u32 (snd c)))
          (firstn n (Std.sort higher (localMaxima 1 p0 tl)))
  end.

End NormalizedIntensityMap.

(** ** Slice (slice.cpp) *)

Module Slice.

Import Cv.
Definition Pair := NormalizedIntensityMap.Pair.

Record Slice : Type := mkSlice {
  _slice : Mat;
  _origin : Vec3;
  _center : Vec3;
  _xvec : Vec3;
  _yvec : Vec3
}.

Definition lookaheadDepth : Z := 5.

(** [Slice::sliceCoordToVoxelCoord]:
    [_origin + (point.x * _xvec + point.y * _yvec)]. *)
Definition sliceCoordToVoxelCoord (s : Slice) (point : Point) : Vec3 :=
  vadd (_origin s)
       (vadd (smul (ofZ (px point)) (_xvec s)) (smul (ofZ (py point)) (_yvec s))).

(** [cv::Point(_slice.cols / 2, _slice.rows / 2)]. *)
Definition center (s : Slice) : Point :=
  mkPoint (Z.quot (cols (_slice s)) 2) (Z.quot (rows (_slice s)) 2).

Section Ranking.

(** Result of an out-of-range [double] to [int32_t] conversion. *)
Variable oob : Z.

(** [int32_t(std::sqrt(double((p.first - x)) * (p.first - x)))]:
    [p.first] is [uint32_t] and [x] is [int], so the difference is taken in
    [uint32_t]. *)
Definition dist2 (x : Z) (p : Pair) : Z :=
  let d := Int.u32 (fst p - Int.u32 x) in
  Int.int32_of_double oob
    (PrimFloat.sqrt (PrimFloat.mul (Int.double_of_u32 d) (Int.double_of_u32 d))).

(** The comparator handed to [std::sort] in [findNextPosition]. *)
Definition closer (x : Z) (lhs rhs : Pair) : bool :=
  let ldist2 := dist2 x lhs in
  let rdist2 := dist2 x rhs in
  ldist2 <? rdist2.

(** [NormalizedIntensityMap(row).findNMaxima(n)]. *)
Variable findNMaxima : list Z -> nat -> list Pair.

(** [Slice::findNextPosition]. *)
Definition findNextPosition (s : Slice) : Result Vec3 :=
  let center := center s in
  match row (_slice s) (py center + lookaheadDepth) with
  | None => Threw CvAssertion
  | Some profile =>
      let maxima := findNMaxima profile 4 in
      let maxima := Std.sort (closer (px center)) maxima in
      match Std.at_ maxima 0 with
      | Threw e => Threw e
      | Returned m0 =>
          let nextPoint := mkPoint (fst m0) (py center + lookaheadDepth) in
          Returned (sliceCoordToVoxelCoord s nextPoint)
      end
  end.

End Ranking.

(** [int32_t(std::sqrt(double(d) * d))] before the range check, for a
    difference [d] taken in [uint32_t]. *)
Definition rootOfSquare (d : Z) : option Z :=
  Int.trunc (PrimFloat.sqrt (PrimFloat.mul (Int.double_of_u32 d) (Int.double_of_u32 d))).

Definition rootExact (d : Z) : bool :=
  match rootOfSquare d with Some v => v =? d | None => false end.

(** The differences [index - x] in [uint32_t] of two columns below [n]:
    [0 ... n - 1] and, wrapped, [2^32 - n ... 2^32 - 1]. *)
Definition differences (n : Z) : list Z :=
  Std.range n ++ map (fun k => Int.UINT32_MOD - 1 - k) (Std.range n).

(** What the specification asks of the ranking: ascending absolute 1D
    distance to the reference index. *)
Definition absdist (referenceIndex : Z) (p : Pair) : Z :=
  Z.abs (fst p - referenceIndex).

Definition rankedByProximity (referenceIndex : Z) (l : list Pair) : Prop :=
  StronglySorted (fun a b => absdist referenceIndex a <= absdist referenceIndex b) l.

End Slice.

(** ** OrderedPointSet *)

Module OrderedPointSet.

Import Cv.

(** Modelled from the spec: OrderedPointSet (OrderedPointSet.hpp is not
    among the sources).  "A 2D grid of 3D points with explicit row count
    (height) and column count (width)": rows are Z-slices, columns are chain
    indices.  The class is a template over the type [P] of its points. *)
Record set (P : Type) : Type := mk { width : Z; data : list (list P) }.

Arguments mk {P} width data.
Arguments width {P} s.
Arguments data {P} s.

(** [OrderedPointSet<cv::Vec3d>] with idealised coordinates. *)
Definition t : Type := set Vec3.

Section Rows.

Context {P : Type}.

Definition height (ps : set P) : Z := Z.of_nat (length (data ps)).

(** Modelled from the spec: [getRow(i)], [i] a [size_t], is row [i] of the
    grid; a row that does not exist is a range error. *)
Definition getRow (ps : set P) (i : Z) : Result (list P) :=
  if (0 <=? i) && (i <? height ps)
  then Std.at_ (data ps) (Z.to_nat i)
  else Threw OutOfRange.


(** Modelled from the spec: [copyRows(i, j)] is the grid of the rows
    [i, j). *)
Definition copyRows (ps : set P) (i j : Z) : Result (set P) :=
  if (0 <=? i) && (i <=? j) && (j <=? height ps)
  then Returned (mk (width ps) (firstn (Z.to_nat (j - i)) (skipn (Z.to_nat i) (data ps))))
  else Threw OutOfRange.

(** Modelled from the spec: [append(other)] stacks the rows of [other]
    below those of the set. *)
Definition append (ps other : set P) : set P := mk (width ps) (data ps ++ data other).

End Rows.

End OrderedPointSet.

(** ** InvertCloud (InvertCloud.cpp) *)

Module InvertCloud.

Import Cv.











End InvertCloud.

(** ** Segment (Segment.cpp) *)

Module Segment.

Import Cv.

(** Volpkg version required by this app. *)
Definition VOLPKG_SUPPORTED_VERSION : Z := 5.

Definition kDefaultStartIndex : Z := -1.

(** [::tolower] on one character. *)
Definition tolower (c : ascii) : ascii :=
  let n := N_of_ascii c in
  if (65 <=? n)%N && (n <=? 90)%N then ascii_of_N (n + 32) else c.

Fixpoint lowercase (s : String.string) : String.string :=
  match s with
  | String.EmptyString => String.EmptyString
  | String.String c s' => String.String (tolower c) (lowercase s')
  end.

(** The parsed command line ([po::variables_map]).  Options without a
    default value are optional here; [start_index] always has a value
    because it is declared with [kDefaultStartIndex]. *)
Record Options : Type := mkOptions {
  argc : Z;
  help : bool;
  volpkg : option String.string;
  seg_id : option String.string;
  method : option String.string;
  start_index : Z;
  end_index : option Z;
  stride : option Z;
  step_size : Z
}.

(** What [main] reads of the volume package: its version and the point set
    of the chosen segmentation. *)
Record Package : Type := mkPackage {
  version : Z;
  pointSet : OrderedPointSet.t
}.

(** Why a run stops without segmenting; every one of these is written to
    the console and followed by [std::exit(1)] or [return EXIT_FAILURE]. *)
Inductive ExitReason : Type :=
| ShowUsage
| MustSpecifyStrideOrStart
| MutuallyExclusive
| MissingRequired
| UnknownAlgorithm
| UnsupportedVersion
| NothingToSegment          (* startIndex >= endIndex *)
| ChainLengthMismatch.      (* starting chain length does not match *)

Inductive Outcome : Type :=
| Exit (status : Z) (why : ExitReason)
| Uncaught (e : Exception)
| Saved (ps : OrderedPointSet.t).      (* seg->setPointSet(immutableCloud) *)

Definition isSome {A : Type} (o : option A) : bool :=
  match o with Some _ => true | None => false end.

(** Lines 104-153: the checks on the command line and the package.
    [None]: all passed. *)
Definition checkArguments (opts : Options) (pkg : Package) : option Outcome :=
  if (argc opts =? 1) || help opts then Some (Exit 1 ShowUsage)
  else if negb (true || isSome (stride opts)) then Some (Exit 1 MustSpecifyStrideOrStart)
  else if isSome (end_index opts) && isSome (stride opts) then Some (Exit 1 MutuallyExclusive)
  else
    match volpkg opts, seg_id opts, method opts with
    | Some _, Some _, Some methodStr =>
        if String.eqb (lowercase methodStr) "lrps"%string
        then if negb (version pkg =? VOLPKG_SUPPORTED_VERSION)
             then Some (Exit 1 UnsupportedVersion)
             else None
        else Some (Exit 1 UnknownAlgorithm)
    | _, _, _ => Some (Exit 1 MissingRequired)
    end.

Section Run.

(** [masterCloud.front()] and [masterCloud.max()] (PointSet.hpp is not among
    the sources). *)
Variable front : OrderedPointSet.t -> Vec3.
Variable max : OrderedPointSet.t -> Vec3.

(** [LocalResliceSegmentation::compute] with the chain, target index, step
    size and remaining options it was given (LocalResliceParticleSim.cpp is
    not among the sources). *)
Variable compute : list Vec3 -> Z -> Z -> Options -> OrderedPointSet.t.

(** [static_cast<int>(floor(p[2]))]. *)
Definition floorZ (p : Vec3) : Z := floorQc (vz p).

Definition minIndex (pkg : Package) : Z := floorZ (front (pointSet pkg)).
Definition maxIndex (pkg : Package) : Z := floorZ (max (pointSet pkg)).

(** Lines 171 and 191-195: the start index, the highest index of the cloud
    when none was given. *)
Definition startIndex (opts : Options) (pkg : Package) : Z :=
  if start_index opts =? -1 then maxIndex pkg else start_index opts.

(** Lines 198-200: [opts.count("end-index") ? end-index : startIndex +
    stride], a sum of two [int]s; reading a stride that was not given
    throws. *)
Definition endIndex (opts : Options) (pkg : Package) : Result Z :=
  match end_index opts with
  | Some e => Returned e
  | None =>
      match stride opts with
      | Some s => Returned (Int.int32 (startIndex opts pkg + s))
      | None => Threw BadAnyCast
      end
  end.

(** What is known once the starting row has been loaded (line 223). *)
Record Prepared : Type := mkPrepared {
  targetZ : Z;
  immutableCloud : OrderedPointSet.t;
  startingRow : list Vec3
}.

(** Lines 100-223.  [size_t pathInCloudIndex = startIndex - minIndex]: the
    difference of two [int]s, converted to [size_t]. *)
Definition prepare (opts : Options) (pkg : Package) : Outcome + Prepared :=
  match checkArguments opts pkg with
  | Some o => inl o
  | None =>
      let masterCloud := pointSet pkg in
      let startIndex := startIndex opts pkg in
      match endIndex opts pkg with
      | Threw e => inl (Uncaught e)
      | Returned endIndex =>
          if startIndex >=? endIndex then inl (Exit 1 NothingToSegment)
          else
            let pathInCloudIndex := Int.usize (Int.int32 (startIndex - minIndex pkg)) in
            match (if startIndex >? minIndex pkg
                   then OrderedPointSet.copyRows masterCloud 0 pathInCloudIndex
                   else Returned (OrderedPointSet.mk (OrderedPointSet.width masterCloud) []))
            with
            | Threw e => inl (Uncaught e)
            | Returned immutableCloud =>
                match OrderedPointSet.getRow masterCloud pathInCloudIndex with
                | Threw e => inl (Uncaught e)
                | Returned segPath => inr (mkPrepared endIndex immutableCloud segPath)
                end
            end
      end
  end.

(** [v.erase(std::remove_if(v.begin(), v.end(), pred), v.end())]. *)
Definition eraseIf (pred : Vec3 -> bool) (v : list Vec3) : list Vec3 :=
  filter (fun e => negb (pred e)) v.

(** "Filter -1 points": the predicate is [e[2] == -1]. *)
Definition filterSentinels (segPath : list Vec3) : list Vec3 :=
  eraseIf (fun e => if Qc_eq_dec (vz e) (ofZ (-1)) then true else false) segPath.

(** Lines 225-276. *)
Definition segment (opts : Options) (pkg : Package) (p : Prepared) : Outcome :=
  let chainLength := OrderedPointSet.width (pointSet pkg) in
  let segPath := filterSentinels (startingRow p) in
  if negb (Z.of_nat (length segPath) =? chainLength)
  then Exit 1 ChainLengthMismatch
  else
    let mutableCloud := compute segPath (targetZ p) (step_size opts) opts in
    Saved (OrderedPointSet.append (immutableCloud p) mutableCloud).

Definition main (opts : Options) (pkg : Package) : Outcome :=
  match prepare opts pkg with
  | inl o => o
  | inr p => segment opts pkg p
  end.

End Run.

End Segment.

(** ** MyThread (MyThread.cpp) *)

Module MyThread.

Inductive ThreadStatus : Type :=
| Inactive
| Active
| Successful
| CloudError
| Failed.

Section Worker.

(** The texture and mesh handed to the GUI (Rendering.hpp is not among
    the sources). *)
Variable Rendering : Type.

(** What [run] touches of [GlobalValues]: the status the GUI polls, the
    point set of the active segmentation ([None]: [hasPointSet()] is
    false) and the rendering. *)
Record GlobalValues : Type := mkGlobals {
  status : ThreadStatus;
  activePointSet : option OrderedPointSet.t;
  rendering : option Rendering
}.

Definition setThreadStatus (s : ThreadStatus) (g : GlobalValues) : GlobalValues :=
  mkGlobals s (activePointSet g) (rendering g).

Definition setRendering (r : Rendering) (g : GlobalValues) : GlobalValues :=
  mkGlobals (status g) (activePointSet g) (Some r).

(** Lines 59-150: meshing, resampling, flattening and texturing of the
    cloud; any exception is caught by [run]. *)
Variable processCloud : OrderedPointSet.t -> GlobalValues -> Result Rendering.

(** [MyThread::run]. *)
Definition run (g : GlobalValues) : GlobalValues :=
  match activePointSet g with
  | None => setThreadStatus CloudError g
  | Some cloud =>
      if OrderedPointSet.height cloud <=? 1
      then setThreadStatus CloudError g
      else
        match processCloud cloud g with
        | Returned r => setThreadStatus Successful (setRendering r g)
        | Threw _ => setThreadStatus Failed g
        end
  end.

End Worker.

Arguments mkGlobals {Rendering} _ _ _.
Arguments status {Rendering} _.
Arguments activePointSet {Rendering} _.
Arguments rendering {Rendering} _.
Arguments setThreadStatus {Rendering} _ _.
Arguments setRendering {Rendering} _ _.
Arguments run {Rendering} _ _.

End MyThread.

(** ** Volume (Volume.h) *)

Module Volume.

Import Cv.

(** The members declared in Volume.h, with the slice store behind
    [slicePath_] as the list of decoded planes ([slices], one [Mat] of
    [sliceHeight_] rows and [sliceWidth_] columns per slice). *)
Record Volume : Type := mkVolume {
  numSlices_ : Z;
  sliceWidth_ : Z;
  sliceHeight_ : Z;
  slices : list Mat
}.

(** The store holds what the metadata announces. *)
Definition wf (v : Volume) : Prop :=
  Z.of_nat (length (slices v)) = numSlices_ v /\
  Forall (fun m => Z.of_nat (length m) = sliceHeight_ v /\
                   Forall (fun r => Z.of_nat (length r) = sliceWidth_ v) m)
         (slices v).

Definition Coord : Type := (Z * Z * Z)%type.

(** [[0, width) x [0, height) x [0, numSlices)] on voxel indices. *)
Definition inBounds (v : Volume) (c : Coord) : bool :=
  let '(x, y, z) := c in
  (0 <=? x) && (x <? sliceWidth_ v) &&
  (0 <=? y) && (y <? sliceHeight_ v) &&
  (0 <=? z) && (z <? numSlices_ v).

(** The stored intensity of a voxel: plane [z], row [y], column [x].
    [None] when the store has no such element, that is, when the access
    would go past the data. *)
Definition stored (v : Volume) (c : Coord) : option Z :=
  let '(x, y, z) := c in
  if (0 <=? x) && (0 <=? y) && (0 <=? z) then
    match nth_error (slices v) (Z.to_nat z) with
    | Some m =>
        match nth_error m (Z.to_nat y) with
        | Some r => nth_error r (Z.to_nat x)
        | None => None
        end
    | None => None
    end
  else None.

(** A computation that reads voxels: its value ([None] once an access went
    past the data) and the voxels whose stored data it read, in order. *)
Definition Read (A : Type) : Type := (option A * list Coord)%type.

Definition ret {A : Type} (a : A) : Read A := (Some a, []).

Definition bind {A B : Type} (m : Read A) (k : A -> Read B) : Read B :=
  match fst m with
  | Some a => let r := k a in (fst r, snd m ++ snd r)
  | None => (None, snd m)
  end.

(** One access to the store. *)
Definition readVoxel (v : Volume) (c : Coord) : Read Z := (stored v c, [c]).

Section Sampling.

(** The defined "no data" value. *)
Variable noData : Z.

(** Modelled from the spec: Volume::getIntensityAtCoord (Volume.cpp is not
    among the sources).  "Voxel coordinates are always validated against
    [0, width) x [0, height) x [0, numSlices); out-of-range samples return a
    defined sentinel (no access past bounds)." *)
Definition getIntensityAtCoord (v : Volume) (c : Coord) : Read Z :=
  if inBounds v c then readVoxel v c else ret noData.

(** [0 <= a < n] for a real-valued coordinate [a]. *)
Definition within (a : Qc) (n : Z) : bool :=
  (if Qclt_le_dec a (ofZ 0) then false else true) &&
  (if Qclt_le_dec a (ofZ n) then true else false).

(** The real-valued coordinate lies in
    [[0, width) x [0, height) x [0, numSlices)]. *)
Definition inRange (v : Volume) (p : Vec3) : bool :=
  within (vx p) (sliceWidth_ v) && within (vy p) (sliceHeight_ v) &&
  within (vz p) (numSlices_ v).

(** Trilinear interpolation in the cell of [p] with the standard
    product-of-distances weights: the sample at offset [(i, j, k)] of the
    cell corner, [i j k] in [{0, 1}], weighs [wx(i) * wy(j) * wz(k)] where
    [w(0) = 1 - d] and [w(1) = d] for the fractional part [d]. *)
Definition trilinear (p : Vec3) (sample : Coord -> Qc) : Qc :=
  let x0 := floorQc (vx p) in
  let y0 := floorQc (vy p) in
  let z0 := floorQc (vz p) in
  let dx := (vx p - ofZ x0)%Qc in
  let dy := (vy p - ofZ y0)%Qc in
  let dz := (vz p - ofZ z0)%Qc in
  ((1 - dx) * (1 - dy) * (1 - dz) * sample (x0, y0, z0)
   + dx * (1 - dy) * (1 - dz) * sample (x0 + 1, y0, z0)%Z
   + (1 - dx) * dy * (1 - dz) * sample (x0, y0 + 1, z0)%Z
   + dx * dy * (1 - dz) * sample (x0 + 1, y0 + 1, z0)%Z
   + (1 - dx) * (1 - dy) * dz * sample (x0, y0, z0 + 1)%Z
   + dx * (1 - dy) * dz * sample (x0 + 1, y0, z0 + 1)%Z
   + (1 - dx) * dy * dz * sample (x0, y0 + 1, z0 + 1)%Z
   + dx * dy * dz * sample (x0 + 1, y0 + 1, z0 + 1)%Z)%Qc.

(** Modelled from the spec: Volume::interpolateAt (Volume.cpp is not among
    the sources).  "Output is a trilinearly interpolated scalar obtained
    from the 8 surrounding integer voxel samples"; "sample on an
    out-of-range coordinate returns a defined no-data value rather than
    failing".  The result is kept exact; its rounding to [uint16_t] is not
    modelled. *)
Definition interpolateAt (v : Volume) (point : Vec3) : Read Qc :=
  if inRange v point then
    let x0 := floorQc (vx point) in
    let y0 := floorQc (vy point) in
    let z0 := floorQc (vz point) in
    let x1 := x0 + 1 in
    let y1 := y0 + 1 in
    let z1 := z0 + 1 in
    let dx := (vx point - ofZ x0)%Qc in
    let dy := (vy point - ofZ y0)%Qc in
    let dz := (vz point - ofZ z0)%Qc in
    bind (getIntensityAtCoord v (x0, y0, z0)) (fun i000 =>
    bind (getIntensityAtCoord v (x1, y0, z0)) (fun i100 =>
    bind (getIntensityAtCoord v (x0, y1, z0)) (fun i010 =>
    bind (getIntensityAtCoord v (x1, y1, z0)) (fun i110 =>
    bind (getIntensityAtCoord v (x0, y0, z1)) (fun i001 =>
    bind (getIntensityAtCoord v (x1, y0, z1)) (fun i101 =>
    bind (getIntensityAtCoord v (x0, y1, z1)) (fun i011 =>
    bind (getIntensityAtCoord v (x1, y1, z1)) (fun i111 =>
    ret ((1 - dx) * (1 - dy) * (1 - dz) * ofZ i000
         + dx * (1 - dy) * (1 - dz) * ofZ i100
         + (1 - dx) * dy * (1 - dz) * ofZ i010
         + dx * dy * (1 - dz) * ofZ i110
         + (1 - dx) * (1 - dy) * dz * ofZ i001
         + dx * (1 - dy) * dz * ofZ i101
         + (1 - dx) * dy * dz * ofZ i011
         + dx * dy * dz * ofZ i111)%Qc))))))))
  else ret (ofZ noData).

(** [Volume::getInterpolatedIntensity]. *)
Definition getInterpolatedIntensity (v : Volume) (nonGridPoint : Vec3) : Read Qc :=
  interpolateAt v nonGridPoint.

(** What a validated voxel sample is worth. *)
Definition sampleAt (v : Volume) (c : Coord) : Qc :=
  if inBounds v c
  then match stored v c with Some i => ofZ i | None => ofZ noData end
  else ofZ noData.

End Sampling.

(** The same range as a proposition. *)
Definition insideVolume (v : Volume) (p : Vec3) : Prop :=
  (ofZ 0 <= vx p /\ vx p < ofZ (sliceWidth_ v))%Qc /\
  (ofZ 0 <= vy p /\ vy p < ofZ (sliceHeight_ v))%Qc /\
  (ofZ 0 <= vz p /\ vz p < ofZ (numSlices_ v))%Qc.

End Volume.

(** ** Reslicing *)

Module Reslice.

Import Cv.

Section Reslice.

(** [getInterpolatedIntensity] as stored in a pixel of the image. *)
Variable sample : Vec3 -> Z.

(** Modelled from the spec: Volume::reslice (Volume.cpp is not among the
    sources; Volume.h declares it).  "For each output pixel (i, j), the
    corresponding volume coordinate is origin + i * xAxis + j * yAxis,
    sampled via ScalarVolume."  Row [j] of the image holds the pixels
    [(0, j) ... (width - 1, j)]. *)
Definition reslice (origin xvec yvec : Vec3) (width height : Z) : Mat :=
  map (fun j =>
         map (fun i => sample (vadd origin (vadd (smul (ofZ i) xvec) (smul (ofZ j) yvec))))
             (Std.range width))
      (Std.range height).

End Reslice.

(** [m.at(j, i)]: the pixel in row [j], column [i]. *)
Definition pixel (m : Mat) (i j : Z) : option Z :=
  match row m j with
  | Some r => if 0 <=? i then nth_error r (Z.to_nat i) else None
  | None => None
  end.

End Reslice.

(** ** The slice cache *)

Module SliceCache.

(** Modelled from the spec: the slice cache of Volume (LRUCache.h and
    Volume.cpp are not among the sources; Volume.h declares [cache_] and
    [setCacheMemoryInBytes]).  "CacheEntry: a decoded 2D slice plane plus
    its approximate byte size; cache holds entries up to a configured byte
    budget."  The plane is determined by its index and left out. *)
Record CacheEntry : Type := mkEntry { index : Z; bytes : N }.

(** The entries are kept most recently used first; [pinned] lists the
    slice indices of the interpolation reads in flight, once for every
    read. *)
Record Cache : Type := mkCache {
  budget : N;
  entries : list CacheEntry;
  pinned : list Z
}.

Definition total (l : list CacheEntry) : N :=
  fold_right (fun e acc => (bytes e + acc)%N) 0%N l.

(** Total resident bytes. *)
Definition resident (c : Cache) : N := total (entries c).

Definition isPinned (pins : list Z) (i : Z) : bool := existsb (Z.eqb i) pins.

Definition isCached (l : list CacheEntry) (i : Z) : bool :=
  existsb (fun e => index e =? i) l.

(** "Cache eviction picks the least-recently-used resident slice not
    currently referenced by an in-progress sample call": the last entry of
    the list that is not pinned, with the list that remains. *)
Fixpoint evictLRU (pins : list Z) (l : list CacheEntry)
  : option (CacheEntry * list CacheEntry) :=
  match l with
  | [] => None
  | e :: tl =>
      match evictLRU pins tl with
      | Some (victim, tl') => Some (victim, e :: tl')
      | None => if isPinned pins (index e) then None else Some (e, tl)
      end
  end.

(** "Eviction enforces [the budget] before insertion completes": entries
    are evicted one at a time while [need] more bytes do not fit in [limit]
    and an entry may be evicted.  Every round removes an entry, so
    [length l] rounds are enough. *)
Fixpoint evictWhile (rounds : nat) (pins : list Z) (limit need : N)
         (l : list CacheEntry) : list CacheEntry :=
  if (total l + need <=? limit)%N then l
  else
    match rounds with
    | O => l
    | S rounds' =>
        match evictLRU pins l with
        | Some (_, l') => evictWhile rounds' pins limit need l'
        | None => l
        end
    end.

(** A hit makes the entry the most recently used one. *)
Definition touch (i : Z) (l : list CacheEntry) : list CacheEntry :=
  filter (fun e => index e =? i) l ++ filter (fun e => negb (index e =? i)) l.

Fixpoint removeOne (i : Z) (pins : list Z) : list Z :=
  match pins with
  | [] => []
  | j :: tl => if j =? i then tl else j :: removeOne i tl
  end.

(** The error kinds of the specification that concern the volume.
    "CacheOverBudget (internal invariant violation -- must never
    surface)". *)
Inductive ErrorKind : Type :=
| IndexOutOfRange
| CacheOverBudget.

(** The calls that reach the cache: an explicit slice fetch, the
    interpolation read of a sample between the planes [z0] and [z0 + 1], a
    reslice with the planes of its samples, and a change of the budget. *)
Inductive Op : Type :=
| GetSlice (i : Z)
| Sample (z0 : Z)
| Reslice (zs : list Z)
| SetCacheBudget (nbytes : N).

Section Ops.

Variable numSlices : Z.

(** Approximate byte size of the decoded plane of a slice. *)
Variable planeBytes : Z -> N.

Definition inRange (i : Z) : bool := (0 <=? i) && (i <? numSlices).

(** [getSlice(index)]: "loads (from cache or storage) and returns the
    decoded 2D plane"; "[getSlice] on an out-of-range index signals an error
    (kind: [IndexOutOfRange])".  A plane that is not resident is inserted
    once "eviction enforces [the budget]"; the specification has no failure
    for a plane for which eviction cannot make room, so that plane is
    returned from storage without becoming resident. *)
Definition getSlice (i : Z) (c : Cache) : Cache * option ErrorKind :=
  if negb (inRange i) then (c, Some IndexOutOfRange)
  else if isCached (entries c) i
  then (mkCache (budget c) (touch i (entries c)) (pinned c), None)
  else
    let kept := evictWhile (length (entries c)) (pinned c) (budget c) (planeBytes i)
                           (entries c) in
    if (total kept + planeBytes i <=? budget c)%N
    then (mkCache (budget c) (mkEntry i (planeBytes i) :: kept) (pinned c), None)
    else (mkCache (budget c) kept (pinned c), None).

(** "Explicit scoped acquisition/release around interpolation reads": the
    plane is pinned before it is loaded, so that it cannot be evicted while
    the read is in flight; a failed load pins nothing. *)
Definition acquire (i : Z) (c : Cache) : Cache * option ErrorKind :=
  match getSlice i (mkCache (budget c) (entries c) (i :: pinned c)) with
  | (c', None) => (c', None)
  | (_, Some e) => (c, Some e)
  end.

Definition release (i : Z) (c : Cache) : Cache :=
  mkCache (budget c) (entries c) (removeOne i (pinned c)).

(** The interpolation read of [sample]: the 8 voxels lie in the planes [z0]
    and [z0 + 1]; "sample on an out-of-range coordinate returns a defined
    no-data value rather than failing", and what was acquired is released
    "on all exit paths". *)
Definition sample (z0 : Z) (c : Cache) : Cache :=
  match acquire z0 c with
  | (c1, None) =>
      match acquire (z0 + 1) c1 with
      | (c2, None) => release z0 (release (z0 + 1) c2)
      | (_, Some _) => release z0 c1
      end
  | (_, Some _) => c
  end.

(** [reslice]: one sample for every pixel, [zs] are the planes below the
    samples. *)
Definition reslice (zs : list Z) (c : Cache) : Cache :=
  fold_left (fun c z0 => sample z0 c) zs c.

(** [setCacheBudget(bytes)]: "adjusts the memory ceiling and triggers
    eviction if currently over budget". *)
Definition setCacheBudget (nbytes : N) (c : Cache) : Cache :=
  mkCache nbytes (evictWhile (length (entries c)) (pinned c) nbytes 0%N (entries c))
          (pinned c).

Definition step (c : Cache) (op : Op) : Cache * option ErrorKind :=
  match op with
  | GetSlice i => getSlice i c
  | Sample z0 => (sample z0 c, None)
  | Reslice zs => (reslice zs c, None)
  | SetCacheBudget b => (setCacheBudget b c, None)
  end.

(** The cache after a sequence of calls. *)
Definition run (c : Cache) (ops : list Op) : Cache :=
  fold_left (fun c op => fst (step c op)) ops c.

End Ops.

(** A freshly constructed volume caches nothing. *)
Definition empty (nbytes : N) : Cache := mkCache nbytes [] [].


(** The number of reads in flight that hold the plane [i]. *)
Definition pins (c : Cache) (i : Z) : nat := count_occ Z.eq_dec (pinned c) i.

(** No plane is resident twice. *)
Definition distinct (c : Cache) : Prop := NoDup (map index (entries c)).

(** The cache between two calls: the resident bytes are within the budget,
    no read is in flight, no plane is resident twice. *)
Definition settled (c : Cache) : Prop :=
  (resident c <= budget c)%N /\ pinned c = [] /\ distinct c.

End SliceCache.

(** ** The volume of a propagation run (Segment.cpp) *)

Module SegmentVolume.

Section LoadVolume.

(** [volpkg.volume(id)] and [volpkg.volume()] (VolumePkg.cpp is not among
    the sources): the volume of that name and the first volume of the
    package, or the exception of the lookup. *)
Variable Volume : Type.
Variable volume : String.string -> Result Volume.
Variable firstVolume : Result Volume.

(** Lines 159-167 of [main]: [volumeOption] is the value of "--volume",
    [volumeID] the volume the segmentation names ([None]: [hasVolumeID()] is
    false). *)
Definition loadVolume (volumeOption volumeID : option String.string) : Result Volume :=
  match (match volumeOption with
         | Some name =>
             match volume name with
             | Returned v => Returned (Some v)
             | Threw e => Threw e
             end
         | None => Returned None
         end) with
  | Threw e => Threw e
  | Returned _ =>
      match volumeID with
      | Some id => volume id
      | None => firstVolume
      end
  end.

End LoadVolume.

End SegmentVolume.

(** ** cv::Vec3d arithmetic *)

Module Vec3d.

Import Cv.

(** [a - b] and [a.dot(b)]. *)
Definition vsub (a b : Vec3) : Vec3 :=
  mkVec3 (vx a - vx b)%Qc (vy a - vy b)%Qc (vz a - vz b)%Qc.

Definition dot (a b : Vec3) : Qc := (vx a * vx b + vy a * vy b + vz a * vz b)%Qc.

(** [a.cross(b)]. *)
Definition cross (a b : Vec3) : Vec3 :=
  mkVec3 (vy a * vz b - vz a * vy b)%Qc
         (vz a * vx b - vx a * vz b)%Qc
         (vx a * vy b - vy a * vx b)%Qc.

End Vec3d.

(** ** PPMGenerator (PPMGenerator.cpp) *)

Module PPMGenerator.

Import Cv.
Import Vec3d.

Definition KD_DEFAULT_SEARCH_SIZE : Z := 100.

Inductive Shading : Type := Flat | Smooth.

(** The denominator [dot00 * dot11 - dot01 * dot01] of
    [barycentric_coord_]. *)
Definition denom (nA nB nC : Vec3) : Qc :=
  let v0 := vsub nB nA in
  let v1 := vsub nC nA in
  (dot v0 v0 * dot v1 v1 - dot v0 v1 * dot v0 v1)%Qc.

(** [PPMGenerator::barycentric_coord_]. *)
Definition barycentric_coord_ (nXYZ nA nB nC : Vec3) : Vec3 :=
  let v0 := vsub nB nA in
  let v1 := vsub nC nA in
  let v2 := vsub nXYZ nA in
  let dot00 := dot v0 v0 in
  let dot01 := dot v0 v1 in
  let dot11 := dot v1 v1 in
  let dot20 := dot v2 v0 in
  let dot21 := dot v2 v1 in
  let invDenom := (1 / (dot00 * dot11 - dot01 * dot01))%Qc in
  let output1 := ((dot11 * dot20 - dot01 * dot21) * invDenom)%Qc in
  let output2 := ((dot00 * dot21 - dot01 * dot20) * invDenom)%Qc in
  let output0 := (1 - output1 - output2)%Qc in
  mkVec3 output0 output1 output2.

(** [PPMGenerator::cartesian_coord_]. *)
Definition cartesian_coord_ (nUVW nA nB nC : Vec3) : Vec3 :=
  vadd (vadd (smul (vx nUVW) nA) (smul (vy nUVW) nB)) (smul (vz nUVW) nC).

(** [a > b] on coordinates. *)
Definition gt (a b : Qc) : bool := if Qclt_le_dec b a then true else false.

(** [CellInfo]: the 2D and 3D positions of the vertices of a cell and
    its normals. *)
Record CellInfo : Type := mkCellInfo {
  pts2D : list Vec3;
  pts3D : list Vec3;
  normals : list Vec3
}.

(** What [find_cell_] reads and writes of the generator: [mask_] and
    [ppm_] are indexed [(y, x)], an element of [ppm_] is the position and
    the normal of a [cv::Vec6d]. *)
Record Generator : Type := mkGenerator {
  width_ : Z;
  height_ : Z;
  shading_ : Shading;
  cellInformation_ : list CellInfo;
  kdSearchSize_ : Z;
  mask_ : Z -> Z -> Z;
  ppm_ : Z -> Z -> Vec3 * Vec3
}.

(** [m(y, x) = v]. *)
Definition assign {A : Type} (m : Z -> Z -> A) (y x : Z) (v : A) : Z -> Z -> A :=
  fun y' x' => if (y' =? y) && (x' =? x) then v else m y' x'.

(** [v[0], v[1], v[2]] of a vector read without a range check: nothing is
    defined when an element is missing. *)
Definition firstThree (v : list Vec3) : option (Vec3 * Vec3 * Vec3) :=
  match v with
  | a :: b :: c :: _ => Some (a, b, c)
  | _ => None
  end.

(** [cellInformation_[cell]], read without a range check. *)
Definition cellAt (g : Generator) (cell : Z) : option CellInfo :=
  if 0 <=? cell then nth_error (cellInformation_ g) (Z.to_nat cell) else None.

(** The uv coordinate of a pixel, lines 131-133, in exact arithmetic; for
    a width or height of 1 the program divides by zero, which has no
    counterpart here. *)
Definition pixelUV (g : Generator) (x y : Z) : Vec3 :=
  mkVec3 (ofZ x / (ofZ (width_ g) - 1))%Qc (ofZ y / (ofZ (height_ g) - 1))%Qc 0%Qc.

Section Helpers.

(** [AlmostEqual] of FloatComparison.hpp and [cv::normalize], neither
    among the sources. *)
Variable AlmostEqual : Qc -> Qc -> bool.
Variable normalize : Vec3 -> Vec3.

(** [ITKPointsLocator::FindClosestNPoints] on the centroids of the cells:
    the identifiers of the [n] cells nearest to the point. *)
Variable FindClosestNPoints : Vec3 -> Z -> list Z.

(** [PPMGenerator::gouraud_normal_]. *)
Definition gouraud_normal_ (nUVW nA nB nC : Vec3) : Vec3 :=
  normalize
    (vadd (vadd (smul (1 - vx nUVW - vy nUVW)%Qc nA) (smul (vy nUVW) nB))
          (smul (vz nUVW) nC)).

(** [PPMGenerator::barycentric_in_triangle_]. *)
Definition barycentric_in_triangle_ (nUVW : Vec3) : bool :=
  (gt (vx nUVW) 0 || AlmostEqual (vx nUVW) 0)
  && (gt (vy nUVW) 0 || AlmostEqual (vy nUVW) 0)
  && (gt (vz nUVW) 0 || AlmostEqual (vz nUVW) 0)
  && (gt 1 (vx nUVW + vy nUVW)%Qc || AlmostEqual (vx nUVW + vy nUVW)%Qc 1).

(** Lines 140-143 and 159-162: the barycentric coordinate of [uv] in a
    cell and whether it lies in the cell. *)
Definition locate (uv : Vec3) (info : CellInfo) : option (Vec3 * bool) :=
  match firstThree (pts2D info) with
  | Some (a, b, c) =>
      let baryCoord := barycentric_coord_ uv a b c in
      Some (baryCoord, barycentric_in_triangle_ baryCoord)
  | None => None
  end.

(** Lines 152-169: the loop over the nearest cells.  The result is the
    cell found, with its information and the coordinate of [uv] in it. *)
Fixpoint searchNeighborhood (g : Generator) (uv : Vec3) (cellHint : Z)
         (neighborhood : list Z) : option (option (Z * CellInfo * Vec3)) :=
  match neighborhood with
  | [] => Some None
  | cell :: rest =>
      if cell =? cellHint then searchNeighborhood g uv cellHint rest
      else
        match cellAt g cell with
        | None => None
        | Some info =>
            match locate uv info with
            | None => None
            | Some (baryCoord, true) => Some (Some (cell, info, baryCoord))
            | Some (_, false) => searchNeighborhood g uv cellHint rest
            end
        end
  end.

(** Lines 183-192: the normal of the pixel; [normals.at(i)] throws when
    the cell has no such normal. *)
Definition pixelNormal (g : Generator) (info : CellInfo) (baryCoord : Vec3)
  : Result Vec3 :=
  match shading_ g with
  | Flat => Std.at_ (normals info) 0
  | Smooth =>
      match Std.at_ (normals info) 0, Std.at_ (normals info) 1,
            Std.at_ (normals info) 2 with
      | Returned n0, Returned n1, Returned n2 =>
          Returned (gouraud_normal_ baryCoord n0 n1 n2)
      | _, _, _ => Threw OutOfRange
      end
  end.

(** [PPMGenerator::find_cell_]: the generator and the cell hint after the
    call.  [None]: the call reads a cell or a vertex that does not
    exist. *)
Definition find_cell_ (g : Generator) (x y : Z) (cellHint : Z)
  : option (Result (Generator * Z)) :=
  let uv := pixelUV g x y in
  match cellAt g cellHint with
  | None => None
  | Some info =>
      match locate uv info with
      | None => None
      | Some (baryCoord, cellFound) =>
          match (if cellFound then Some (Some (cellHint, info, baryCoord))
                 else searchNeighborhood g uv cellHint
                        (FindClosestNPoints uv (kdSearchSize_ g)))
          with
          | None => None
          | Some None => Some (Returned (g, cellHint))
          | Some (Some (cell, info, baryCoord)) =>
              match firstThree (pts3D info) with
              | None => None
              | Some (a, b, c) =>
                  let xyz := cartesian_coord_ baryCoord a b c in
                  match pixelNormal g info baryCoord with
                  | Threw e => Some (Threw e)
                  | Returned xyzNorm =>
                      Some (Returned
                              (mkGenerator (width_ g) (height_ g) (shading_ g)
                                 (cellInformation_ g) (kdSearchSize_ g)
                                 (assign (mask_ g) y x 255)
                                 (assign (ppm_ g) y x (xyz, xyzNorm)),
                               cell))
                  end
              end
          end
      end
  end.

(** [PerPixelMap(height_, width_)]: the map before any pixel is
    assigned (PerPixelMap.cpp is not among the sources). *)
Variable emptyMap : Z -> Z -> Vec3 * Vec3.

(** The loop over [x] of lines 118-120, for the columns [xs] that
    remain. *)
Fixpoint columns (g : Generator) (y : Z) (xs : list Z) (lastCell : Z)
  : option (Result (Generator * Z)) :=
  match xs with
  | [] => Some (Returned (g, lastCell))
  | x :: rest =>
      match find_cell_ g x y lastCell with
      | None => None
      | Some (Threw e) => Some (Threw e)
      | Some (Returned (g', lastCell')) => columns g' y rest lastCell'
      end
  end.

(** The loop over [y] of lines 117-121. *)
Fixpoint rows (g : Generator) (ys : list Z) (lastCell : Z)
  : option (Result (Generator * Z)) :=
  match ys with
  | [] => Some (Returned (g, lastCell))
  | y :: rest =>
      match columns g y (Std.range (width_ g)) lastCell with
      | None => None
      | Some (Threw e) => Some (Threw e)
      | Some (Returned (g', lastCell')) => rows g' rest lastCell'
      end
  end.

(** [PPMGenerator::generate_ppm_]; the centroid mesh has one point for
    each cell. *)
Definition generate_ppm_ (g : Generator) : option (Result Generator) :=
  let numberOfPoints := Z.of_nat (length (cellInformation_ g)) in
  let kdSearchSize :=
    if numberOfPoints <? KD_DEFAULT_SEARCH_SIZE then numberOfPoints
    else KD_DEFAULT_SEARCH_SIZE in
  let g := mkGenerator (width_ g) (height_ g) (shading_ g) (cellInformation_ g)
                       kdSearchSize (fun _ _ => 0) emptyMap in
  match rows g (Std.range (height_ g)) 0 with
  | None => None
  | Some (Threw e) => Some (Threw e)
  | Some (Returned (g', _)) => Some (Returned g')
  end.

(** What holds of a pixel of the map: it is not mapped, or its position
    is the point, in the 3D cell, of the coordinate that its uv coordinate
    has in the 2D cell, which passed the test. *)
Definition mapped (g : Generator) (y x : Z) : Prop :=
  mask_ g y x = 255
  /\ 0 <= y < height_ g /\ 0 <= x < width_ g
  /\ exists info a2 b2 c2 a3 b3 c3,
      In info (cellInformation_ g)
      /\ firstThree (pts2D info) = Some (a2, b2, c2)
      /\ firstThree (pts3D info) = Some (a3, b3, c3)
      /\ barycentric_in_triangle_
           (barycentric_coord_ (pixelUV g x y) a2 b2 c2) = true
      /\ fst (ppm_ g y x)
         = cartesian_coord_ (barycentric_coord_ (pixelUV g x y) a2 b2 c2) a3 b3 c3.

Definition unmapped (g : Generator) (y x : Z) : Prop :=
  mask_ g y x = 0 /\ ppm_ g y x = emptyMap y x.

Definition sound (g : Generator) : Prop :=
  forall y x, unmapped g y x \/ mapped g y x.

End Helpers.

(** Two generators with the same size, shading and cells. *)
Definition sameInput (g g' : Generator) : Prop :=
  width_ g' = width_ g /\ height_ g' = height_ g
  /\ shading_ g' = shading_ g
  /\ cellInformation_ g' = cellInformation_ g
  /\ kdSearchSize_ g' = kdSearchSize_ g.

(** *** [compute] and [generate_centroid_mesh_] *)

(** What the generator reads of an [ITKMesh]: whether the pointer is
    null, the number of points, the point ids of the cells in the order of
    the cells, the position of a point, and the normal stored for a point,
    if any, with the size of that container. *)
Record ITKMesh : Type := mkITKMesh {
  IsNull : bool;
  GetNumberOfPoints : Z;
  GetCells : list (list Z);
  GetPoint : Z -> Vec3;
  GetPointData : Z -> option Vec3;
  pointDataSize : Z
}.

(** What the generator reads of the [UVMap] (UVMap.cpp is not among the
    sources): whether it is empty and the uv coordinate that [get] returns
    for a point. *)
Record UVMap : Type := mkUVMap {
  uv_empty : bool;
  uv_get : Z -> Qc * Qc
}.

(** The outcome of [compute]: [std::invalid_argument], a read of a cell or
    of a vertex that does not exist, an exception of the loop over the
    pixels, or the generator with its map. *)
Inductive Outcome : Type :=
| InvalidArgument
| Undefined
| Raised (e : Exception)
| Computed (g : Generator).

(** The condition of lines 25-27. *)
Definition invalidInput (inputMesh : ITKMesh) (uvMap : UVMap) (height width : Z) : bool :=
  IsNull inputMesh || (GetNumberOfPoints inputMesh =? 0)
  || (Z.of_nat (length (GetCells inputMesh)) =? 0) || uv_empty uvMap
  || (width =? 0) || (height =? 0).

Section Compute.

Variable AlmostEqual : Qc -> Qc -> bool.
Variable normalize : Vec3 -> Vec3.
Variable emptyMap : Z -> Z -> Vec3 * Vec3.

(** [ITKPointsLocator::FindClosestNPoints] of a locator set up on the
    given points: the identifiers of the [n] points nearest to the point. *)
Variable FindClosestNPoints : list Vec3 -> Vec3 -> Z -> list Z.

(** [CalculateNormals(inputMesh_).compute()] (CalculateNormals.cpp is not
    among the sources). *)
Variable CalculateNormals : ITKMesh -> ITKMesh.

(** Lines 33-39: the mesh that the generator works on. *)
Definition workingMesh_ (inputMesh : ITKMesh) (shading : Shading) : ITKMesh :=
  match shading with
  | Smooth =>
      if negb (pointDataSize inputMesh =? GetNumberOfPoints inputMesh)
      then CalculateNormals inputMesh else inputMesh
  | Flat => inputMesh
  end.

(** The body of the loop of [generate_centroid_mesh_] for one cell: the
    information of the cell and its centroid; [None] when the cell has
    fewer than three points, which the code reads without a check. *)
Definition cellInfo (shading : Shading) (workingMesh : ITKMesh) (uvMap : UVMap)
           (cell : list Z) : option (CellInfo * Vec3) :=
  let pts2D := map (fun pointID => mkVec3 (fst (uv_get uvMap pointID))
                                          (snd (uv_get uvMap pointID)) 0%Qc) cell in
  let pts3D := map (GetPoint workingMesh) cell in
  let normals := flat_map (fun pointID => match GetPointData workingMesh pointID with
                                          | Some n => [n]
                                          | None => []
                                          end) cell in
  match firstThree pts2D, firstThree pts3D with
  | Some (a, b, c), Some (p0, p1, p2) =>
      let centroid := smul (1 / Q2Qc 3)%Qc (vadd (vadd a b) c) in
      let normals :=
        match shading with
        | Flat => [normalize (cross (vsub p1 p0) (vsub p2 p0))]
        | Smooth => normals
        end in
      Some (mkCellInfo pts2D pts3D normals, centroid)
  | _, _ => None
  end.

(** [generate_centroid_mesh_]: [cellInformation_] and the points of
    [centroidMesh_], both in the order of the cells. *)
Fixpoint generate_centroid_mesh_ (shading : Shading) (workingMesh : ITKMesh)
         (uvMap : UVMap) (cells : list (list Z)) : option (list CellInfo * list Vec3) :=
  match cells with
  | [] => Some ([], [])
  | cell :: rest =>
      match cellInfo shading workingMesh uvMap cell with
      | None => None
      | Some (info, centroid) =>
          match generate_centroid_mesh_ shading workingMesh uvMap rest with
          | None => None
          | Some (infos, centroids) => Some (info :: infos, centroid :: centroids)
          end
      end
  end.

(** [PPMGenerator::compute]. *)
Definition compute (inputMesh : ITKMesh) (uvMap : UVMap) (height width : Z)
           (shading : Shading) : Outcome :=
  if invalidInput inputMesh uvMap height width
  then InvalidArgument
  else
    let workingMesh := workingMesh_ inputMesh shading in
    match generate_centroid_mesh_ shading workingMesh uvMap (GetCells workingMesh) with
    | None => Undefined
    | Some (cellInformation, centroids) =>
        match generate_ppm_ AlmostEqual normalize (FindClosestNPoints centroids) emptyMap
                (mkGenerator width height shading cellInformation 0
                             (fun _ _ => 0) emptyMap)
        with
        | None => Undefined
        | Some (Threw e) => Raised e
        | Some (Returned g) => Computed g
        end
    end.

End Compute.

(** A cell whose three vertices can be read, with the normals that the
    shading reads. *)
Definition readable (shading : Shading) (info : CellInfo) : Prop :=
  (3 <= length (pts2D info))%nat /\ (3 <= length (pts3D info))%nat
  /\ match shading with
     | Flat => (1 <= length (normals info))%nat
     | Smooth => (3 <= length (normals info))%nat
     end.

(** The identifier of a cell of the generator. *)
Definition cellId (g : Generator) (cell : Z) : Prop :=
  0 <= cell < Z.of_nat (length (cellInformation_ g)).

End PPMGenerator.

(** ** Texture (Texture.cpp) *)

Module Texture.

(** What [addImage] and [setImage] touch of a [Texture]: the value of the
    metadata key "number-of-images", the images and the size members. *)
Record Texture : Type := mkTexture {
  numberOfImages : Z;
  images_ : list Cv.Mat;
  width_ : Z;
  height_ : Z
}.

(** [Texture::Texture()]; [w] and [h] stand for what the size members hold
    before the first image is added. *)
Definition new (w h : Z) : Texture := mkTexture 0 [] w h.

(** [images_.size()]. *)
Definition size (t : Texture) : Z := Z.of_nat (length (images_ t)).

(** [Texture::addImage]: the texture after the call and the returned
    index. *)
Definition addImage (image : Cv.Mat) (t : Texture) : Texture * Z :=
  let width := if size t =? 0 then Cv.cols image else width_ t in
  let height := if size t =? 0 then Cv.rows image else height_ t in
  let images := images_ t ++ [image] in
  (mkTexture (Z.of_nat (length images)) images width height,
   Z.of_nat (length images) - 1).

(** [v.at(id) = image]. *)
Fixpoint assignAt {A : Type} (v : list A) (id : nat) (image : A) : Result (list A) :=
  match v, id with
  | [], _ => Threw OutOfRange
  | _ :: rest, O => Returned (image :: rest)
  | a :: rest, S id' =>
      match assignAt rest id' image with
      | Returned rest' => Returned (a :: rest')
      | Threw e => Threw e
      end
  end.

(** [Texture::setImage]; [id] is a [size_t]. *)
Definition setImage (id : Z) (image : Cv.Mat) (t : Texture) : Result Texture :=
  match assignAt (images_ t) (Z.to_nat id) image with
  | Threw e => Threw e
  | Returned images =>
      Returned (mkTexture (Z.of_nat (length images)) images (width_ t) (height_ t))
  end.

(** Calls on a texture; a caller that catches the exception of [setImage]
    goes on with the texture as it was. *)
Inductive Call : Type :=
| AddImage (image : Cv.Mat)
| SetImage (id : Z) (image : Cv.Mat).

Definition call (t : Texture) (c : Call) : Texture :=
  match c with
  | AddImage image => fst (addImage image t)
  | SetImage id image =>
      match setImage id image t with
      | Returned t' => t'
      | Threw _ => t
      end
  end.

Definition calls (cs : list Call) (t : Texture) : Texture := fold_left call cs t.

(** The images handed to [addImage] by a sequence of calls. *)
Definition added (cs : list Call) : list Cv.Mat :=
  flat_map (fun c => match c with AddImage image => [image] | SetImage _ _ => [] end) cs.

End Texture.

(** ** The metadata editor (metadata.cpp) *)

Module Metadata.

(** [std::string::find("=")], [substr(0, delimiter)] and
    [substr(delimiter + 1, npos)] of lines 76-84: the key and the value of a
    configuration, [None] when it has no "=". *)
Definition splitConfig (config : String.string) : option (String.string * String.string) :=
  match String.index 0 "="%string config with
  | None => None
  | Some delimiter =>
      let key := String.substring 0 delimiter config in
      let value := String.substring (delimiter + 1) (String.length config) config in
      Some (key, value)
  end.

(** [std::map<std::string, std::string>]: the entries in the order of
    their keys. *)
Definition Map : Type := list (String.string * String.string).

(** [m[key] = value]. *)
Fixpoint assign (key value : String.string) (m : Map) : Map :=
  match m with
  | [] => [(key, value)]
  | (k, v) :: rest =>
      match String.compare key k with
      | Lt => (key, value) :: m
      | Eq => (key, value) :: rest
      | Gt => (k, v) :: assign key value rest
      end
  end.

(** [m.find(key)]. *)
Fixpoint find (key : String.string) (m : Map) : option String.string :=
  match m with
  | [] => None
  | (k, v) :: rest => if String.eqb key k then Some v else find key rest
  end.

(** [m.erase(key)]. *)
Definition erase (key : String.string) (m : Map) : Map :=
  filter (fun kv => negb (String.eqb key (fst kv))) m.

(** Lines 72-87: the loop over the configurations. *)
Definition parse (configs : list String.string) : Map :=
  fold_left (fun parsedMetadata config =>
               match splitConfig config with
               | None => parsedMetadata
               | Some (key, value) => assign key value parsedMetadata
               end) configs [].

(** Lines 98-130: the entries left to set, the "version" entry is
    erased. *)
Definition changes (configs : list String.string) : Map :=
  let parsedMetadata := parse configs in
  match find "version"%string parsedMetadata with
  | Some _ => erase "version"%string parsedMetadata
  | None => parsedMetadata
  end.

End Metadata.

(** ** HalfEdgeMesh (HalfEdgeMesh.cpp) *)

Module HalfEdgeMesh.

Import Cv.

(** The mesh owns its vertices, edges and faces in three vectors, in the
    order of their creation, and nothing is removed from them; a pointer to
    one of them is modelled by its position in its vector, which is also the
    [id] it is given, and a null pointer by [None]. *)
Record Angle : Type := mkAngle {
  alpha : float;
  beta : float;
  phi : float;
  weight : float
}.

Record Vert : Type := mkVert {
  v_id : nat;
  xyz : Vec3d;
  uv : float * float;
  lambdaPlanar : float;
  lambdaLength : float;
  v_edge : option nat;
  v_nextLink : option nat
}.

(** The angle of an edge is stored with the edge. *)
Record Edge : Type := mkEdge {
  e_id : nat;
  vert : nat;
  next : nat;
  pair : option nat;
  face : nat;
  angle : Angle;
  e_nextLink : option nat
}.

Record Face : Type := mkFace {
  f_id : nat;
  edge : nat;
  lambdaTriangle : float;
  connected : bool;
  f_nextLink : option nat
}.

(** [pairLookupMap_] is a multimap from the id of the vertex an edge
    starts at to the edge: its entries in the order of insertion. *)
Record Mesh : Type := mkMesh {
  verts_ : list Vert;
  edges_ : list Edge;
  faces_ : list Face;
  pairLookupMap_ : list (nat * nat)
}.

Definition empty : Mesh := mkMesh [] [] [] [].

(** Assignment through a pointer: the element at position [i] is replaced
    by [f] of it. *)
Fixpoint update {A : Type} (l : list A) (i : nat) (f : A -> A) : list A :=
  match l, i with
  | [], _ => []
  | a :: rest, O => f a :: rest
  | a :: rest, S i' => a :: update rest i' f
  end.

(** [if (!v.empty()) v.back()->nextLink = ...]. *)
Definition linkBack {A : Type} (l : list A) (f : A -> A) : list A :=
  match l with
  | [] => []
  | _ :: _ => update l (length l - 1) f
  end.

Definition setVertNextLink (n : option nat) (v : Vert) : Vert :=
  mkVert (v_id v) (xyz v) (uv v) (lambdaPlanar v) (lambdaLength v) (v_edge v) n.

Definition setVertEdge (e : option nat) (v : Vert) : Vert :=
  mkVert (v_id v) (xyz v) (uv v) (lambdaPlanar v) (lambdaLength v) e (v_nextLink v).

Definition setEdgeNextLink (n : option nat) (e : Edge) : Edge :=
  mkEdge (e_id e) (vert e) (next e) (pair e) (face e) (angle e) n.

Definition setEdgePair (p : option nat) (e : Edge) : Edge :=
  mkEdge (e_id e) (vert e) (next e) p (face e) (angle e) (e_nextLink e).

Definition setFaceNextLink (n : option nat) (f : Face) : Face :=
  mkFace (f_id f) (edge f) (lambdaTriangle f) (connected f) n.

Definition setFaceConnected (c : bool) (f : Face) : Face :=
  mkFace (f_id f) (edge f) (lambdaTriangle f) c (f_nextLink f).

(** [HalfEdgeMesh::addVert]: the mesh after the call and the new
    vertex. *)
Definition addVert (x y z : float) (m : Mesh) : Mesh * nat :=
  let id := length (verts_ m) in
  let v := mkVert id (mkVec3d x y z) (0%float, 0%float) 0%float 1%float None None in
  (mkMesh (linkBack (verts_ m) (setVertNextLink (Some id)) ++ [v])
          (edges_ m) (faces_ m) (pairLookupMap_ m),
   id).

(** [if (e->vert->edge == nullptr) e->vert->edge = e]. *)
Definition linkVert (v e : nat) (verts : list Vert) : list Vert :=
  update verts v (fun V => match v_edge V with
                           | None => setVertEdge (Some e) V
                           | Some _ => V
                           end).

(** The constant [M_PI] of <cmath>, 3.14159265358979323846 as a double,
    and the two bounds of lines 27-28. *)
Definition M_PI : float := 0x1.921fb54442d18p+1%float.
Definition MINANGLE : float := (M_PI / 180)%float.
Definition MAXANGLE : float := (M_PI - MINANGLE)%float.

(** The clamping of lines 113-119: both comparisons are false of a NaN,
    which is kept. *)
Definition clamp (a : float) : float :=
  if (a <? MINANGLE)%float then MINANGLE
  else if (MAXANGLE <? a)%float then MAXANGLE
  else a.

Section Angles.

(** [cv::normalize], [cv::Vec3d::dot] and [acos]. *)
Variable normalize : Vec3d -> Vec3d.
Variable dot : Vec3d -> Vec3d -> float.
Variable acos : float -> float.

(** [HalfEdgeMesh::angle_]. *)
Definition angle_ (a b c : Vec3d) : float :=
  let vec1 := normalize (subd b a) in
  let vec2 := normalize (subd c a) in
  let d := dot vec1 vec2 in
  if (d <=? -1)%float then M_PI
  else if (1 <=? d)%float then 0%float
  else acos d.

(** Lines 122-127. *)
Definition newAngle (a : float) : Angle := mkAngle a a a (1 / (a * a))%float.

(** [HalfEdgeMesh::addFace]: the mesh after the call and the new face;
    [None] when a vertex is read that does not exist. *)
Definition addFace (v0 v1 v2 : nat) (m : Mesh) : option (Mesh * nat) :=
  match nth_error (verts_ m) v0, nth_error (verts_ m) v1, nth_error (verts_ m) v2 with
  | Some V0, Some V1, Some V2 =>
      let f := length (faces_ m) in
      let e0 := length (edges_ m) in
      let e1 := S e0 in
      let e2 := S e1 in
      let verts := linkVert v2 e2 (linkVert v1 e1 (linkVert v0 e0 (verts_ m))) in
      let a0 := clamp (angle_ (xyz V0) (xyz V1) (xyz V2)) in
      let a1 := clamp (angle_ (xyz V1) (xyz V2) (xyz V0)) in
      let a2 := clamp (angle_ (xyz V2) (xyz V0) (xyz V1)) in
      let E0 := mkEdge e0 v0 e1 None f (newAngle a0) (Some e1) in
      let E1 := mkEdge e1 v1 e2 None f (newAngle a1) (Some e2) in
      let E2 := mkEdge e2 v2 e0 None f (newAngle a2) None in
      let edges := linkBack (edges_ m) (setEdgeNextLink (Some e0)) ++ [E0; E1; E2] in
      let F := mkFace f e0 0%float false None in
      let faces := linkBack (faces_ m) (setFaceNextLink (Some f)) ++ [F] in
      Some (mkMesh verts edges faces
                   (pairLookupMap_ m ++ [(v0, e0); (v1, e1); (v2, e2)]),
            f)
  | _, _, _ => None
  end.

End Angles.

(** [e->next->vert->id] of an edge of the mesh. *)
Definition endOf (m : Mesh) (e : nat) : option nat :=
  match nth_error (edges_ m) e with
  | Some E => option_map vert (nth_error (edges_ m) (next E))
  | None => None
  end.

(** [HalfEdgeMesh::find_edge_pair_]: the first edge in the range of the
    key [b] whose next edge starts at [a]. *)
Definition find_edge_pair_ (m : Mesh) (a b : nat) : option nat :=
  option_map snd
    (find (fun entry =>
             Nat.eqb (fst entry) b
             && match endOf m (snd entry) with
                | Some id => Nat.eqb id a
                | None => false
                end)
          (pairLookupMap_ m)).

Definition setPair (e : nat) (p : option nat) (m : Mesh) : Mesh :=
  mkMesh (verts_ m) (update (edges_ m) e (setEdgePair p)) (faces_ m) (pairLookupMap_ m).

(** Lines 184-191, for the edge [e] and the edge [n] that follows it. *)
Definition connectEdge (e n : nat) (m : Mesh) : Mesh :=
  match nth_error (edges_ m) e, nth_error (edges_ m) n with
  | Some E, Some N =>
      match pair E with
      | Some _ => m
      | None =>
          match find_edge_pair_ m (vert E) (vert N) with
          | Some p => setPair p (Some e) (setPair e (Some p) m)
          | None =>
              mkMesh (update (verts_ m) (vert E) (setVertEdge (Some e)))
                     (edges_ m) (faces_ m) (pairLookupMap_ m)
          end
      end
  | _, _ => m
  end.

(** The body of the loop of [connect_all_pairs_] for the face [f]. *)
Definition connectFace (f : nat) (m : Mesh) : Mesh :=
  match nth_error (faces_ m) f with
  | Some F =>
      if connected F then m
      else
        let e0 := edge F in
        match nth_error (edges_ m) e0 with
        | Some E0 =>
            let e1 := next E0 in
            match nth_error (edges_ m) e1 with
            | Some E1 =>
                let e2 := next E1 in
                let m := connectEdge e0 e1 m in
                let m := connectEdge e1 e2 m in
                let m := connectEdge e2 e0 m in
                mkMesh (verts_ m) (edges_ m)
                       (update (faces_ m) f (setFaceConnected true))
                       (pairLookupMap_ m)
            | None => m
            end
        | None => m
        end
  | None => m
  end.

(** [for (auto f = faces_[0]; f; f = f->nextLink)]: at most [fuel] faces
    are visited. *)
Fixpoint connectLoop (fuel : nat) (f : option nat) (m : Mesh) : option Mesh :=
  match f with
  | None => Some m
  | Some i =>
      match fuel with
      | O => None
      | S fuel' =>
          let m := connectFace i m in
          match nth_error (faces_ m) i with
          | Some F => connectLoop fuel' (f_nextLink F) m
          | None => None
          end
      end
  end.

(** [HalfEdgeMesh::connect_all_pairs_]; [None] when [faces_[0]] does not
    exist or the walk along [nextLink] does not end within the number of
    faces. *)
Definition connect_all_pairs_ (m : Mesh) : option Mesh :=
  match faces_ m with
  | [] => None
  | _ :: _ =>
      match connectLoop (length (faces_ m)) (Some 0%nat) m with
      | Some m => Some (mkMesh (verts_ m) (edges_ m) (faces_ m) [])
      | None => None
      end
  end.

(** A mesh is built by calls of [addVert] and [addFace]. *)
Inductive Call : Type :=
| AddVert (x y z : float)
| AddFace (v0 v1 v2 : nat).

Section Build.

Variable normalize : Vec3d -> Vec3d.
Variable dot : Vec3d -> Vec3d -> float.
Variable acos : float -> float.

Definition call (m : option Mesh) (c : Call) : option Mesh :=
  match m with
  | None => None
  | Some m =>
      match c with
      | AddVert x y z => Some (fst (addVert x y z m))
      | AddFace v0 v1 v2 => option_map fst (addFace normalize dot acos v0 v1 v2 m)
      end
  end.

Definition calls (cs : list Call) : option Mesh := fold_left call cs (Some empty).

End Build.

(** *** Views of a mesh used in its properties *)

(** The directed edges that the [addFace] calls create, in the order of
    their creation: start and end vertex. *)
Definition directedEdges (cs : list Call) : list (nat * nat) :=
  flat_map (fun c => match c with
                     | AddVert _ _ _ => []
                     | AddFace v0 v1 v2 => [(v0, v1); (v1, v2); (v2, v0)]
                     end) cs.

(** [e->vert->id] and [e->pair] of an edge of the mesh. *)
Definition startOf (m : Mesh) (e : nat) : option nat :=
  option_map vert (nth_error (edges_ m) e).

Definition pairOf (m : Mesh) (e : nat) : option nat :=
  match nth_error (edges_ m) e with
  | Some E => pair E
  | None => None
  end.

(** The [nextLink] of element [i] of a chain of [n] elements. *)
Definition nextIn (n i : nat) : option nat :=
  if (S i <? n)%nat then Some (S i) else None.

(** The angle of an edge is a NaN or lies between the two bounds, and its
    weight is [1 / alpha^2]. *)
Definition clamped (lo hi : float) (a : Angle) : Prop :=
  (PrimFloat.is_nan (alpha a) = true
   \/ ((lo <=? alpha a)%float = true /\ (alpha a <=? hi)%float = true))
  /\ beta a = alpha a /\ phi a = alpha a
  /\ weight a = (1 / (alpha a * alpha a))%float.

(** The structure of a mesh whose directed edges are [D]: ids are
    positions, the [nextLink] chains run through the vectors in order, every
    edge lies on a cycle of three edges of one face, and the lookup map
    holds every edge under the vertex it starts at. *)
Definition wellFormed (m : Mesh) (D : list (nat * nat)) : Prop :=
  (forall i V, nth_error (verts_ m) i = Some V ->
               v_id V = i /\ v_nextLink V = nextIn (length (verts_ m)) i)
  /\ length (edges_ m) = length D
  /\ length D = (3 * length (faces_ m))%nat
  /\ (forall e E, nth_error (edges_ m) e = Some E ->
        e_id E = e
        /\ e_nextLink E = nextIn (length (edges_ m)) e
        /\ (vert E < length (verts_ m))%nat
        /\ exists F E1 E2,
            nth_error (faces_ m) (face E) = Some F
            /\ nth_error (edges_ m) (next E) = Some E1
            /\ nth_error (edges_ m) (next E1) = Some E2
            /\ next E2 = e /\ face E1 = face E /\ face E2 = face E
            /\ (edge F = e \/ edge F = next E \/ edge F = next E1)
            /\ nth_error D e = Some (vert E, vert E1))
  /\ (forall f F, nth_error (faces_ m) f = Some F ->
        f_id F = f
        /\ f_nextLink F = nextIn (length (faces_ m)) f
        /\ exists E, nth_error (edges_ m) (edge F) = Some E /\ face E = f)
  /\ (forall k x, In (k, x) (pairLookupMap_ m) <-> exists b, nth_error D x = Some (k, b)).

(** Before [connect_all_pairs_]: no edge has a pair, no face is marked. *)
Definition unconnected (m : Mesh) : Prop :=
  (forall e E, nth_error (edges_ m) e = Some E -> pair E = None)
  /\ (forall f F, nth_error (faces_ m) f = Some F -> connected F = false).

(** Every angle of the mesh is clamped. *)
Definition anglesClamped (m : Mesh) : Prop :=
  forall e E, nth_error (edges_ m) e = Some E ->
              clamped MINANGLE MAXANGLE (angle E).

(** Two meshes that differ at most in the pairs of their edges, the edges of
    their vertices and the marks of their faces. *)
Definition sameShape (m m' : Mesh) : Prop :=
  map (setVertEdge None) (verts_ m') = map (setVertEdge None) (verts_ m)
  /\ map (setEdgePair None) (edges_ m') = map (setEdgePair None) (edges_ m)
  /\ map (setFaceConnected false) (faces_ m') = map (setFaceConnected false) (faces_ m)
  /\ pairLookupMap_ m' = pairLookupMap_ m.

(** Pairs are mutual and join opposite edges. *)
Definition paired (m : Mesh) (D : list (nat * nat)) : Prop :=
  forall e p, pairOf m e = Some p ->
              pairOf m p = Some e
              /\ exists a b, nth_error D e = Some (a, b) /\ nth_error D p = Some (b, a).

(** An edge without pair has no opposite edge. *)
Definition settled (m : Mesh) (D : list (nat * nat)) (e : nat) : Prop :=
  pairOf m e = None ->
  forall a b, nth_error D e = Some (a, b) -> ~ In (b, a) D.

(** No pair is taken away. *)
Definition keepsPairs (m m' : Mesh) : Prop :=
  forall e, pairOf m e <> None -> pairOf m' e <> None.

(** The state of the loop of [connect_all_pairs_] before the face [k]. *)
Definition connecting (D : list (nat * nat)) (m : Mesh) (k : nat) : Prop :=
  wellFormed m D /\ paired m D
  /\ (forall f F, (k <= f)%nat -> nth_error (faces_ m) f = Some F -> connected F = false)
  /\ (forall e E, nth_error (edges_ m) e = Some E -> (face E < k)%nat -> settled m D e).

(** *** The edges of the vertices *)

(** The edge [e] starts at the vertex [a] and no edge runs the opposite
    way. *)
Definition boundaryEdge (D : list (nat * nat)) (a e : nat) : Prop :=
  exists b, nth_error D e = Some (a, b) /\ ~ In (b, a) D.

(** The edge of a vertex starts at the vertex, and a vertex has an edge as
    soon as an edge starts at it. *)
Definition vertEdges (m : Mesh) (D : list (nat * nat)) : Prop :=
  forall v V, nth_error (verts_ m) v = Some V ->
              match v_edge V with
              | Some e => exists b, nth_error D e = Some (v, b)
              | None => forall e b, nth_error D e <> Some (v, b)
              end.

(** The edge of the vertex [a] is one without opposite edge. *)
Definition onBoundary (m : Mesh) (D : list (nat * nat)) (a : nat) : Prop :=
  exists V e, nth_error (verts_ m) a = Some V /\ v_edge V = Some e /\ boundaryEdge D a e.

(** The loop of [connect_all_pairs_] before the face [k]: the vertices of
    the edges without opposite edge of the faces before are on the
    boundary. *)
Definition marked (m : Mesh) (D : list (nat * nat)) (k : nat) : Prop :=
  forall e E a, nth_error (edges_ m) e = Some E -> (face E < k)%nat ->
                boundaryEdge D a e -> onBoundary m D a.

End HalfEdgeMesh.

(** * Concrete inputs *)

Module Examples.

Import Cv.

(** Four candidates around the reference column 5: their distances to it
    are 5, 1, 2 and 3. *)
Definition maxima5 : list Slice.Pair :=
  [(0, 1%float); (4, 1%float); (7, 1%float); (8, 1%float)].

(** A reslice of 11 rows and 64 columns whose row 10 is [profile]; its
    center pixel is (32, 5), the plane is the x-y plane through the
    origin. *)
Definition sliceWithProfile (profile : list Z) : Slice.Slice :=
  Slice.mkSlice (repeat (repeat 0 64%nat) 10%nat ++ [profile])
                (mkVec3 (ofZ 0) (ofZ 0) (ofZ 0))
                (mkVec3 (ofZ 32) (ofZ 5) (ofZ 0))
                (mkVec3 (ofZ 1) (ofZ 0) (ofZ 0))
                (mkVec3 (ofZ 0) (ofZ 1) (ofZ 0)).

(** A flat, zero-valued profile: no local maximum. *)
Definition flatProfile : list Z := repeat 0 64%nat.

(** Peaks at columns 1 and 41: 31 and 9 columns from the center column. *)
Definition profileA : list Z :=
  [0; 9] ++ repeat 0 39%nat ++ [7] ++ repeat 0 22%nat.

(** Peaks at columns 31 and 40: 1 and 8 columns from the center column. *)
Definition profileB : list Z :=
  repeat 0 31%nat ++ [9] ++ repeat 0 8%nat ++ [7] ++ repeat 0 23%nat.

(** An image sampler for the reslice example: the integer part of x. *)
Definition sampleX (p : Vec3) : Z := floorQc (vx p).

Definition origin1 : Vec3 := mkVec3 (ofZ 10) (ofZ 20) (ofZ 3).
Definition xAxis1 : Vec3 := mkVec3 (ofZ 1) (ofZ 0) (ofZ 0).
Definition yAxis1 : Vec3 := mkVec3 (ofZ 0) (ofZ 1) (ofZ 0).

(** A cloud of two rows and two columns in a volume of 10 slices, with a
    sentinel point. *)
Definition cloud2x2 : OrderedPointSet.t :=
  OrderedPointSet.mk 2
    [[mkVec3 (ofZ 1) (ofZ 2) (ofZ 3); mkVec3 (ofZ 4) (ofZ 5) (ofZ (-1))];
     [mkVec3 (ofZ 1) (ofZ 2) (ofZ 4); mkVec3 (ofZ 4) (ofZ 6) (ofZ 4)]].






(** Stand-ins for [front()] and [max()]: the first and the last point of
    the set. *)
Definition firstPoint (ps : OrderedPointSet.t) : Vec3 :=
  hd (mkVec3 (ofZ 0) (ofZ 0) (ofZ 0)) (concat (OrderedPointSet.data ps)).

Definition lastPoint (ps : OrderedPointSet.t) : Vec3 :=
  last (concat (OrderedPointSet.data ps)) (mkVec3 (ofZ 0) (ofZ 0) (ofZ 0)).

(** A stand-in for the segmenter: one row, the chain it was given. *)
Definition oneRowSegmenter (chain : list Vec3) (target step : Z) (opts : Segment.Options)
  : OrderedPointSet.t := OrderedPointSet.mk (Z.of_nat (length chain)) [chain].

Definition pkg2x2 : Segment.Package := Segment.mkPackage 5 cloud2x2.

(** [--start-index 3 --stride 5]: the starting row of [cloud2x2] holds a
    sentinel point. *)
Definition optsStart3Stride5 : Segment.Options :=
  Segment.mkOptions 9 false (Some "pkg"%string) (Some "seg"%string) (Some "LRPS"%string)
                    3 None (Some 5) 1.



(** [--start-index 2147483647 --stride 1]. *)
Definition optsStartMaxStride1 : Segment.Options :=
  Segment.mkOptions 9 false (Some "pkg"%string) (Some "seg"%string) (Some "LRPS"%string)
                    2147483647 None (Some 1) 1.

(** What [prepare] hands on for [optsStart3Stride5]. *)
Definition preparedStart3 : Segment.Prepared :=
  Segment.mkPrepared 8 (OrderedPointSet.mk 2 [])
    [mkVec3 (ofZ 1) (ofZ 2) (ofZ 3); mkVec3 (ofZ 4) (ofZ 5) (ofZ (-1))].

(** A cloud of one row, with the GUI state of a worker that has just been
    started on it, and a texturing pipeline that would succeed. *)
Definition cloudOneRow : OrderedPointSet.t :=
  OrderedPointSet.mk 2 [[mkVec3 (ofZ 1) (ofZ 2) (ofZ 3); mkVec3 (ofZ 4) (ofZ 5) (ofZ 3)]].

Definition globalsOneRow : MyThread.GlobalValues unit :=
  MyThread.mkGlobals MyThread.Active (Some cloudOneRow) None.

Definition processAlways (cloud : OrderedPointSet.t) (g : MyThread.GlobalValues unit)
  : Result unit := Returned tt.

(** [--start-index 3] with neither end index nor stride. *)
Definition optsStart3 : Segment.Options :=
  Segment.mkOptions 7 false (Some "pkg"%string) (Some "seg"%string) (Some "lrps"%string)
                    3 None None 1.

(** [--start-index 4 --stride 5]: the starting row of [cloud2x2] is its
    second row, which has no sentinel point. *)
Definition optsStart4Stride5 : Segment.Options :=
  Segment.mkOptions 9 false (Some "pkg"%string) (Some "seg"%string) (Some "lrps"%string)
                    4 None (Some 5) 1.

(** What [prepare] hands on for [optsStart4Stride5]. *)
Definition preparedStart4 : Segment.Prepared :=
  Segment.mkPrepared 9
    (OrderedPointSet.mk 2
       [[mkVec3 (ofZ 1) (ofZ 2) (ofZ 3); mkVec3 (ofZ 4) (ofZ 5) (ofZ (-1))]])
    [mkVec3 (ofZ 1) (ofZ 2) (ofZ 4); mkVec3 (ofZ 4) (ofZ 6) (ofZ 4)].

Definition globals2x2 : MyThread.GlobalValues unit :=
  MyThread.mkGlobals MyThread.Active (Some cloud2x2) None.

(** A volume of 2 slices of 2 by 2 voxels with the intensities 0 to 7, the
    midpoint of its only cell, and a point beyond its last slice. *)
Definition volume2x2x2 : Volume.Volume :=
  Volume.mkVolume 2 2 2 [[[0; 1]; [2; 3]]; [[4; 5]; [6; 7]]].

Definition half : Qc := Q2Qc (1 # 2).

Definition cellMidpoint : Vec3 := mkVec3 half half half.

Definition beyondLastSlice : Vec3 := mkVec3 half half (ofZ 2).

(** A volume of 10 slices whose decoded planes take 100 bytes each, four
    fetches under a budget of 200 bytes, and the cache before and after the
    last of them. *)
Definition bytes100 (i : Z) : N := 100%N.

Definition fetch0102 : list SliceCache.Op :=
  [SliceCache.GetSlice 0; SliceCache.GetSlice 1; SliceCache.GetSlice 0;
   SliceCache.GetSlice 2].

Definition cache01 : SliceCache.Cache :=
  SliceCache.mkCache 200 [SliceCache.mkEntry 0 100; SliceCache.mkEntry 1 100] [].

Definition cache20 : SliceCache.Cache :=
  SliceCache.mkCache 200 [SliceCache.mkEntry 2 100; SliceCache.mkEntry 0 100] [].

End Examples.

Module Inputs.

Import Cv.

(** Peaks at columns 34 and 40: 2 and 8 columns right of the center
    column. *)
Definition profileC : list Z :=
  repeat 0 34%nat ++ [7] ++ repeat 0 5%nat ++ [9] ++ repeat 0 23%nat.

(** A reslice of 10 rows. *)
Definition sliceOfTenRows : Slice.Slice :=
  Slice.mkSlice (repeat (repeat 0 64%nat) 10%nat)
                (mkVec3 (ofZ 0) (ofZ 0) (ofZ 0))
                (mkVec3 (ofZ 32) (ofZ 5) (ofZ 0))
                (mkVec3 (ofZ 1) (ofZ 0) (ofZ 0))
                (mkVec3 (ofZ 0) (ofZ 1) (ofZ 0)).

(** The triangle (0, 0), (1, 0), (0, 1) of the uv plane, a triangle in
    space and a normal. *)
Definition uvA : Vec3 := mkVec3 (ofZ 0) (ofZ 0) (ofZ 0).
Definition uvB : Vec3 := mkVec3 (ofZ 1) (ofZ 0) (ofZ 0).
Definition uvC : Vec3 := mkVec3 (ofZ 0) (ofZ 1) (ofZ 0).

Definition xyzA : Vec3 := mkVec3 (ofZ 10) (ofZ 20) (ofZ 30).
Definition xyzB : Vec3 := mkVec3 (ofZ 12) (ofZ 20) (ofZ 30).
Definition xyzC : Vec3 := mkVec3 (ofZ 10) (ofZ 24) (ofZ 36).

Definition normalZ : Vec3 := mkVec3 (ofZ 0) (ofZ 0) (ofZ 1).

(** The weights of the midpoint of the edge from the second to the third
    vertex. *)
Definition midBC : Vec3 := mkVec3 (ofZ 0) (Q2Qc (1 # 2)) (Q2Qc (1 # 2)).

(** Stand-ins for [AlmostEqual], [cv::normalize] and the point locator:
    exact equality, no scaling, no neighbours. *)
Definition exactlyEqual (a b : Qc) : bool := if Qc_eq_dec a b then true else false.

Definition unscaled (v : Vec3) : Vec3 := v.

Definition noNeighbours (uv : Vec3) (n : Z) : list Z := [].

(** A generator of a 3 by 3 map over a mesh of that one cell, nothing
    mapped yet. *)
Definition generator3x3 : PPMGenerator.Generator :=
  PPMGenerator.mkGenerator 3 3 PPMGenerator.Flat
    [PPMGenerator.mkCellInfo [uvA; uvB; uvC] [xyzA; xyzB; xyzC] [normalZ]] 1
    (fun _ _ => 0)
    (fun _ _ => (mkVec3 (ofZ 0) (ofZ 0) (ofZ 0), mkVec3 (ofZ 0) (ofZ 0) (ofZ 0))).

(** Two images of different sizes and a texture that holds the first. *)
Definition image2x3 : Mat := [[1; 2; 3]; [4; 5; 6]].
Definition image1x1 : Mat := [[9]].

Definition textureOfOne : Texture.Texture := Texture.mkTexture 1 [image2x3] 3 2.

(** The map before any pixel is assigned: zeros. *)
Definition zeroMap (y x : Z) : Vec3 * Vec3 :=
  (mkVec3 (ofZ 0) (ofZ 0) (ofZ 0), mkVec3 (ofZ 0) (ofZ 0) (ofZ 0)).

(** Two triangles over four vertices that share the edge between the
    vertices 1 and 2, stand-ins for [cv::normalize], [dot] and [acos], and the mesh
    the calls build. *)
Definition twoTriangles : list HalfEdgeMesh.Call :=
  [HalfEdgeMesh.AddVert 0 0 0;
   HalfEdgeMesh.AddVert 1 0 0;
   HalfEdgeMesh.AddVert 0 1 0;
   HalfEdgeMesh.AddVert 1 1 0;
   HalfEdgeMesh.AddFace 0 1 2;
   HalfEdgeMesh.AddFace 2 1 3].

Definition unscaledd (v : Vec3d) : Vec3d := v.

Definition dotOf (a b : Vec3d) : float :=
  (v0 a * v0 b + v1 a * v1 b + v2 a * v2 b)%float.

Definition acosStub (d : float) : float := 1%float.

Definition meshOfTwo : HalfEdgeMesh.Mesh :=
  Eval vm_compute in
    match HalfEdgeMesh.calls unscaledd dotOf acosStub twoTriangles with
    | Some m => m
    | None => HalfEdgeMesh.empty
    end.

Definition firstEdgeOfTwo : HalfEdgeMesh.Edge :=
  Eval vm_compute in
    nth 0 (HalfEdgeMesh.edges_ meshOfTwo)
        (HalfEdgeMesh.mkEdge 0 0 0 None 0 (HalfEdgeMesh.newAngle 1%float) None).

(** A mesh of the one triangle [xyzA], [xyzB], [xyzC], without normals,
    and its uv map onto [uvA], [uvB], [uvC]. *)
Definition meshOfOne : PPMGenerator.ITKMesh :=
  PPMGenerator.mkITKMesh false 3 [[0; 1; 2]]
    (fun pointID => if pointID =? 0 then xyzA else if pointID =? 1 then xyzB else xyzC)
    (fun _ => None) 0.

Definition uvOfOne : PPMGenerator.UVMap :=
  PPMGenerator.mkUVMap false
    (fun pointID => if pointID =? 0 then (ofZ 0, ofZ 0)
                    else if pointID =? 1 then (ofZ 1, ofZ 0) else (ofZ 0, ofZ 1)).

(** Stand-ins for [CalculateNormals] and the point locator: the mesh as
    it is, and the identifier of the first point for every query. *)
Definition sameMesh (m : PPMGenerator.ITKMesh) : PPMGenerator.ITKMesh := m.

Definition firstPoint (points : list Vec3) (uv : Vec3) (n : Z) : list Z :=
  match points with
  | [] => []
  | _ :: _ => [0]
  end.

End Inputs.

(** * Properties *)

(** ** std::sort *)

Lemma insert_perm {A : Type} (comp : A -> A -> bool) (a : A) (l : list A) :
  Permutation (a :: l) (Std.insert comp a l).
Proof.
  induction l as [|b l IH]; simpl.
  - apply Permutation_refl.
  - destruct (comp b a).
    + eapply perm_trans; [apply perm_swap|]. now apply perm_skip.
    + apply Permutation_refl.
Qed.

Lemma sort_perm {A : Type} (comp : A -> A -> bool) (l : list A) :
  Permutation l (Std.sort comp l).
Proof.
  induction l as [|a l IH]; simpl.
  - constructor.
  - eapply perm_trans; [apply perm_skip, IH|]. apply insert_perm.
Qed.

(** Two elements of a list sorted for two relations at once stand in both
    relations the same way round. *)
Lemma sorted_both_order {A : Type} (R S : A -> A -> Prop) (l : list A) :
  StronglySorted R l -> StronglySorted S l ->
  forall a b, In a l -> In b l -> a = b \/ (R a b /\ S a b) \/ (R b a /\ S b a).
Proof.
  induction l as [|c l IH]; intros HR HS a b Ha Hb.
  - destruct Ha.
  - apply StronglySorted_inv in HR. destruct HR as [HR HRc].
    apply StronglySorted_inv in HS. destruct HS as [HS HSc].
    rewrite Forall_forall in HRc, HSc.
    destruct Ha as [Ha|Ha], Hb as [Hb|Hb]; subst.
    + now left.
    + right; left. split; [now apply HRc | now apply HSc].
    + right; right. split; [now apply HRc | now apply HSc].
    + now apply IH.
Qed.

(** ** The proximity ranking of Slice::findNextPosition *)

(** A candidate left of the reference column: the unsigned difference wraps
    and the conversion to [int32_t] is out of range. *)
Lemma dist2_left_of_5 (oob : Z) :
  Slice.dist2 oob 5 (0, 1%float) = oob /\ Slice.dist2 oob 5 (4, 1%float) = oob.
Proof. split; reflexivity. Qed.

Lemma dist2_right_of_5 (oob : Z) :
  Slice.dist2 oob 5 (7, 1%float) = 2 /\ Slice.dist2 oob 5 (8, 1%float) = 3.
Proof. split; reflexivity. Qed.

(** C1.  The ranking inside Slice::findNextPosition does not
    order candidates by absolute distance when some lie left of the
    reference column.  For the candidates 0, 4, 7, 8 and the reference
    column 5, whatever value the out-of-range conversion yields, no
    arrangement that std::sort may produce with the comparator of the code
    is in ascending order of |index - 5|. *)
Theorem ranking_not_by_absolute_distance :
  forall (oob : Z) (sorted : list Slice.Pair),
    Std.sort_result (Slice.closer oob 5) Examples.maxima5 sorted ->
    ~ Slice.rankedByProximity 5 sorted.
Proof.
  intros oob sorted [Hperm Hsorted] Hranked.
  assert (Hin : forall p, In p Examples.maxima5 -> In p sorted)
    by (intros p; apply Permutation_in, Hperm).
  pose proof (sorted_both_order _ _ sorted Hranked Hsorted) as Hboth.
  destruct (dist2_left_of_5 oob) as [D0 D4].
  destruct (dist2_right_of_5 oob) as [D7 D8].
  assert (H47 : oob <= 2).
  { destruct (Hboth (4, 1%float) (7, 1%float)) as [E|[[Hd Hc]|[Hd Hc]]];
      try (apply Hin; simpl; tauto).
    - discriminate E.
    - unfold Slice.closer in Hc. rewrite D4, D7 in Hc.
      apply Z.ltb_ge in Hc. exact Hc.
    - unfold Slice.absdist in Hd. simpl in Hd. lia. }
  assert (H80 : 3 <= oob).
  { destruct (Hboth (8, 1%float) (0, 1%float)) as [E|[[Hd Hc]|[Hd Hc]]];
      try (apply Hin; simpl; tauto).
    - discriminate E.
    - unfold Slice.closer in Hc. rewrite D0, D8 in Hc.
      apply Z.ltb_ge in Hc. exact Hc.
    - unfold Slice.absdist in Hd. simpl in Hd. lia. }
  lia.
Qed.

Section KeyedSort.

Context {A : Type}.
Variable key : A -> Z.
Variable comp : A -> A -> bool.
Hypothesis comp_key : forall a b, comp a b = (key a <? key b).

Lemma insert_sorted (a : A) (l : list A) :
  StronglySorted (fun x y => comp y x = false) l ->
  StronglySorted (fun x y => comp y x = false) (Std.insert comp a l).
Proof.
  induction 1 as [|b l Hs IH Hb]; simpl.
  - repeat constructor.
  - destruct (comp b a) eqn:E.
    + constructor; [exact IH|].
      apply (Permutation_Forall (insert_perm comp a l)).
      constructor; [|exact Hb].
      rewrite comp_key in *. apply Z.ltb_lt in E. apply Z.ltb_ge. lia.
    + constructor; [now constructor|].
      constructor; [exact E|].
      eapply Forall_impl; [|exact Hb].
      intros c Hc. cbv beta in Hc. rewrite comp_key in *.
      apply Z.ltb_ge in E, Hc. apply Z.ltb_ge. lia.
Qed.

(** The insertion sort of the model is one of the arrangements std::sort
    may produce for a comparator that compares integer keys. *)
Lemma sort_is_sort_result (l : list A) :
  Std.sort_result comp l (Std.sort comp l).
Proof.
  split; [apply sort_perm|].
  induction l as [|a l IH]; simpl; [constructor|now apply insert_sorted].
Qed.

End KeyedSort.

Lemma ranking_not_by_absolute_distance_witness :
  Std.sort_result (Slice.closer Int.int32_indefinite 5) Examples.maxima5
                  (Std.sort (Slice.closer Int.int32_indefinite 5) Examples.maxima5)
  /\ ~ Slice.rankedByProximity 5
        (Std.sort (Slice.closer Int.int32_indefinite 5) Examples.maxima5).
Proof.
  split.
  - apply (sort_is_sort_result (Slice.dist2 Int.int32_indefinite 5)). reflexivity.
  - apply (ranking_not_by_absolute_distance Int.int32_indefinite).
    apply (sort_is_sort_result (Slice.dist2 Int.int32_indefinite 5)). reflexivity.
Defined.

(** *** findNextPosition *)

(** [findNextPosition] returns the voxel of the first candidate of the
    ranking, in the row [lookaheadDepth] below the center row. *)
Lemma findNextPosition_returns (oob : Z) (findNMaxima : list Z -> nat -> list Slice.Pair)
      (s : Slice.Slice) (profile : list Z) (m0 : Slice.Pair) (rest : list Slice.Pair) :
  Cv.row (Slice._slice s) (Cv.py (Slice.center s) + Slice.lookaheadDepth) = Some profile ->
  Std.sort (Slice.closer oob (Cv.px (Slice.center s))) (findNMaxima profile 4%nat) = m0 :: rest ->
  Slice.findNextPosition oob findNMaxima s =
  Returned (Slice.sliceCoordToVoxelCoord s
              (Cv.mkPoint (fst m0) (Cv.py (Slice.center s) + Slice.lookaheadDepth))).
Proof.
  intros Hrow Hsort. unfold Slice.findNextPosition.
  rewrite Hrow, Hsort. reflexivity.
Qed.

Lemma vec3_eq (a b : Cv.Vec3) :
  Cv.vx a = Cv.vx b -> Cv.vy a = Cv.vy b -> Cv.vz a = Cv.vz b -> a = b.
Proof. destruct a, b; simpl; intros; subst; reflexivity. Qed.

(** The plane of the example slices maps pixel (i, j) to voxel (i, j, 0). *)
Lemma sliceWithProfile_voxel (profile : list Z) (i j : Z) :
  Slice.sliceCoordToVoxelCoord (Examples.sliceWithProfile profile) (Cv.mkPoint i j)
  = Cv.mkVec3 (Cv.ofZ i) (Cv.ofZ j) (Cv.ofZ 0).
Proof.
  unfold Slice.sliceCoordToVoxelCoord, Examples.sliceWithProfile, Cv.vadd, Cv.smul.
  cbn [Slice._origin Slice._xvec Slice._yvec Cv.vx Cv.vy Cv.vz Cv.px Cv.py].
  replace (Cv.ofZ 0) with 0%Qc by (apply Qc_is_canon; reflexivity).
  replace (Cv.ofZ 1) with 1%Qc by (apply Qc_is_canon; reflexivity).
  apply vec3_eq; cbn [Cv.vx Cv.vy Cv.vz]; ring.
Qed.

Lemma profileA_candidates (oob : Z) :
  NormalizedIntensityMap.findNMaxima Examples.profileA 4%nat = [(1, 9%float); (41, 7%float)]
  /\ Slice.dist2 oob 32 (1, 9%float) = oob
  /\ Slice.dist2 oob 32 (41, 7%float) = 9.
Proof. repeat split; reflexivity. Qed.

Lemma profileB_candidates (oob : Z) :
  NormalizedIntensityMap.findNMaxima Examples.profileB 4%nat = [(31, 9%float); (40, 7%float)]
  /\ Slice.dist2 oob 32 (31, 9%float) = oob
  /\ Slice.dist2 oob 32 (40, 7%float) = 8.
Proof. repeat split; reflexivity. Qed.

(** C9.  Slice::findNextPosition reads the row 5 below the
    center row and asks for 4 maxima, but it does not rank them by
    proximity to the center column.  Whatever value [oob] the out-of-range
    conversion yields, one of two reslices with center column 32 shows it:
    with candidates at columns 1 and 41 the call returns the voxel of
    column 1 (31 columns away, not 9) when [oob < 9]; with candidates at
    columns 31 and 40 it returns the voxel of column 40 (8 columns away,
    not 1) when [8 < oob]. *)
Theorem findNextPosition_returns_farther_candidate :
  forall oob : Z,
    (oob < 9 /\
     Slice.findNextPosition oob NormalizedIntensityMap.findNMaxima
                            (Examples.sliceWithProfile Examples.profileA)
     = Returned (Cv.mkVec3 (Cv.ofZ 1) (Cv.ofZ 10) (Cv.ofZ 0)))
    \/
    (8 < oob /\
     Slice.findNextPosition oob NormalizedIntensityMap.findNMaxima
                            (Examples.sliceWithProfile Examples.profileB)
     = Returned (Cv.mkVec3 (Cv.ofZ 40) (Cv.ofZ 10) (Cv.ofZ 0))).
Proof.
  intro oob.
  destruct (Z_lt_le_dec oob 9) as [Hlt|Hge].
  - left. split; [exact Hlt|].
    destruct (profileA_candidates oob) as (Hc & D1 & D41).
    rewrite <- (sliceWithProfile_voxel Examples.profileA 1 10).
    rewrite (findNextPosition_returns oob _ _ Examples.profileA (1, 9%float) [(41, 7%float)]).
    + reflexivity.
    + reflexivity.
    + rewrite Hc. change (Cv.px (Slice.center (Examples.sliceWithProfile Examples.profileA))) with 32.
      unfold Std.sort; cbn [fold_right]. unfold Std.insert, Slice.closer.
      rewrite D1, D41. replace (9 <? oob) with false by (symmetry; apply Z.ltb_ge; lia).
      reflexivity.
  - right. split; [lia|].
    destruct (profileB_candidates oob) as (Hc & D31 & D40).
    rewrite <- (sliceWithProfile_voxel Examples.profileB 40 10).
    rewrite (findNextPosition_returns oob _ _ Examples.profileB (40, 7%float) [(31, 9%float)]).
    + reflexivity.
    + reflexivity.
    + rewrite Hc. change (Cv.px (Slice.center (Examples.sliceWithProfile Examples.profileB))) with 32.
      unfold Std.sort; cbn [fold_right]. unfold Std.insert, Slice.closer.
      rewrite D31, D40. replace (8 <? oob) with true by (symmetry; apply Z.ltb_lt; lia).
      reflexivity.
Qed.

(** ** Reslice coordinates *)

Lemma range_length (n : Z) : 0 <= n -> Z.of_nat (length (Std.range n)) = n.
Proof.
  intro Hn. unfold Std.range. rewrite length_map, length_seq. lia.
Qed.

Lemma range_nth (n k : Z) :
  0 <= k < n -> nth_error (Std.range n) (Z.to_nat k) = Some k.
Proof.
  intros Hk. unfold Std.range.
  rewrite nth_error_map, nth_error_seq.
  replace (Nat.ltb (Z.to_nat k) (Z.to_nat n)) with true
    by (symmetry; apply Nat.ltb_lt; lia).
  simpl. f_equal. lia.
Qed.

Lemma reslice_pixel (sample : Cv.Vec3 -> Z) (origin xvec yvec : Cv.Vec3)
      (width height i j : Z) :
  0 <= i < width -> 0 <= j < height ->
  Reslice.pixel (Reslice.reslice sample origin xvec yvec width height) i j
  = Some (sample (Cv.vadd origin
                    (Cv.vadd (Cv.smul (Cv.ofZ i) xvec) (Cv.smul (Cv.ofZ j) yvec)))).
Proof.
  intros Hi Hj. unfold Reslice.pixel, Cv.row, Cv.rows, Reslice.reslice.
  rewrite length_map, range_length by lia.
  replace ((0 <=? j) && (j <? height)) with true by (symmetry; apply andb_true_iff; lia).
  rewrite nth_error_map, (range_nth height j Hj). cbn [option_map].
  replace (0 <=? i) with true by (symmetry; apply Z.leb_le; lia).
  rewrite nth_error_map, (range_nth width i Hi). reflexivity.
Qed.

(** C5.  Slice::sliceCoordToVoxelCoord maps the slice point (i, j) to
    _origin + i * _xvec + j * _yvec, component by component; and pixel
    (i, j) of reslice(origin, xAxis, yAxis, width, height) holds the sample
    taken at origin + i * xAxis + j * yAxis, which is the voxel coordinate
    that a slice over this image, origin and axes gives for (i, j). *)
Theorem reslice_pixel_is_sampled_at_origin_plus_offsets :
  (forall (s : Slice.Slice) (i j : Z),
      let v := Slice.sliceCoordToVoxelCoord s (Cv.mkPoint i j) in
      v = Cv.vadd (Slice._origin s)
                  (Cv.vadd (Cv.smul (Cv.ofZ i) (Slice._xvec s))
                           (Cv.smul (Cv.ofZ j) (Slice._yvec s)))
      /\ Cv.vx v = (Cv.vx (Slice._origin s) + Cv.ofZ i * Cv.vx (Slice._xvec s)
                    + Cv.ofZ j * Cv.vx (Slice._yvec s))%Qc
      /\ Cv.vy v = (Cv.vy (Slice._origin s) + Cv.ofZ i * Cv.vy (Slice._xvec s)
                    + Cv.ofZ j * Cv.vy (Slice._yvec s))%Qc
      /\ Cv.vz v = (Cv.vz (Slice._origin s) + Cv.ofZ i * Cv.vz (Slice._xvec s)
                    + Cv.ofZ j * Cv.vz (Slice._yvec s))%Qc)
  /\
  (forall (sample : Cv.Vec3 -> Z) (origin xAxis yAxis center : Cv.Vec3)
          (width height i j : Z),
      0 <= i < width -> 0 <= j < height ->
      let image := Reslice.reslice sample origin xAxis yAxis width height in
      Reslice.pixel image i j
      = Some (sample (Cv.vadd origin
                        (Cv.vadd (Cv.smul (Cv.ofZ i) xAxis) (Cv.smul (Cv.ofZ j) yAxis))))
      /\ Reslice.pixel image i j
         = Some (sample (Slice.sliceCoordToVoxelCoord
                           (Slice.mkSlice image origin center xAxis yAxis)
                           (Cv.mkPoint i j)))).
Proof.
  split.
  - intros s i j v. subst v.
    unfold Slice.sliceCoordToVoxelCoord, Cv.vadd, Cv.smul.
    cbn [Cv.vx Cv.vy Cv.vz Cv.px Cv.py].
    repeat split; ring.
  - intros sample origin xAxis yAxis center width height i j Hi Hj image.
    subst image. split.
    + now apply reslice_pixel.
    + rewrite reslice_pixel by assumption. reflexivity.
Qed.

Lemma reslice_pixel_is_sampled_at_origin_plus_offsets_witness :
  Reslice.pixel
    (Reslice.reslice Examples.sampleX Examples.origin1 Examples.xAxis1 Examples.yAxis1 4 3)
    2 1
  = Some (Examples.sampleX
            (Cv.vadd Examples.origin1
               (Cv.vadd (Cv.smul (Cv.ofZ 2) Examples.xAxis1)
                        (Cv.smul (Cv.ofZ 1) Examples.yAxis1)))).
Proof.
  apply (proj2 reslice_pixel_is_sampled_at_origin_plus_offsets
               Examples.sampleX Examples.origin1 Examples.xAxis1 Examples.yAxis1
               Examples.origin1 4 3 2 1); lia.
Defined.

(** ** Cloud inversion *)
















(** ** The segmentation driver *)

(** C6.  When the starting row has been loaded and, with its sentinel
    points filtered out, its point count differs from the width of the
    point set, [main] exits with status 1 and the chain length error: the
    segmenter is not run and nothing is saved. *)
Theorem chain_length_mismatch_exits_before_segmenting :
  forall (front max : OrderedPointSet.t -> Cv.Vec3)
         (compute : list Cv.Vec3 -> Z -> Z -> Segment.Options -> OrderedPointSet.t)
         (opts : Segment.Options) (pkg : Segment.Package) (p : Segment.Prepared),
    Segment.prepare front max opts pkg = inr p ->
    Z.of_nat (length (Segment.filterSentinels (Segment.startingRow p)))
      <> OrderedPointSet.width (Segment.pointSet pkg) ->
    Segment.main front max compute opts pkg = Segment.Exit 1 Segment.ChainLengthMismatch
    /\ forall ps, Segment.main front max compute opts pkg <> Segment.Saved ps.
Proof.
  intros front max compute opts pkg p Hprep Hlen.
  assert (H : Segment.main front max compute opts pkg
              = Segment.Exit 1 Segment.ChainLengthMismatch).
  { unfold Segment.main. rewrite Hprep. unfold Segment.segment.
    apply Z.eqb_neq in Hlen. rewrite Hlen. reflexivity. }
  split; [exact H|]. intros ps E. rewrite H in E. discriminate E.
Qed.

Lemma chain_length_mismatch_exits_before_segmenting_witness :
  Segment.prepare Examples.firstPoint Examples.lastPoint
                  Examples.optsStart3Stride5 Examples.pkg2x2
  = inr Examples.preparedStart3
  /\ Z.of_nat (length (Segment.filterSentinels (Segment.startingRow Examples.preparedStart3)))
     <> OrderedPointSet.width (Segment.pointSet Examples.pkg2x2)
  /\ Segment.main Examples.firstPoint Examples.lastPoint Examples.oneRowSegmenter
                  Examples.optsStart3Stride5 Examples.pkg2x2
     = Segment.Exit 1 Segment.ChainLengthMismatch.
Proof.
  assert (Hprep : Segment.prepare Examples.firstPoint Examples.lastPoint
                    Examples.optsStart3Stride5 Examples.pkg2x2
                  = inr Examples.preparedStart3)
    by (vm_compute; reflexivity).
  assert (Hlen : Z.of_nat (length (Segment.filterSentinels
                                     (Segment.startingRow Examples.preparedStart3)))
                 <> OrderedPointSet.width (Segment.pointSet Examples.pkg2x2))
    by (vm_compute; discriminate).
  split; [exact Hprep|]. split; [exact Hlen|].
  apply (chain_length_mismatch_exits_before_segmenting
           Examples.firstPoint Examples.lastPoint Examples.oneRowSegmenter
           Examples.optsStart3Stride5 Examples.pkg2x2 Examples.preparedStart3 Hprep Hlen).
Defined.

(** Once the starting row is loaded, the target is the end index and the
    start index lies before it. *)
Lemma prepare_target (front max : OrderedPointSet.t -> Cv.Vec3)
      (opts : Segment.Options) (pkg : Segment.Package) (p : Segment.Prepared) :
  Segment.prepare front max opts pkg = inr p ->
  Segment.endIndex max opts pkg = Returned (Segment.targetZ p)
  /\ Segment.startIndex max opts pkg < Segment.targetZ p.
Proof.
  unfold Segment.prepare.
  destruct (Segment.checkArguments opts pkg); [discriminate|].
  destruct (Segment.endIndex max opts pkg) as [e|]; [|discriminate].
  destruct (Segment.startIndex max opts pkg >=? e) eqn:Hge; [discriminate|].
  destruct (if Segment.startIndex max opts pkg >? Segment.minIndex front pkg
            then _ else _); [|discriminate].
  destruct (OrderedPointSet.getRow _ _); [|discriminate].
  intro H. inversion H; subst. cbn [Segment.targetZ].
  split; [reflexivity|]. rewrite Z.geb_leb in Hge. apply Z.leb_gt in Hge. lia.
Qed.

(** Every early exit of the argument checks is an exit, not a save. *)
Lemma checkArguments_is_exit (opts : Segment.Options) (pkg : Segment.Package)
      (o : Segment.Outcome) :
  Segment.checkArguments opts pkg = Some o -> forall ps, o <> Segment.Saved ps.
Proof.
  unfold Segment.checkArguments. intros Hc ps.
  repeat match type of Hc with
         | (if ?b then _ else _) = _ => destruct b
         | match ?x with _ => _ end = _ => destruct x
         end; inversion Hc; discriminate.
Qed.

Lemma int32_exact (z : Z) : Int.in_int32 z = true -> Int.int32 z = z.
Proof.
  unfold Int.in_int32, Int.int32, Int.INT32_MIN, Int.INT32_MAX, Int.UINT32_MOD. intro H.
  apply andb_true_iff in H. destruct H as [H1 H2]. apply Z.leb_le in H1, H2.
  rewrite Z.mod_small by lia. lia.
Qed.



(** Beyond the range of [int] the sum wraps: from the start index
    2147483647 a stride of 1 gives the end index -2147483648, and the run is
    rejected as one that has nothing to segment. *)
Lemma stride_sum_beyond_int_wraps :
  Segment.endIndex Examples.lastPoint Examples.optsStartMaxStride1 Examples.pkg2x2
  = Returned (-2147483648)
  /\ Segment.main Examples.firstPoint Examples.lastPoint Examples.oneRowSegmenter
                  Examples.optsStartMaxStride1 Examples.pkg2x2
     = Segment.Exit 1 Segment.NothingToSegment.
Proof. split; reflexivity. Qed.

(** ** The texturing worker *)

(** C8.  On a point set of height at most 1, [MyThread::run] reports the
    failure through the thread status ([CloudError]) and returns without
    processing the cloud: the point set and the rendering are as before,
    whatever the texturing pipeline would have done. *)
Theorem run_on_short_cloud_reports_and_does_nothing :
  forall (Rendering : Type)
         (processCloud : OrderedPointSet.t -> MyThread.GlobalValues Rendering -> Result Rendering)
         (g : MyThread.GlobalValues Rendering) (cloud : OrderedPointSet.t),
    MyThread.activePointSet g = Some cloud ->
    OrderedPointSet.height cloud <= 1 ->
    MyThread.run processCloud g = MyThread.setThreadStatus MyThread.CloudError g
    /\ MyThread.status (MyThread.run processCloud g) = MyThread.CloudError
    /\ MyThread.activePointSet (MyThread.run processCloud g) = MyThread.activePointSet g
    /\ MyThread.rendering (MyThread.run processCloud g) = MyThread.rendering g
    /\ forall processCloud', MyThread.run processCloud' g = MyThread.run processCloud g.
Proof.
  intros Rendering processCloud g cloud Hcloud Hheight.
  assert (H : forall pc, MyThread.run pc g = MyThread.setThreadStatus MyThread.CloudError g).
  { intro pc. unfold MyThread.run. rewrite Hcloud.
    replace (OrderedPointSet.height cloud <=? 1) with true
      by (symmetry; apply Z.leb_le; lia).
    reflexivity. }
  rewrite H. repeat split; try reflexivity. intro pc. apply H.
Qed.

Lemma run_on_short_cloud_reports_and_does_nothing_witness :
  MyThread.run Examples.processAlways Examples.globalsOneRow
  = MyThread.mkGlobals MyThread.CloudError (Some Examples.cloudOneRow) None.
Proof.
  apply (run_on_short_cloud_reports_and_does_nothing unit Examples.processAlways
           Examples.globalsOneRow Examples.cloudOneRow).
  - reflexivity.
  - vm_compute. discriminate.
Defined.

(** ** Volume sampling *)

Lemma bind_some {A B : Type} (m : Volume.Read A) (k : A -> Volume.Read B) (a : A) :
  fst m = Some a ->
  Volume.bind m k = (fst (k a), snd m ++ snd (k a)).
Proof. intro H. unfold Volume.bind. rewrite H. reflexivity. Qed.

Lemma stored_in_bounds (v : Volume.Volume) (c : Volume.Coord) :
  Volume.wf v -> Volume.inBounds v c = true -> exists i, Volume.stored v c = Some i.
Proof.
  intros [Hn Hall] Hb. destruct c as [[x y] z]. unfold Volume.inBounds in Hb.
  repeat (apply andb_true_iff in Hb; destruct Hb as [Hb ?]).
  unfold Volume.stored.
  replace ((0 <=? x) && (0 <=? y) && (0 <=? z)) with true
    by (symmetry; rewrite !andb_true_iff; auto).
  destruct (nth_error (Volume.slices v) (Z.to_nat z)) as [m|] eqn:Em.
  - rewrite Forall_forall in Hall.
    destruct (Hall m (nth_error_In _ _ Em)) as [Hh Hrows].
    destruct (nth_error m (Z.to_nat y)) as [r|] eqn:Er.
    + rewrite Forall_forall in Hrows. pose proof (Hrows r (nth_error_In _ _ Er)) as Hw.
      destruct (nth_error r (Z.to_nat x)) as [i|] eqn:Ei; [now exists i|].
      apply nth_error_None in Ei. lia.
    + apply nth_error_None in Er. lia.
  - apply nth_error_None in Em. lia.
Qed.

Lemma getIntensityAtCoord_validated (noData : Z) (v : Volume.Volume) (c : Volume.Coord) :
  Volume.wf v ->
  exists i, fst (Volume.getIntensityAtCoord noData v c) = Some i
            /\ Cv.ofZ i = Volume.sampleAt noData v c
            /\ Forall (fun c' => Volume.inBounds v c' = true)
                      (snd (Volume.getIntensityAtCoord noData v c)).
Proof.
  intro Hwf. unfold Volume.getIntensityAtCoord, Volume.sampleAt.
  destruct (Volume.inBounds v c) eqn:Hb.
  - destruct (stored_in_bounds v c Hwf Hb) as [i Hi].
    exists i. unfold Volume.readVoxel. cbn [fst snd]. rewrite Hi.
    repeat split. constructor; [exact Hb|constructor].
  - exists noData. cbn [Volume.ret fst snd]. repeat split. constructor.
Qed.

Lemma within_spec (a : Qc) (n : Z) :
  Volume.within a n = true <-> (Cv.ofZ 0 <= a /\ a < Cv.ofZ n)%Qc.
Proof.
  unfold Volume.within.
  destruct (Qclt_le_dec a (Cv.ofZ 0)) as [H0|H0], (Qclt_le_dec a (Cv.ofZ n)) as [Hn|Hn];
    cbn [andb]; split; try discriminate; try tauto.
  - intros [H _]. exfalso. exact (Qclt_not_le _ _ H0 H).
  - intros [H _]. exfalso. exact (Qclt_not_le _ _ H0 H).
  - intros [_ H]. exfalso. exact (Qclt_not_le _ _ H Hn).
Qed.

Lemma inRange_spec (v : Volume.Volume) (p : Cv.Vec3) :
  Volume.inRange v p = true <-> Volume.insideVolume v p.
Proof.
  unfold Volume.inRange, Volume.insideVolume.
  rewrite !andb_true_iff, !within_spec. tauto.
Qed.

(** C3.  On a volume whose store holds what its metadata announces,
    sampling at a coordinate outside
    [0, width) x [0, height) x [0, numSlices) returns the no-data value and
    reads nothing; at a coordinate inside it returns the trilinear
    interpolation of the 8 bounding voxel samples, a bounding voxel outside
    the bounds counting as no data; and in either case every voxel whose
    stored data is read lies within the bounds (the call never fails on an
    access past the data). *)
Theorem sampling_is_validated_and_trilinear :
  forall (noData : Z) (v : Volume.Volume) (point : Cv.Vec3),
    Volume.wf v ->
    (~ Volume.insideVolume v point ->
     Volume.getInterpolatedIntensity noData v point = (Some (Cv.ofZ noData), []))
    /\ (Volume.insideVolume v point ->
        fst (Volume.getInterpolatedIntensity noData v point)
        = Some (Volume.trilinear point (Volume.sampleAt noData v)))
    /\ Forall (fun c => Volume.inBounds v c = true)
              (snd (Volume.getInterpolatedIntensity noData v point))
    /\ (forall c, Volume.inBounds v c = false -> Volume.sampleAt noData v c = Cv.ofZ noData).
Proof.
  intros noData v point Hwf.
  assert (Hout : Volume.inRange v point = false ->
                 Volume.getInterpolatedIntensity noData v point = (Some (Cv.ofZ noData), [])).
  { intro H. unfold Volume.getInterpolatedIntensity, Volume.interpolateAt.
    rewrite H. reflexivity. }
  assert (Hin : Volume.inRange v point = true ->
                fst (Volume.getInterpolatedIntensity noData v point)
                = Some (Volume.trilinear point (Volume.sampleAt noData v))
                /\ Forall (fun c => Volume.inBounds v c = true)
                          (snd (Volume.getInterpolatedIntensity noData v point))).
  { intro H. unfold Volume.getInterpolatedIntensity, Volume.interpolateAt.
    rewrite H. cbv zeta.
    repeat match goal with
    | |- context [Volume.bind (Volume.getIntensityAtCoord noData v ?c) ?k] =>
        let i := fresh "i" in
        let Hi := fresh "Hi" in
        let Hs := fresh "Hs" in
        let Hr := fresh "Hr" in
        destruct (getIntensityAtCoord_validated noData v c Hwf) as (i & Hi & Hs & Hr);
        rewrite (bind_some (Volume.getIntensityAtCoord noData v c) k i Hi);
        cbn beta
    end.
    cbn [fst snd Volume.ret]. split.
    - unfold Volume.trilinear. cbv zeta.
      rewrite <- Hs, <- Hs0, <- Hs1, <- Hs2, <- Hs3, <- Hs4, <- Hs5, <- Hs6. reflexivity.
    - repeat (apply Forall_app; split; [assumption|]). constructor. }
  split; [|split; [|split]].
  - intro Hn. apply Hout. destruct (Volume.inRange v point) eqn:E; [|reflexivity].
    exfalso. apply Hn. now apply inRange_spec.
  - intro Hi. apply Hin. now apply inRange_spec.
  - destruct (Volume.inRange v point) eqn:E.
    + now apply Hin.
    + rewrite (Hout eq_refl). constructor.
  - intros c Hc. unfold Volume.sampleAt. rewrite Hc. reflexivity.
Qed.

Lemma volume2x2x2_wf : Volume.wf Examples.volume2x2x2.
Proof. split; [reflexivity|]. repeat constructor. Qed.

Lemma sampling_is_validated_and_trilinear_witness :
  fst (Volume.getInterpolatedIntensity 0 Examples.volume2x2x2 Examples.cellMidpoint)
  = Some (Volume.trilinear Examples.cellMidpoint (Volume.sampleAt 0 Examples.volume2x2x2))
  /\ Volume.getInterpolatedIntensity 0 Examples.volume2x2x2 Examples.beyondLastSlice
     = (Some (Cv.ofZ 0), []).
Proof.
  destruct (sampling_is_validated_and_trilinear 0 Examples.volume2x2x2
              Examples.cellMidpoint volume2x2x2_wf) as (_ & Hin & _).
  destruct (sampling_is_validated_and_trilinear 0 Examples.volume2x2x2
              Examples.beyondLastSlice volume2x2x2_wf) as (Hout & _).
  split.
  - apply Hin. unfold Volume.insideVolume. repeat split; vm_compute; discriminate.
  - apply Hout. intros (_ & _ & _ & H). vm_compute in H. discriminate H.
Defined.

Lemma cell_midpoint_value :
  this (Volume.trilinear Examples.cellMidpoint (Volume.sampleAt 0 Examples.volume2x2x2))
  = (7 # 2)%Q
  /\ snd (Volume.getInterpolatedIntensity 0 Examples.volume2x2x2 Examples.cellMidpoint)
     = [(0,0,0); (1,0,0); (0,1,0); (1,1,0); (0,0,1); (1,0,1); (0,1,1); (1,1,1)].
Proof. split; vm_compute; reflexivity. Qed.

(** ** The slice cache *)

Module CacheFacts.

Import SliceCache.

Lemma total_app (l1 l2 : list CacheEntry) :
  total (l1 ++ l2) = (total l1 + total l2)%N.
Proof. induction l1 as [|e l1 IH]; simpl; [reflexivity|]. rewrite IH. lia. Qed.

Lemma total_filter_split (f : CacheEntry -> bool) (l : list CacheEntry) :
  (total (filter f l) + total (filter (fun e => negb (f e)) l))%N = total l.
Proof.
  induction l as [|e l IH]; simpl; [reflexivity|].
  destruct (f e); simpl; lia.
Qed.

Lemma total_touch (i : Z) (l : list CacheEntry) : total (touch i l) = total l.
Proof. unfold touch. rewrite total_app. apply total_filter_split. Qed.





Lemma isCached_In (l : list CacheEntry) (i : Z) :
  isCached l i = true <-> In i (map index l).
Proof.
  unfold isCached. rewrite existsb_exists. split.
  - intros (e & He & Hi). apply Z.eqb_eq in Hi. subst i. now apply in_map.
  - intro H. apply in_map_iff in H. destruct H as (e & Hi & He).
    exists e. split; [exact He|]. now apply Z.eqb_eq.
Qed.

Lemma filter_none (f : CacheEntry -> bool) (l : list CacheEntry) :
  (forall e, In e l -> f e = false) -> filter f l = [].
Proof.
  induction l as [|e l IH]; intro H; [reflexivity|]. cbn [filter].
  rewrite (H e (or_introl eq_refl)). apply IH. intros x Hx. apply H. now right.
Qed.

Lemma filter_every (f : CacheEntry -> bool) (l : list CacheEntry) :
  (forall e, In e l -> f e = true) -> filter f l = l.
Proof.
  induction l as [|e l IH]; intro H; [reflexivity|]. cbn [filter].
  rewrite (H e (or_introl eq_refl)). f_equal. apply IH. intros x Hx. apply H. now right.
Qed.

(** A hit moves the entry of the plane to the front and keeps the order of
    the other entries. *)
Lemma touch_moves_to_front (i : Z) (l : list CacheEntry) :
  NoDup (map index l) -> isCached l i = true ->
  exists before e after,
    l = before ++ e :: after /\ index e = i /\ touch i l = e :: before ++ after.
Proof.
  intros Hnd Hc. apply isCached_In in Hc. apply in_map_iff in Hc.
  destruct Hc as (e & Hi & He). apply in_split in He. destruct He as (before & after & ->).
  exists before, e, after. split; [reflexivity|]. split; [exact Hi|].
  rewrite map_app in Hnd. cbn [map] in Hnd. apply NoDup_remove_2 in Hnd. rewrite Hi in Hnd.
  assert (Hb : forall x, In x before -> (index x =? i) = false).
  { intros x Hx. apply Z.eqb_neq. intro E. apply Hnd. apply in_app_iff. left.
    rewrite <- E. now apply in_map. }
  assert (Ha : forall x, In x after -> (index x =? i) = false).
  { intros x Hx. apply Z.eqb_neq. intro E. apply Hnd. apply in_app_iff. right.
    rewrite <- E. now apply in_map. }
  unfold touch. rewrite !filter_app. cbn [filter].
  replace (index e =? i) with true by (symmetry; now apply Z.eqb_eq). cbn [negb].
  rewrite (filter_none _ before Hb), (filter_none _ after Ha).
  rewrite (filter_every _ before), (filter_every _ after).
  - reflexivity.
  - intros x Hx. now rewrite (Ha x Hx).
  - intros x Hx. now rewrite (Hb x Hx).
Qed.

Lemma touch_distinct (i : Z) (l : list CacheEntry) :
  NoDup (map index l) -> NoDup (map index (touch i l)).
Proof.
  intro Hnd. destruct (isCached l i) eqn:Hc.
  - destruct (touch_moves_to_front i l Hnd Hc) as (before & e & after & -> & _ & ->).
    rewrite map_app in Hnd. cbn [map] in *. rewrite map_app.
    constructor; [now apply NoDup_remove_2 in Hnd|now apply NoDup_remove_1 in Hnd].
  - assert (Hn : forall x, In x l -> (index x =? i) = false).
    { intros x Hx. apply Z.eqb_neq. intro E.
      assert (isCached l i = true) by (apply isCached_In; rewrite <- E; now apply in_map).
      congruence. }
    unfold touch. rewrite (filter_none _ l Hn), (filter_every _ l); [exact Hnd|].
    intros x Hx. now rewrite (Hn x Hx).
Qed.

Lemma touch_In (i : Z) (l : list CacheEntry) (e : CacheEntry) :
  In e (touch i l) <-> In e l.
Proof.
  unfold touch. rewrite in_app_iff, !filter_In. split.
  - intros [[H _]|[H _]]; exact H.
  - intro H. destruct (index e =? i) eqn:E; [left|right]; now split.
Qed.





Section CacheOps.

Variable numSlices : Z.
Variable planeBytes : Z -> N.














End CacheOps.


(** Under a budget of two planes the fetches 0, 1, 0 leave plane 0 the most
    recently used, and the fetch of plane 2 evicts plane 1. *)
Lemma fetches_evict_least_recently_used :
  run 10 Examples.bytes100 (empty 200) [GetSlice 0; GetSlice 1; GetSlice 0] = Examples.cache01
  /\ run 10 Examples.bytes100 (empty 200) Examples.fetch0102 = Examples.cache20
  /\ step 10 Examples.bytes100 Examples.cache01 (GetSlice 2) = (Examples.cache20, None).
Proof. repeat split; reflexivity. Qed.

(** Under a budget of one plane the sample between the planes 3 and 4
    keeps plane 3, which it holds while it reads plane 4; under a budget of
    two planes both are resident afterwards, and a later fetch of plane 5
    evicts plane 3, the least recently used. *)
Lemma pinned_planes_are_not_evicted :
  run 10 Examples.bytes100 (empty 100) [Sample 3] = mkCache 100 [mkEntry 3 100] []
  /\ run 10 Examples.bytes100 (empty 200) [Sample 3]
     = mkCache 200 [mkEntry 4 100; mkEntry 3 100] []
  /\ run 10 Examples.bytes100 (empty 200) [Sample 3; GetSlice 5]
     = mkCache 200 [mkEntry 5 100; mkEntry 4 100] [].
Proof. repeat split; reflexivity. Qed.

End CacheFacts.

(** ** Further properties of the code *)

(** *** The candidate ranking of Slice::findNextPosition *)

(** The square root of the square of a difference is the difference
    itself in binary64, for every difference that two columns below 4096
    can have in [uint32_t]. *)
Lemma roots_exact_4096 : forallb Slice.rootExact (Slice.differences 4096) = true.
Proof. vm_compute. reflexivity. Qed.

Lemma range_In (n k : Z) : 0 <= k < n -> In k (Std.range n).
Proof.
  intro H. unfold Std.range. apply in_map_iff. exists (Z.to_nat k).
  split; [lia|]. apply in_seq. lia.
Qed.

Lemma rootOfSquare_exact (d : Z) :
  0 <= d < 4096 \/ Int.UINT32_MOD - 4096 <= d < Int.UINT32_MOD ->
  Slice.rootOfSquare d = Some d.
Proof.
  intro H.
  assert (Hin : In d (Slice.differences 4096)).
  { unfold Slice.differences. apply in_or_app. destruct H as [H|H].
    - left. now apply range_In.
    - right. apply in_map_iff. exists (Int.UINT32_MOD - 1 - d).
      split; [lia|]. apply range_In. lia. }
  pose proof roots_exact_4096 as Hall. rewrite forallb_forall in Hall.
  specialize (Hall d Hin). unfold Slice.rootExact in Hall.
  destruct (Slice.rootOfSquare d) as [v|]; [|discriminate].
  apply Z.eqb_eq in Hall. now subst.
Qed.

Lemma dist2_below_4096 (oob x index : Z) (value : float) :
  0 <= x < 4096 -> 0 <= index < 4096 ->
  Slice.dist2 oob x (index, value) = if x <=? index then index - x else oob.
Proof.
  intros Hx Hi. unfold Slice.dist2. cbn [fst].
  replace (Int.u32 x) with x
    by (unfold Int.u32; rewrite Z.mod_small; unfold Int.UINT32_MOD; lia).
  cbv zeta. unfold Int.int32_of_double. fold (Slice.rootOfSquare (Int.u32 (index - x))).
  destruct (x <=? index) eqn:E.
  - apply Z.leb_le in E.
    replace (Int.u32 (index - x)) with (index - x)
      by (unfold Int.u32; rewrite Z.mod_small; unfold Int.UINT32_MOD; lia).
    rewrite rootOfSquare_exact by lia.
    replace (Int.in_int32 (index - x)) with true; [reflexivity|].
    symmetry. unfold Int.in_int32, Int.INT32_MIN, Int.INT32_MAX.
    apply andb_true_iff. split; [apply Z.leb_le|apply Z.leb_le]; lia.
  - apply Z.leb_gt in E.
    replace (Int.u32 (index - x)) with (Int.UINT32_MOD + (index - x)).
    + rewrite rootOfSquare_exact by (unfold Int.UINT32_MOD; lia).
      replace (Int.in_int32 (Int.UINT32_MOD + (index - x))) with false; [reflexivity|].
      symmetry. unfold Int.in_int32, Int.INT32_MIN, Int.INT32_MAX, Int.UINT32_MOD.
      apply andb_false_iff. right. apply Z.leb_gt. lia.
    + unfold Int.u32. symmetry.
      rewrite <- (Z.mod_small (Int.UINT32_MOD + (index - x)) Int.UINT32_MOD)
        by (unfold Int.UINT32_MOD; lia).
      rewrite <- Z.add_mod_idemp_l by (unfold Int.UINT32_MOD; lia).
      rewrite Z.mod_same by (unfold Int.UINT32_MOD; lia). reflexivity.
Qed.

(** X1.  In a reslice of fewer than 4096 columns the key that the
    comparator of Slice::findNextPosition computes for a candidate is its
    distance to the reference column when the candidate is at or right of
    it, and the result of the out-of-range conversion when it is left of
    it. *)
Theorem dist2_is_distance_only_right_of_reference :
  forall (oob x index : Z) (value : float),
    0 <= x < 4096 -> 0 <= index < 4096 ->
    Slice.dist2 oob x (index, value) = if x <=? index then index - x else oob.
Proof. exact dist2_below_4096. Qed.

Lemma dist2_is_distance_only_right_of_reference_witness :
  Slice.dist2 Int.int32_indefinite 32 (40, 1%float) = 8
  /\ Slice.dist2 Int.int32_indefinite 32 (24, 1%float) = Int.int32_indefinite.
Proof.
  split.
  - apply (dist2_is_distance_only_right_of_reference Int.int32_indefinite 32 40 1%float); lia.
  - apply (dist2_is_distance_only_right_of_reference Int.int32_indefinite 32 24 1%float); lia.
Defined.

(** The first element of a sorted range is an element of the input with
    the least key. *)
Lemma sort_head_least {A : Type} (key : A -> Z) (comp : A -> A -> bool)
      (l : list A) (m0 : A) (rest : list A) :
  (forall a b, comp a b = (key a <? key b)) ->
  Std.sort comp l = m0 :: rest ->
  In m0 l /\ forall p, In p l -> key m0 <= key p.
Proof.
  intros Hcomp Hsort.
  destruct (sort_is_sort_result key comp Hcomp l) as [Hperm Hsorted].
  rewrite Hsort in Hperm, Hsorted. split.
  - apply (Permutation_in m0 (Permutation_sym Hperm)). now left.
  - intros p Hp. apply (Permutation_in p Hperm) in Hp.
    apply StronglySorted_inv in Hsorted. destruct Hsorted as [_ Hall].
    destruct Hp as [<-|Hp]; [lia|].
    rewrite Forall_forall in Hall. specialize (Hall p Hp). cbv beta in Hall.
    rewrite Hcomp in Hall. apply Z.ltb_ge in Hall. exact Hall.
Qed.

Lemma sort_nonempty {A : Type} (comp : A -> A -> bool) (l : list A) :
  l <> [] -> exists m0 rest, Std.sort comp l = m0 :: rest.
Proof.
  intro Hne. destruct (Std.sort comp l) as [|m0 rest] eqn:E.
  - pose proof (sort_perm comp l) as Hp. rewrite E in Hp.
    apply Permutation_sym, Permutation_nil in Hp. contradiction.
  - now exists m0, rest.
Qed.

Lemma center_x_nonneg (s : Slice.Slice) : 0 <= Cv.px (Slice.center s).
Proof.
  unfold Slice.center. cbn [Cv.px]. apply Z.quot_pos; [|lia].
  unfold Cv.cols. destruct (Slice._slice s); lia.
Qed.

(** X2.  When the row 5 below the center row exists and every candidate
    that findNMaxima returns for it lies at or right of the center column
    (all columns below 4096), Slice::findNextPosition returns the voxel
    position of a candidate whose distance to the center column is the
    least among the candidates. *)
Theorem findNextPosition_nearest_when_none_left :
  forall (oob : Z) (findNMaxima : list Z -> nat -> list Slice.Pair)
         (s : Slice.Slice) (profile : list Z),
    let x := Cv.px (Slice.center s) in
    let y := Cv.py (Slice.center s) + Slice.lookaheadDepth in
    Cv.row (Slice._slice s) y = Some profile ->
    findNMaxima profile 4%nat <> [] ->
    Forall (fun p => x <= fst p < 4096) (findNMaxima profile 4%nat) ->
    exists m0,
      In m0 (findNMaxima profile 4%nat)
      /\ (forall p, In p (findNMaxima profile 4%nat) ->
                    Slice.absdist x m0 <= Slice.absdist x p)
      /\ Slice.findNextPosition oob findNMaxima s
         = Returned (Slice.sliceCoordToVoxelCoord s (Cv.mkPoint (fst m0) y)).
Proof.
  intros oob findNMaxima s profile x y Hrow Hne Hright.
  pose proof (center_x_nonneg s) as Hx. fold x in Hx.
  destruct (sort_nonempty (Slice.closer oob x) _ Hne) as (m0 & rest & Hsort).
  destruct (sort_head_least (Slice.dist2 oob x) (Slice.closer oob x) _ m0 rest
              (fun a b => eq_refl) Hsort) as [Hin Hleast].
  rewrite Forall_forall in Hright.
  assert (Hkey : forall p, In p (findNMaxima profile 4%nat) ->
                           Slice.dist2 oob x p = Slice.absdist x p).
  { intros [i v] Hp. specialize (Hright _ Hp). cbn [fst] in Hright.
    rewrite dist2_below_4096 by lia.
    replace (x <=? i) with true by (symmetry; apply Z.leb_le; lia).
    unfold Slice.absdist. cbn [fst]. lia. }
  exists m0. split; [exact Hin|]. split.
  - intros p Hp. rewrite <- (Hkey m0 Hin), <- (Hkey p Hp). now apply Hleast.
  - now apply (findNextPosition_returns oob findNMaxima s profile m0 rest).
Qed.

Lemma findNextPosition_nearest_when_none_left_witness :
  exists m0,
    In m0 (NormalizedIntensityMap.findNMaxima Inputs.profileC 4%nat)
    /\ (forall p, In p (NormalizedIntensityMap.findNMaxima Inputs.profileC 4%nat) ->
                  Slice.absdist (Cv.px (Slice.center (Examples.sliceWithProfile Inputs.profileC)))
                                m0
                  <= Slice.absdist
                       (Cv.px (Slice.center (Examples.sliceWithProfile Inputs.profileC))) p)
    /\ Slice.findNextPosition Int.int32_indefinite NormalizedIntensityMap.findNMaxima
                              (Examples.sliceWithProfile Inputs.profileC)
       = Returned (Slice.sliceCoordToVoxelCoord (Examples.sliceWithProfile Inputs.profileC)
                     (Cv.mkPoint (fst m0)
                        (Cv.py (Slice.center (Examples.sliceWithProfile Inputs.profileC))
                         + Slice.lookaheadDepth))).
Proof.
  apply (findNextPosition_nearest_when_none_left Int.int32_indefinite
           NormalizedIntensityMap.findNMaxima (Examples.sliceWithProfile Inputs.profileC)
           Inputs.profileC).
  - reflexivity.
  - vm_compute. discriminate.
  - vm_compute. repeat constructor; discriminate.
Defined.

(** X3.  When the conversion of an out-of-range distance gives a negative
    number, as on x86-64, and some candidate lies left of the center column
    (all columns below 4096), Slice::findNextPosition returns the position of
    a candidate left of the center column, however near the candidates at or
    right of it are. *)
Theorem findNextPosition_prefers_left_candidates :
  forall (oob : Z) (findNMaxima : list Z -> nat -> list Slice.Pair)
         (s : Slice.Slice) (profile : list Z),
    let x := Cv.px (Slice.center s) in
    let y := Cv.py (Slice.center s) + Slice.lookaheadDepth in
    oob < 0 ->
    x < 4096 ->
    Cv.row (Slice._slice s) y = Some profile ->
    Forall (fun p => 0 <= fst p < 4096) (findNMaxima profile 4%nat) ->
    (exists p, In p (findNMaxima profile 4%nat) /\ fst p < x) ->
    exists m0,
      In m0 (findNMaxima profile 4%nat) /\ fst m0 < x
      /\ Slice.findNextPosition oob findNMaxima s
         = Returned (Slice.sliceCoordToVoxelCoord s (Cv.mkPoint (fst m0) y)).
Proof.
  intros oob findNMaxima s profile x y Hoob Hx Hrow Hall [p [Hp Hleft]].
  pose proof (center_x_nonneg s) as Hx0. fold x in Hx0.
  assert (Hne : findNMaxima profile 4%nat <> []) by (intro E; rewrite E in Hp; destruct Hp).
  destruct (sort_nonempty (Slice.closer oob x) _ Hne) as (m0 & rest & Hsort).
  destruct (sort_head_least (Slice.dist2 oob x) (Slice.closer oob x) _ m0 rest
              (fun a b => eq_refl) Hsort) as [Hin Hleast].
  rewrite Forall_forall in Hall.
  exists m0. split; [exact Hin|]. split.
  - specialize (Hleast p Hp). destruct p as [i v], m0 as [i0 v0]. cbn [fst] in *.
    pose proof (Hall _ Hp) as Hi. pose proof (Hall _ Hin) as Hi0. cbn [fst] in Hi, Hi0.
    rewrite !dist2_below_4096 in Hleast by lia.
    replace (x <=? i) with false in Hleast by (symmetry; apply Z.leb_gt; lia).
    destruct (x <=? i0) eqn:E; [|apply Z.leb_gt in E; exact E].
    apply Z.leb_le in E. lia.
  - now apply (findNextPosition_returns oob findNMaxima s profile m0 rest).
Qed.

Lemma findNextPosition_prefers_left_candidates_witness :
  exists m0,
    In m0 (NormalizedIntensityMap.findNMaxima Examples.profileA 4%nat)
    /\ fst m0 < Cv.px (Slice.center (Examples.sliceWithProfile Examples.profileA))
    /\ Slice.findNextPosition Int.int32_indefinite NormalizedIntensityMap.findNMaxima
                              (Examples.sliceWithProfile Examples.profileA)
       = Returned (Slice.sliceCoordToVoxelCoord (Examples.sliceWithProfile Examples.profileA)
                     (Cv.mkPoint (fst m0)
                        (Cv.py (Slice.center (Examples.sliceWithProfile Examples.profileA))
                         + Slice.lookaheadDepth))).
Proof.
  apply (findNextPosition_prefers_left_candidates Int.int32_indefinite
           NormalizedIntensityMap.findNMaxima (Examples.sliceWithProfile Examples.profileA)
           Examples.profileA).
  - reflexivity.
  - reflexivity.
  - reflexivity.
  - vm_compute. repeat constructor; discriminate.
  - exists (1, 9%float). split; [vm_compute; left; reflexivity|reflexivity].
Defined.

Lemma row_exists (m : Cv.Mat) (y : Z) :
  0 <= y < Cv.rows m -> exists r, Cv.row m y = Some r.
Proof.
  intro H. unfold Cv.row, Cv.rows in *.
  replace ((0 <=? y) && (y <? Z.of_nat (length m))) with true
    by (symmetry; apply andb_true_iff; split; [apply Z.leb_le|apply Z.ltb_lt]; lia).
  destruct (nth_error m (Z.to_nat y)) as [r|] eqn:E; [now exists r|].
  apply nth_error_None in E. lia.
Qed.

(** X4.  Slice::findNextPosition fails with the OpenCV assertion error,
    before it looks at any candidate, exactly when the reslice has fewer than
    11 rows: the row 5 below the center row rows / 2 does not exist. *)
Theorem findNextPosition_needs_eleven_rows :
  forall (oob : Z) (findNMaxima : list Z -> nat -> list Slice.Pair) (s : Slice.Slice),
    Slice.findNextPosition oob findNMaxima s = Threw CvAssertion
    <-> Cv.rows (Slice._slice s) < 11.
Proof.
  intros oob findNMaxima s. unfold Slice.findNextPosition, Slice.center, Slice.lookaheadDepth.
  cbn [Cv.px Cv.py]. set (m := Slice._slice s).
  assert (H0 : 0 <= Cv.rows m) by (unfold Cv.rows; lia).
  assert (Hq : Z.quot (Cv.rows m) 2 = Cv.rows m / 2) by (apply Z.quot_div_nonneg; lia).
  split.
  - intro H. destruct (Z_lt_ge_dec (Cv.rows m) 11) as [Hlt|Hge]; [exact Hlt|exfalso].
    destruct (row_exists m (Z.quot (Cv.rows m) 2 + 5)) as [r Hr].
    { rewrite Hq. split; [|]; pose proof (Z.div_pos (Cv.rows m) 2);
      pose proof (Z.mul_div_le (Cv.rows m) 2); lia. }
    rewrite Hr in H. cbv zeta in H.
    destruct (Std.sort _ _) as [|m0 rest] in H; discriminate H.
  - intro Hlt. replace (Cv.row m (Z.quot (Cv.rows m) 2 + 5)) with (@None (list Z));
      [reflexivity|].
    symmetry. unfold Cv.row. fold (Cv.rows m).
    replace (Z.quot (Cv.rows m) 2 + 5 <? Cv.rows m) with false;
      [now rewrite andb_false_r|].
    symmetry. apply Z.ltb_ge. rewrite Hq.
    assert (Cv.rows m < 2 * (Cv.rows m / 2) + 2)
      by (pose proof (Z.mod_pos_bound (Cv.rows m) 2); pose proof (Z.div_mod (Cv.rows m) 2); lia).
    lia.
Qed.

(** X26.  When the row 5 below the center row exists,
    Slice::findNextPosition ends in std::out_of_range, thrown by
    [maxima.at(0)], exactly when the search for maxima in that row finds
    none; the function has no path that returns a sentinel position
    instead. *)
Theorem findNextPosition_without_maxima_throws :
  forall (oob : Z) (findNMaxima : list Z -> nat -> list Slice.Pair)
         (s : Slice.Slice) (profile : list Z),
    Cv.row (Slice._slice s) (Cv.py (Slice.center s) + Slice.lookaheadDepth) = Some profile ->
    (findNMaxima profile 4%nat = []
     <-> Slice.findNextPosition oob findNMaxima s = Threw OutOfRange).
Proof.
  intros oob findNMaxima s profile Hrow. split.
  - intro Hnone. unfold Slice.findNextPosition. rewrite Hrow, Hnone. reflexivity.
  - intro Hthrow. destruct (findNMaxima profile 4%nat) as [|m ms] eqn:Hm; [reflexivity|exfalso].
    destruct (sort_nonempty (Slice.closer oob (Cv.px (Slice.center s))) (m :: ms))
      as (m0 & rest & Hsort); [discriminate|].
    rewrite <- Hm in Hsort.
    rewrite (findNextPosition_returns oob findNMaxima s profile m0 rest Hrow Hsort) in Hthrow.
    discriminate Hthrow.
Qed.

Lemma findNextPosition_without_maxima_throws_witness :
  Slice.findNextPosition Int.int32_indefinite NormalizedIntensityMap.findNMaxima
                         (Examples.sliceWithProfile Examples.flatProfile)
  = Threw OutOfRange.
Proof.
  apply (proj1 (findNextPosition_without_maxima_throws Int.int32_indefinite
                  NormalizedIntensityMap.findNMaxima
                  (Examples.sliceWithProfile Examples.flatProfile) Examples.flatProfile
                  eq_refl)).
  reflexivity.
Defined.

(** *** The segmentation driver *)

(** X5.  The check "must specify one of [stride, start-index]" never
    fires, because start-index has a default value; when neither an end index
    nor a stride is given and the other checks pass, reading the stride
    throws and [main] ends in the uncaught exception. *)
Theorem missing_stride_and_end_index_is_uncaught :
  forall (front max : OrderedPointSet.t -> Cv.Vec3)
         (compute : list Cv.Vec3 -> Z -> Z -> Segment.Options -> OrderedPointSet.t)
         (opts : Segment.Options) (pkg : Segment.Package),
    Segment.checkArguments opts pkg <> Some (Segment.Exit 1 Segment.MustSpecifyStrideOrStart)
    /\ (Segment.checkArguments opts pkg = None ->
        Segment.end_index opts = None -> Segment.stride opts = None ->
        Segment.main front max compute opts pkg = Segment.Uncaught BadAnyCast).
Proof.
  intros front max compute opts pkg. split.
  - unfold Segment.checkArguments. cbn [orb negb].
    repeat match goal with
           | |- (if ?b then _ else _) <> _ => destruct b
           | |- match ?x with _ => _ end <> _ => destruct x
           end; discriminate.
  - intros Hc He Hs. unfold Segment.main, Segment.prepare, Segment.endIndex.
    rewrite Hc, He, Hs. reflexivity.
Qed.

Lemma missing_stride_and_end_index_is_uncaught_witness :
  Segment.main Examples.firstPoint Examples.lastPoint Examples.oneRowSegmenter
               Examples.optsStart3 Examples.pkg2x2
  = Segment.Uncaught BadAnyCast.
Proof.
  apply (proj2 (missing_stride_and_end_index_is_uncaught
                  Examples.firstPoint Examples.lastPoint Examples.oneRowSegmenter
                  Examples.optsStart3 Examples.pkg2x2)); reflexivity.
Defined.

Lemma usize_small (k : Z) : 0 <= k < 2 ^ 63 -> Int.usize k = k.
Proof. intro H. unfold Int.usize, Int.SIZE_MOD. apply Z.mod_small. lia. Qed.

Lemma usize_negative (k : Z) : - 2 ^ 31 <= k < 0 -> Int.usize k = Int.SIZE_MOD + k.
Proof.
  intro H. unfold Int.usize.
  rewrite <- (Z.mod_small (Int.SIZE_MOD + k) Int.SIZE_MOD) at 1
    by (unfold Int.SIZE_MOD; lia).
  rewrite <- Z.add_mod_idemp_l by (unfold Int.SIZE_MOD; lia).
  rewrite Z.mod_same by (unfold Int.SIZE_MOD; lia). reflexivity.
Qed.

Lemma in_int32_range (k : Z) : Int.in_int32 k = true -> - 2 ^ 31 <= k < 2 ^ 31.
Proof.
  unfold Int.in_int32, Int.INT32_MIN, Int.INT32_MAX. intro H.
  apply andb_true_iff in H. destruct H as [H1 H2]. apply Z.leb_le in H1, H2. lia.
Qed.

(** X6.  Whenever [main] saves a point set, the checks of the arguments
    passed, the start index lies before the end index, the starting row is
    row k = start index - first index of the master cloud and that row
    without its sentinel points still has the width of the cloud; what is
    saved are the k rows of the master cloud before the starting row followed
    by the rows the segmenter computed from that row.  (The difference of the
    indices is an [int], the cloud has fewer than 2^63 rows.) *)
Theorem main_saves_rows_before_start_then_computed_rows :
  forall (front max : OrderedPointSet.t -> Cv.Vec3)
         (compute : list Cv.Vec3 -> Z -> Z -> Segment.Options -> OrderedPointSet.t)
         (opts : Segment.Options) (pkg : Segment.Package) (saved : OrderedPointSet.t),
    let masterCloud := Segment.pointSet pkg in
    OrderedPointSet.height masterCloud < 2 ^ 63 ->
    Int.in_int32 (Segment.startIndex max opts pkg - Segment.minIndex front pkg) = true ->
    Segment.main front max compute opts pkg = Segment.Saved saved ->
    exists (target : Z) (row : list Cv.Vec3),
      let k := Segment.startIndex max opts pkg - Segment.minIndex front pkg in
      Segment.checkArguments opts pkg = None
      /\ Segment.endIndex max opts pkg = Returned target
      /\ Segment.startIndex max opts pkg < target
      /\ 0 <= k < OrderedPointSet.height masterCloud
      /\ nth_error (OrderedPointSet.data masterCloud) (Z.to_nat k) = Some row
      /\ Z.of_nat (length (Segment.filterSentinels row)) = OrderedPointSet.width masterCloud
      /\ saved = OrderedPointSet.mk (OrderedPointSet.width masterCloud)
                   (firstn (Z.to_nat k) (OrderedPointSet.data masterCloud)
                    ++ OrderedPointSet.data
                         (compute (Segment.filterSentinels row) target
                                  (Segment.step_size opts) opts)).
Proof.
  intros front max compute opts pkg saved masterCloud Hh Hd32 Hmain.
  unfold Segment.main in Hmain.
  destruct (Segment.prepare front max opts pkg) as [o|p] eqn:Hp.
  - exfalso. subst o. unfold Segment.prepare in Hp.
    destruct (Segment.checkArguments opts pkg) as [o|] eqn:Hc.
    + injection Hp as Hp. subst o. now apply (checkArguments_is_exit _ _ _ Hc saved).
    + destruct (Segment.endIndex max opts pkg) as [e|e]; [|discriminate Hp].
      destruct (_ >=? e); [discriminate Hp|].
      destruct (if _ >? _ then _ else _); [|discriminate Hp].
      destruct (OrderedPointSet.getRow _ _); discriminate Hp.
  - destruct (prepare_target front max opts pkg p Hp) as [He Hlt].
    unfold Segment.segment in Hmain.
    destruct (Z.of_nat (length (Segment.filterSentinels (Segment.startingRow p)))
              =? OrderedPointSet.width (Segment.pointSet pkg)) eqn:Hlen;
      [|discriminate Hmain].
    cbn [negb] in Hmain. injection Hmain as Hsaved. apply Z.eqb_eq in Hlen.
    unfold Segment.prepare in Hp.
    destruct (Segment.checkArguments opts pkg) as [o|] eqn:Hc; [discriminate Hp|].
    rewrite He in Hp.
    destruct (_ >=? Segment.targetZ p); [discriminate Hp|].
    fold masterCloud in Hp, Hlen, Hsaved.
    rewrite (int32_exact _ Hd32) in Hp.
    set (d := Segment.startIndex max opts pkg - Segment.minIndex front pkg) in *.
    destruct (OrderedPointSet.getRow masterCloud (Int.usize d)) as [row|e] eqn:Hrow.
    2:{ destruct (if _ >? _ then _ else _); discriminate Hp. }
    unfold OrderedPointSet.getRow in Hrow.
    destruct ((0 <=? Int.usize d) && (Int.usize d <? OrderedPointSet.height masterCloud))
      eqn:Hin; [|discriminate Hrow].
    apply andb_true_iff in Hin. destruct Hin as [_ Hin]. apply Z.ltb_lt in Hin.
    pose proof (in_int32_range d Hd32) as Hdr.
    assert (H0 : 0 <= OrderedPointSet.height masterCloud)
      by (unfold OrderedPointSet.height; lia).
    assert (Hd : 0 <= d).
    { destruct (Z_lt_ge_dec d 0) as [Hneg|]; [exfalso|lia].
      rewrite usize_negative in Hin by lia. unfold Int.SIZE_MOD in Hin. lia. }
    rewrite usize_small in Hp, Hrow, Hin by lia.
    unfold Std.at_ in Hrow.
    destruct (nth_error (OrderedPointSet.data masterCloud) (Z.to_nat d)) as [r|] eqn:Hnth;
      [|discriminate Hrow].
    injection Hrow as ->.
    assert (Himm : Segment.immutableCloud p
                   = OrderedPointSet.mk (OrderedPointSet.width masterCloud)
                       (firstn (Z.to_nat d) (OrderedPointSet.data masterCloud))
                   /\ Segment.startingRow p = row).
    { destruct (Segment.startIndex max opts pkg >? Segment.minIndex front pkg) eqn:Hgt.
      - unfold OrderedPointSet.copyRows in Hp.
        replace ((0 <=? 0) && (0 <=? d) && (d <=? OrderedPointSet.height masterCloud))
          with true in Hp
          by (symmetry; rewrite !andb_true_iff; repeat split; apply Z.leb_le; lia).
        injection Hp as <-. cbn [Segment.immutableCloud Segment.startingRow].
        rewrite Z.sub_0_r. cbn [skipn Z.to_nat]. now split.
      - injection Hp as <-. cbn [Segment.immutableCloud Segment.startingRow].
        assert (d = 0)
          by (rewrite Z.gtb_ltb in Hgt; apply Z.ltb_ge in Hgt; unfold d in *; lia).
        replace d with 0. now split. }
    destruct Himm as [Himm Hsr]. rewrite Hsr in Hlen, Hsaved.
    exists (Segment.targetZ p), row. cbv zeta. fold d.
    repeat split; try assumption; try lia.
    rewrite <- Hsaved, Himm. reflexivity.
Qed.

Lemma main_saves_rows_before_start_then_computed_rows_witness :
  exists (target : Z) (row : list Cv.Vec3),
    let k := Segment.startIndex Examples.lastPoint Examples.optsStart4Stride5 Examples.pkg2x2
             - Segment.minIndex Examples.firstPoint Examples.pkg2x2 in
    Segment.checkArguments Examples.optsStart4Stride5 Examples.pkg2x2 = None
    /\ Segment.endIndex Examples.lastPoint Examples.optsStart4Stride5 Examples.pkg2x2
       = Returned target
    /\ Segment.startIndex Examples.lastPoint Examples.optsStart4Stride5 Examples.pkg2x2 < target
    /\ 0 <= k < OrderedPointSet.height (Segment.pointSet Examples.pkg2x2)
    /\ nth_error (OrderedPointSet.data (Segment.pointSet Examples.pkg2x2)) (Z.to_nat k)
       = Some row
    /\ Z.of_nat (length (Segment.filterSentinels row))
       = OrderedPointSet.width (Segment.pointSet Examples.pkg2x2)
    /\ Examples.cloud2x2
       = OrderedPointSet.mk (OrderedPointSet.width (Segment.pointSet Examples.pkg2x2))
           (firstn (Z.to_nat k) (OrderedPointSet.data (Segment.pointSet Examples.pkg2x2))
            ++ OrderedPointSet.data
                 (Examples.oneRowSegmenter (Segment.filterSentinels row) target
                    (Segment.step_size Examples.optsStart4Stride5)
                    Examples.optsStart4Stride5)).
Proof.
  apply (main_saves_rows_before_start_then_computed_rows
           Examples.firstPoint Examples.lastPoint Examples.oneRowSegmenter
           Examples.optsStart4Stride5 Examples.pkg2x2 Examples.cloud2x2).
  - vm_compute. reflexivity.
  - vm_compute. reflexivity.
  - vm_compute. reflexivity.
Defined.

(** X8.  The volume that [main] of Segment.cpp works on never depends on
    the "--volume" option: when loading returns, it returns what it returns
    without the option, the volume named by the segmentation or else the
    first volume of the package.  The option is still looked up, so that an
    unknown name ends the run with the exception of the lookup. *)
Theorem volume_option_does_not_choose_the_volume :
  forall (Volume : Type) (volume : String.string -> Result Volume)
         (firstVolume : Result Volume)
         (volumeOption volumeID : option String.string),
    (forall v, SegmentVolume.loadVolume Volume volume firstVolume volumeOption volumeID
               = Returned v ->
               SegmentVolume.loadVolume Volume volume firstVolume None volumeID = Returned v)
    /\ (forall name e, volumeOption = Some name -> volume name = Threw e ->
                       SegmentVolume.loadVolume Volume volume firstVolume volumeOption volumeID
                       = Threw e).
Proof.
  intros Volume volume firstVolume volumeOption volumeID. split.
  - intros v H. unfold SegmentVolume.loadVolume in *.
    destruct volumeOption as [name|]; [|exact H].
    destruct (volume name); [exact H|discriminate H].
  - intros name e -> He. unfold SegmentVolume.loadVolume. now rewrite He.
Qed.

(** *** The texturing worker *)

(** X10.  Whatever the pipeline does, [MyThread::run] ends with one of
    the verdicts CloudError, Successful and Failed, never with Active or
    Inactive; it never changes the point set; it leaves the rendering as it
    was unless the verdict is Successful, in which case the cloud had more
    than one row, the pipeline returned and the rendering is what it
    returned; and the verdict is CloudError exactly when there is no point
    set or it has at most one row. *)
Theorem run_ends_with_a_verdict_and_keeps_the_point_set :
  forall (Rendering : Type)
         (processCloud : OrderedPointSet.t -> MyThread.GlobalValues Rendering -> Result Rendering)
         (g : MyThread.GlobalValues Rendering),
    let g' := MyThread.run processCloud g in
    (MyThread.status g' = MyThread.CloudError
     \/ MyThread.status g' = MyThread.Successful
     \/ MyThread.status g' = MyThread.Failed)
    /\ MyThread.activePointSet g' = MyThread.activePointSet g
    /\ (MyThread.status g' <> MyThread.Successful -> MyThread.rendering g' = MyThread.rendering g)
    /\ (MyThread.status g' = MyThread.Successful ->
        exists cloud r,
          MyThread.activePointSet g = Some cloud /\ 1 < OrderedPointSet.height cloud
          /\ processCloud cloud g = Returned r /\ MyThread.rendering g' = Some r)
    /\ (MyThread.status g' = MyThread.CloudError <->
        match MyThread.activePointSet g with
        | None => True
        | Some cloud => OrderedPointSet.height cloud <= 1
        end).
Proof.
  intros Rendering processCloud g g'. subst g'. unfold MyThread.run.
  destruct (MyThread.activePointSet g) as [cloud|] eqn:Hc.
  - destruct (OrderedPointSet.height cloud <=? 1) eqn:Hh.
    + apply Z.leb_le in Hh. cbn. rewrite Hc.
      repeat split; auto; try discriminate; intros; tauto.
    + apply Z.leb_gt in Hh. destruct (processCloud cloud g) as [r|e] eqn:Hp; cbn; rewrite ?Hc.
      * repeat split; auto; try discriminate; try tauto; try lia.
        -- intros _. exists cloud, r. repeat split; auto.
      * repeat split; auto; try discriminate; try lia.
  - cbn. rewrite Hc. repeat split; auto; discriminate.
Qed.

(** *** The per-pixel map *)

(** X14.  On a barycentric coordinate, whose components sum to one,
    [gouraud_normal_] weighs the normal of the first vertex by the third
    component, not by the first: the result is the normalized combination of
    the three normals with the weights (w, v, w) for a coordinate (u, v,
    w). *)
Theorem gouraud_normal_weighs_first_normal_by_third_coordinate :
  forall (normalize : Cv.Vec3 -> Cv.Vec3) (nUVW nA nB nC : Cv.Vec3),
    (Cv.vx nUVW + Cv.vy nUVW + Cv.vz nUVW = 1)%Qc ->
    PPMGenerator.gouraud_normal_ normalize nUVW nA nB nC
    = normalize (PPMGenerator.cartesian_coord_
                   (Cv.mkVec3 (Cv.vz nUVW) (Cv.vy nUVW) (Cv.vz nUVW)) nA nB nC).
Proof.
  intros normalize nUVW nA nB nC Hs. unfold PPMGenerator.gouraud_normal_.
  f_equal. unfold PPMGenerator.cartesian_coord_. cbn [Cv.vx Cv.vy Cv.vz].
  replace (1 - Cv.vx nUVW - Cv.vy nUVW)%Qc with (Cv.vz nUVW) by (rewrite <- Hs; ring).
  reflexivity.
Qed.

Lemma gouraud_normal_weighs_first_normal_by_third_coordinate_witness :
  PPMGenerator.gouraud_normal_ Inputs.unscaled Inputs.midBC
                               Inputs.xyzA Inputs.xyzB Inputs.xyzC
  = Inputs.unscaled
      (PPMGenerator.cartesian_coord_
         (Cv.mkVec3 (Cv.vz Inputs.midBC) (Cv.vy Inputs.midBC) (Cv.vz Inputs.midBC))
         Inputs.xyzA Inputs.xyzB Inputs.xyzC).
Proof.
  apply (gouraud_normal_weighs_first_normal_by_third_coordinate Inputs.unscaled Inputs.midBC
           Inputs.xyzA Inputs.xyzB Inputs.xyzC).
  apply Qc_is_canon. reflexivity.
Defined.

(** *** Textures *)

Lemma assignAt_spec {A : Type} (v : list A) (id : nat) (image : A) :
  (id < length v)%nat ->
  exists v', Texture.assignAt v id image = Returned v'
             /\ length v' = length v
             /\ nth_error v' id = Some image
             /\ forall j, j <> id -> nth_error v' j = nth_error v j.
Proof.
  revert id. induction v as [|a rest IH]; intros id Hlt; [cbn in Hlt; lia|].
  destruct id as [|id'].
  - exists (image :: rest). cbn. repeat split; auto.
    intros [|j] Hj; [contradiction|reflexivity].
  - cbn in Hlt. destruct (IH id' ltac:(lia)) as (v' & E & Hlen & Hnth & Hother).
    exists (a :: v'). cbn [Texture.assignAt]. rewrite E. cbn. repeat split; auto.
    intros [|j] Hj; [reflexivity|]. cbn. apply Hother. lia.
Qed.

Lemma assignAt_out_of_range {A : Type} (v : list A) (id : nat) (image : A) :
  (length v <= id)%nat -> Texture.assignAt v id image = Threw OutOfRange.
Proof.
  revert id. induction v as [|a rest IH]; intros id Hle; [destruct id; reflexivity|].
  destruct id as [|id']; [cbn in Hle; lia|].
  cbn [Texture.assignAt]. rewrite IH by (cbn in Hle; lia). reflexivity.
Qed.

(** X15.  [Texture::setImage] throws the range error for an index that is
    not below the number of images; for an index below it, it replaces that
    image and no other, and leaves the number of images and the width and
    height of the texture as they were, also when the new image has another
    size. *)
Theorem setImage_replaces_one_image_and_keeps_the_size :
  forall (id : Z) (image : Cv.Mat) (t : Texture.Texture),
    0 <= id ->
    (Texture.size t <= id -> Texture.setImage id image t = Threw OutOfRange)
    /\ (id < Texture.size t ->
        exists t',
          Texture.setImage id image t = Returned t'
          /\ nth_error (Texture.images_ t') (Z.to_nat id) = Some image
          /\ (forall j, j <> Z.to_nat id ->
                        nth_error (Texture.images_ t') j = nth_error (Texture.images_ t) j)
          /\ Texture.size t' = Texture.size t
          /\ Texture.width_ t' = Texture.width_ t
          /\ Texture.height_ t' = Texture.height_ t).
Proof.
  intros id image t Hid. unfold Texture.setImage, Texture.size. split.
  - intro Hge. rewrite assignAt_out_of_range by lia. reflexivity.
  - intro Hlt.
    destruct (assignAt_spec (Texture.images_ t) (Z.to_nat id) image ltac:(lia))
      as (v' & E & Hlen & Hnth & Hother).
    rewrite E. eexists. split; [reflexivity|]. cbn. rewrite Hlen. repeat split; auto.
Qed.

Lemma setImage_replaces_one_image_and_keeps_the_size_witness :
  Texture.setImage 1 Inputs.image1x1 Inputs.textureOfOne = Threw OutOfRange
  /\ exists t',
      Texture.setImage 0 Inputs.image1x1 Inputs.textureOfOne = Returned t'
      /\ nth_error (Texture.images_ t') (Z.to_nat 0) = Some Inputs.image1x1
      /\ (forall j, j <> Z.to_nat 0 ->
                    nth_error (Texture.images_ t') j
                    = nth_error (Texture.images_ Inputs.textureOfOne) j)
      /\ Texture.size t' = Texture.size Inputs.textureOfOne
      /\ Texture.width_ t' = Texture.width_ Inputs.textureOfOne
      /\ Texture.height_ t' = Texture.height_ Inputs.textureOfOne.
Proof.
  split.
  - apply (proj1 (setImage_replaces_one_image_and_keeps_the_size
                    1 Inputs.image1x1 Inputs.textureOfOne ltac:(lia))).
    vm_compute. discriminate.
  - apply (proj2 (setImage_replaces_one_image_and_keeps_the_size
                    0 Inputs.image1x1 Inputs.textureOfOne ltac:(lia))).
    reflexivity.
Defined.

Lemma call_inv (t : Texture.Texture) (c : Texture.Call) :
  Texture.numberOfImages t = Texture.size t ->
  let t' := Texture.call t c in
  Texture.numberOfImages t' = Texture.size t'
  /\ length (Texture.images_ t')
     = (length (Texture.images_ t) + length (Texture.added [c]))%nat
  /\ (Texture.images_ t <> [] ->
      Texture.width_ t' = Texture.width_ t /\ Texture.height_ t' = Texture.height_ t).
Proof.
  intros Hn. destruct c as [image|id image]; cbn [Texture.call].
  - unfold Texture.addImage, Texture.size. cbn [fst Texture.numberOfImages Texture.images_
      Texture.width_ Texture.height_ Texture.added flat_map app length].
    rewrite length_app. cbn [length]. repeat split; auto.
    + destruct (Texture.images_ t); [contradiction|reflexivity].
    + destruct (Texture.images_ t); [contradiction|reflexivity].
  - unfold Texture.setImage.
    destruct (Texture.assignAt (Texture.images_ t) (Z.to_nat id) image) as [v'|e] eqn:E.
    + destruct (Nat.lt_ge_cases (Z.to_nat id) (length (Texture.images_ t))) as [Hlt|Hge].
      * destruct (assignAt_spec (Texture.images_ t) (Z.to_nat id) image Hlt)
          as (v'' & E' & Hlen & _). rewrite E in E'. injection E' as <-.
        cbn. unfold Texture.size. cbn. rewrite Hlen. repeat split; auto; lia.
      * rewrite assignAt_out_of_range in E by assumption. discriminate E.
    + cbn. repeat split; auto; lia.
Qed.

Lemma calls_inv (cs : list Texture.Call) (t0 : Texture.Texture) :
  Texture.numberOfImages t0 = Texture.size t0 ->
  let t := Texture.calls cs t0 in
  Texture.numberOfImages t = Texture.size t
  /\ length (Texture.images_ t)
     = (length (Texture.images_ t0) + length (Texture.added cs))%nat
  /\ (Texture.images_ t0 <> [] ->
      Texture.width_ t = Texture.width_ t0 /\ Texture.height_ t = Texture.height_ t0).
Proof.
  revert t0. induction cs as [|c cs IH]; intros t0 Hn.
  - cbn. repeat split; auto; lia.
  - destruct (call_inv t0 c Hn) as (Hn1 & Hlen1 & Hdim1).
    destruct (IH (Texture.call t0 c) Hn1) as (Hn2 & Hlen2 & Hdim2).
    cbv zeta. unfold Texture.calls in *. cbn [fold_left].
    split; [exact Hn2|]. split.
    + rewrite Hlen2, Hlen1. change (c :: cs) with ([c] ++ cs).
      unfold Texture.added. rewrite flat_map_app, length_app. lia.
    + intro Hne. destruct (Hdim1 Hne) as [Hw Hh].
      assert (Hne1 : Texture.images_ (Texture.call t0 c) <> []).
      { intro E. rewrite E in Hlen1. cbn in Hlen1.
        destruct (Texture.images_ t0); [contradiction|cbn in Hlen1; lia]. }
      destruct (Hdim2 Hne1) as [Hw2 Hh2]. split; congruence.
Qed.

(** X16.  After any sequence of [addImage] and [setImage] calls on a new
    texture, also when some [setImage] calls threw, the metadata entry
    "number-of-images" is the number of images held, which is the number of
    [addImage] calls, and the width and height of the texture are the columns
    and rows of the first image that was added, whatever was added or set
    later. *)
Theorem texture_counts_images_and_keeps_first_size :
  forall (cs : list Texture.Call) (w h : Z),
    let t := Texture.calls cs (Texture.new w h) in
    Texture.numberOfImages t = Texture.size t
    /\ Texture.size t = Z.of_nat (length (Texture.added cs))
    /\ match Texture.added cs with
       | [] => Texture.width_ t = w /\ Texture.height_ t = h
       | first :: _ => Texture.width_ t = Cv.cols first /\ Texture.height_ t = Cv.rows first
       end.
Proof.
  intros cs w h t.
  destruct (calls_inv cs (Texture.new w h) eq_refl) as (Hn & Hlen & _).
  fold t in Hn, Hlen. split; [exact Hn|]. split.
  - unfold Texture.size. rewrite Hlen. reflexivity.
  - subst t. clear Hn Hlen. induction cs as [|c cs IH].
    + cbn. split; reflexivity.
    + destruct c as [image|id image].
      * cbn [Texture.added flat_map app].
        unfold Texture.calls. cbn [fold_left Texture.call].
        destruct (calls_inv cs (fst (Texture.addImage image (Texture.new w h))) eq_refl)
          as (_ & _ & Hdim).
        apply Hdim. cbn. discriminate.
      * cbn [Texture.added flat_map app]. unfold Texture.calls. cbn [fold_left Texture.call].
        replace (Texture.setImage id image (Texture.new w h))
          with (@Threw Texture.Texture OutOfRange)
          by (unfold Texture.setImage; cbn; destruct (Z.to_nat id); reflexivity).
        exact IH.
Qed.

(** *** The metadata editor *)

Lemma index_equals_some (key value : String.string) :
  ~ In "="%char (String.list_ascii_of_string key) ->
  String.index 0 "="%string (String.append key (String.String "=" value))
  = Some (String.length key).
Proof.
  induction key as [|c key IH]; intro Hnot.
  - cbn. destruct value; reflexivity.
  - cbn [String.list_ascii_of_string] in Hnot.
    cbn [String.append String.index String.prefix String.length].
    destruct (ascii_dec "=" c) as [E|_].
    + exfalso. apply Hnot. left. now symmetry.
    + rewrite IH; [reflexivity|]. intro H. apply Hnot. now right.
Qed.

Lemma substring_all (s : String.string) (m : nat) :
  (String.length s <= m)%nat -> String.substring 0 m s = s.
Proof.
  revert m. induction s as [|c s IH]; intros m H; [destruct m; reflexivity|].
  destruct m as [|m]; [cbn in H; lia|]. cbn. rewrite IH by (cbn in H; lia). reflexivity.
Qed.

Lemma substring_key (key rest : String.string) :
  String.substring 0 (String.length key) (String.append key rest) = key.
Proof.
  induction key as [|c key IH]; [destruct rest; reflexivity|].
  cbn. now rewrite IH.
Qed.

Lemma substring_value (key value : String.string) (m : nat) :
  (String.length value <= m)%nat ->
  String.substring (String.length key + 1) m (String.append key (String.String "=" value))
  = value.
Proof.
  intro H. induction key as [|c key IH].
  - cbn. now apply substring_all.
  - cbn. exact IH.
Qed.

Lemma length_append (a b : String.string) :
  String.length (String.append a b) = (String.length a + String.length b)%nat.
Proof. induction a as [|c a IH]; cbn; [reflexivity|now rewrite IH]. Qed.

Lemma index_equals_inv (s : String.string) (d : nat) :
  String.index 0 "="%string s = Some d ->
  exists key value,
    s = String.append key (String.String "=" value)
    /\ String.length key = d
    /\ ~ In "="%char (String.list_ascii_of_string key).
Proof.
  revert d. induction s as [|c s IH]; intros d H; [discriminate H|].
  cbn [String.index String.prefix] in H.
  destruct (ascii_dec "=" c) as [E|Hne].
  - replace (String.prefix "" s) with true in H by (destruct s; reflexivity).
    injection H as <-. exists ""%string, s. subst c. repeat split; auto.
  - destruct (String.index 0 "=" s) as [d'|] eqn:E; [|discriminate H].
    injection H as <-. destruct (IH d' eq_refl) as (key & value & Hs & Hlen & Hnot).
    exists (String.String c key), value. cbn. subst s. repeat split; auto.
    intros [Hc|Hin]; [apply Hne; now symmetry|contradiction].
Qed.

Lemma index_equals_none_inv (s : String.string) :
  String.index 0 "="%string s = None ->
  ~ In "="%char (String.list_ascii_of_string s).
Proof.
  induction s as [|c s IH]; intros E Hin; [destruct Hin|].
  cbn [String.index String.prefix] in E.
  destruct (ascii_dec "=" c) as [Ec|Hne].
  - replace (String.prefix "" s) with true in E by (destruct s; reflexivity). discriminate E.
  - destruct (String.index 0 "=" s) eqn:E'; [discriminate E|].
    destruct Hin as [Hc|Hin]; [apply Hne; now symmetry|]. now apply IH.
Qed.

(** X17.  The editor splits a configuration at its first "=": a
    configuration without "=" is skipped; otherwise the configuration is the
    key, "=" and the value, the key holds no "=", and conversely joining a
    key without "=" and any value (which may hold "=") by "=" splits into
    these two. *)
Theorem splitConfig_splits_at_first_equals_sign :
  forall config : String.string,
    match Metadata.splitConfig config with
    | Some (key, value) =>
        config = String.append key (String.String "=" value)
        /\ ~ In "="%char (String.list_ascii_of_string key)
    | None => ~ In "="%char (String.list_ascii_of_string config)
    end
    /\ forall value : String.string,
        ~ In "="%char (String.list_ascii_of_string config) ->
        Metadata.splitConfig (String.append config (String.String "=" value))
        = Some (config, value).
Proof.
  intro config. split.
  - unfold Metadata.splitConfig.
    destruct (String.index 0 "=" config) as [d|] eqn:E.
    + destruct (index_equals_inv config d E) as (key & value & Hs & Hlen & Hnot).
      subst config d. rewrite substring_key, substring_value.
      * now split.
      * rewrite length_append. cbn. lia.
    + now apply index_equals_none_inv.
  - intros value Hnot. unfold Metadata.splitConfig.
    rewrite (index_equals_some config value Hnot).
    rewrite substring_key, substring_value; [reflexivity|].
    rewrite length_append. cbn. lia.
Qed.

Lemma find_assign_same (key value : String.string) (m : Metadata.Map) :
  Metadata.find key (Metadata.assign key value m) = Some value.
Proof.
  induction m as [|[k v] rest IH]; cbn [Metadata.assign].
  - cbn. now rewrite String.eqb_refl.
  - destruct (String.compare key k) eqn:E; cbn [Metadata.find].
    + now rewrite String.eqb_refl.
    + now rewrite String.eqb_refl.
    + replace (String.eqb key k) with false; [exact IH|].
      symmetry. apply String.eqb_neq. intro Heq. subst k.
      pose proof (String.compare_antisym key key) as Ha. rewrite E in Ha. discriminate Ha.
Qed.

Lemma find_assign_other (key value other : String.string) (m : Metadata.Map) :
  other <> key ->
  Metadata.find other (Metadata.assign key value m) = Metadata.find other m.
Proof.
  intro Hne. induction m as [|[k v] rest IH]; cbn [Metadata.assign].
  - cbn. replace (String.eqb other key) with false; [reflexivity|].
    symmetry. now apply String.eqb_neq.
  - destruct (String.compare key k) eqn:E; cbn [Metadata.find].
    + apply String.compare_eq_iff in E. subst k.
      replace (String.eqb other key) with false; [reflexivity|].
      symmetry. now apply String.eqb_neq.
    + replace (String.eqb other key) with false; [reflexivity|].
      symmetry. now apply String.eqb_neq.
    + rewrite IH. reflexivity.
Qed.

Lemma find_erase_same (key : String.string) (m : Metadata.Map) :
  Metadata.find key (Metadata.erase key m) = None.
Proof.
  induction m as [|[k v] rest IH]; [reflexivity|].
  unfold Metadata.erase in *. cbn [filter fst].
  destruct (String.eqb key k) eqn:E; cbn [negb]; [exact IH|].
  cbn [Metadata.find]. rewrite E. exact IH.
Qed.

Lemma find_erase_other (key other : String.string) (m : Metadata.Map) :
  other <> key ->
  Metadata.find other (Metadata.erase key m) = Metadata.find other m.
Proof.
  intro Hne. induction m as [|[k v] rest IH]; [reflexivity|].
  unfold Metadata.erase in *. cbn [filter fst].
  destruct (String.eqb key k) eqn:E; cbn [negb Metadata.find].
  - apply String.eqb_eq in E. subst k.
    replace (String.eqb other key) with false by (symmetry; now apply String.eqb_neq).
    exact IH.
  - destruct (String.eqb other k); [reflexivity|exact IH].
Qed.

Lemma parse_snoc (configs : list String.string) (config : String.string) :
  Metadata.parse (configs ++ [config])
  = match Metadata.splitConfig config with
    | None => Metadata.parse configs
    | Some (key, value) => Metadata.assign key value (Metadata.parse configs)
    end.
Proof. unfold Metadata.parse. rewrite fold_left_app. reflexivity. Qed.

Lemma find_changes (configs : list String.string) (key : String.string) :
  Metadata.find key (Metadata.changes configs)
  = if String.eqb key "version"%string then None
    else Metadata.find key (Metadata.parse configs).
Proof.
  unfold Metadata.changes.
  destruct (String.eqb key "version"%string) eqn:E.
  - apply String.eqb_eq in E. subst key.
    destruct (Metadata.find "version"%string (Metadata.parse configs)) eqn:F; [|exact F].
    apply find_erase_same.
  - apply String.eqb_neq in E.
    destruct (Metadata.find "version"%string (Metadata.parse configs)); [|reflexivity].
    now apply find_erase_other.
Qed.

(** X18.  Among the entries that the editor sets there is never one for
    "version"; for any other key, a further configuration at the end of the
    command line that splits into that key and a value decides the value of
    the key (the last configuration of a key wins), and a configuration of
    another key or without "=" leaves it as it was. *)
Theorem last_configuration_of_a_key_wins_and_version_is_dropped :
  forall (configs : list String.string) (config key : String.string),
    Metadata.find "version"%string (Metadata.changes configs) = None
    /\ (key <> "version"%string ->
        Metadata.find key (Metadata.changes (configs ++ [config]))
        = match Metadata.splitConfig config with
          | Some (k, value) =>
              if String.eqb key k then Some value
              else Metadata.find key (Metadata.changes configs)
          | None => Metadata.find key (Metadata.changes configs)
          end).
Proof.
  intros configs config key. split.
  - now rewrite find_changes.
  - intro Hne. rewrite !find_changes.
    replace (String.eqb key "version"%string) with false
      by (symmetry; now apply String.eqb_neq).
    rewrite parse_snoc.
    destruct (Metadata.splitConfig config) as [[k value]|]; [|reflexivity].
    destruct (String.eqb key k) eqn:E.
    + apply String.eqb_eq in E. subst k. apply find_assign_same.
    + apply String.eqb_neq in E. now apply find_assign_other.
Qed.

(** *** The loop over the pixels *)

Lemma range_In_inv (n k : Z) : In k (Std.range n) -> 0 <= k < n.
Proof.
  unfold Std.range. intro H. apply in_map_iff in H. destruct H as (i & <- & Hi).
  apply in_seq in Hi. lia.
Qed.

Lemma cellAt_In (g : PPMGenerator.Generator) (cell : Z) (info : PPMGenerator.CellInfo) :
  PPMGenerator.cellAt g cell = Some info -> In info (PPMGenerator.cellInformation_ g).
Proof.
  unfold PPMGenerator.cellAt. destruct (0 <=? cell); [|discriminate].
  apply nth_error_In.
Qed.

Lemma some_pair_inj {A B : Type} (a c : A) (b d : B) :
  Some (a, b) = Some (c, d) -> a = c /\ b = d.
Proof. intro H. injection H as -> ->. now split. Qed.

Lemma some_pair_inj' {A B : Type} (a c : A) (b d : B) :
  Some (@Returned (A * B) (a, b)) = Some (Returned (c, d)) -> a = c /\ b = d.
Proof. intro H. injection H as -> ->. now split. Qed.

Section SoundFacts.

Variable AlmostEqual : Qc -> Qc -> bool.
Variable normalize : Cv.Vec3 -> Cv.Vec3.
Variable FindClosestNPoints : Cv.Vec3 -> Z -> list Z.
Variable emptyMap : Z -> Z -> Cv.Vec3 * Cv.Vec3.

Lemma searchNeighborhood_found (g : PPMGenerator.Generator) (uv : Cv.Vec3) (cellHint : Z)
      (neighborhood : list Z) (cell : Z) (info : PPMGenerator.CellInfo) (baryCoord : Cv.Vec3) :
  PPMGenerator.searchNeighborhood AlmostEqual g uv cellHint neighborhood
  = Some (Some (cell, info, baryCoord)) ->
  PPMGenerator.cellAt g cell = Some info /\ PPMGenerator.locate AlmostEqual uv info = Some (baryCoord, true).
Proof.
  induction neighborhood as [|c rest IH]; cbn [PPMGenerator.searchNeighborhood]; [discriminate|].
  destruct (c =? cellHint); [exact IH|].
  destruct (PPMGenerator.cellAt g c) as [i|] eqn:Hc; [|discriminate].
  destruct (PPMGenerator.locate AlmostEqual uv i) as [[bc [|]]|] eqn:Hl; [| exact IH | discriminate].
  intro H. injection H as <- <- <-. now split.
Qed.

Lemma sameInput_refl (g : PPMGenerator.Generator) : PPMGenerator.sameInput g g.
Proof. repeat split. Qed.

Lemma sameInput_trans (g1 g2 g3 : PPMGenerator.Generator) :
  PPMGenerator.sameInput g1 g2 -> PPMGenerator.sameInput g2 g3 -> PPMGenerator.sameInput g1 g3.
Proof.
  intros (A & B & C & D & E) (A' & B' & C' & D' & E'). repeat split; congruence.
Qed.

Lemma sound_same_pixel (g g' : PPMGenerator.Generator) (y x : Z) :
  PPMGenerator.sameInput g g' ->
  PPMGenerator.mask_ g' y x = PPMGenerator.mask_ g y x -> PPMGenerator.ppm_ g' y x = PPMGenerator.ppm_ g y x ->
  PPMGenerator.unmapped emptyMap g y x \/ PPMGenerator.mapped AlmostEqual g y x ->
  PPMGenerator.unmapped emptyMap g' y x \/ PPMGenerator.mapped AlmostEqual g' y x.
Proof.
  intros (Hw & Hh & _ & Hc & _) Hm Hp [[H0 He]|H].
  - left. split; congruence.
  - right. unfold PPMGenerator.mapped, PPMGenerator.pixelUV in *. rewrite Hw, Hh, Hc, Hm, Hp. exact H.
Qed.

Lemma locate_true (uv : Cv.Vec3) (info : PPMGenerator.CellInfo) (bc : Cv.Vec3) :
  PPMGenerator.locate AlmostEqual uv info = Some (bc, true) ->
  exists a2 b2 c2,
    PPMGenerator.firstThree (PPMGenerator.pts2D info) = Some (a2, b2, c2)
    /\ bc = PPMGenerator.barycentric_coord_ uv a2 b2 c2
    /\ PPMGenerator.barycentric_in_triangle_ AlmostEqual (PPMGenerator.barycentric_coord_ uv a2 b2 c2) = true.
Proof.
  unfold PPMGenerator.locate.
  destruct (PPMGenerator.firstThree (PPMGenerator.pts2D info)) as [[[a2 b2] c2]|]; [|discriminate].
  intro H. apply some_pair_inj in H. destruct H as [Hb Ht].
  exists a2, b2, c2. split; [reflexivity|]. split; [now symmetry|exact Ht].
Qed.

Lemma find_cell_sound (g g' : PPMGenerator.Generator) (x y cellHint cellHint' : Z) :
  PPMGenerator.sound AlmostEqual emptyMap g ->
  0 <= y < PPMGenerator.height_ g -> 0 <= x < PPMGenerator.width_ g ->
  PPMGenerator.find_cell_ AlmostEqual normalize FindClosestNPoints g x y cellHint
  = Some (Returned (g', cellHint')) ->
  PPMGenerator.sound AlmostEqual emptyMap g' /\ PPMGenerator.sameInput g g'.
Proof.
  intros Hsound Hy Hx. unfold PPMGenerator.find_cell_.
  destruct (PPMGenerator.cellAt g cellHint) as [info0|] eqn:Hcell0; [|discriminate].
  destruct (PPMGenerator.locate AlmostEqual (PPMGenerator.pixelUV g x y) info0) as [[bc0 found0]|] eqn:Hloc0;
    [|discriminate].
  set (search := if found0 then _ else _).
  assert (Hsearch : forall cell info bc, search = Some (Some (cell, info, bc)) ->
            In info (PPMGenerator.cellInformation_ g)
            /\ PPMGenerator.locate AlmostEqual (PPMGenerator.pixelUV g x y) info = Some (bc, true)).
  { intros cell info bc. unfold search. destruct found0.
    - intro H. injection H as <- <- <-. split; [now apply (cellAt_In g cellHint)|exact Hloc0].
    - intro H. apply searchNeighborhood_found in H. destruct H as [Hc Hl].
      split; [now apply (cellAt_In g cell)|exact Hl]. }
  destruct search as [[[[cell info] bc]|]|]; [| |discriminate].
  - destruct (Hsearch cell info bc eq_refl) as [Hin Hloc].
    destruct (PPMGenerator.firstThree (PPMGenerator.pts3D info)) as [[[a3 b3] c3]|] eqn:H3; [|discriminate].
    destruct (PPMGenerator.pixelNormal normalize g info bc) as [xyzNorm|e]; [|discriminate].
    apply locate_true in Hloc. destruct Hloc as (a2 & b2 & c2 & H2 & Hbc & Htest).
    set (gNew := PPMGenerator.mkGenerator _ _ _ _ _ _ _).
    intro H. apply some_pair_inj' in H. destruct H as [<- <-].
    assert (Hsame : PPMGenerator.sameInput g gNew) by (repeat split).
    split; [|exact Hsame].
    intros y' x'. destruct ((y' =? y) && (x' =? x)) eqn:E.
    + apply andb_true_iff in E. destruct E as [Ey Ex]. apply Z.eqb_eq in Ey, Ex. subst y' x'.
      right. unfold PPMGenerator.mapped.
      assert (Huv : PPMGenerator.pixelUV gNew x y = PPMGenerator.pixelUV g x y) by reflexivity.
      rewrite Huv.
      assert (Hmask : PPMGenerator.mask_ gNew y x = 255)
        by (unfold gNew; cbn [PPMGenerator.mask_]; unfold PPMGenerator.assign; now rewrite !Z.eqb_refl).
      assert (Hppm : fst (PPMGenerator.ppm_ gNew y x) = PPMGenerator.cartesian_coord_ bc a3 b3 c3)
        by (unfold gNew; cbn [PPMGenerator.ppm_]; unfold PPMGenerator.assign; now rewrite !Z.eqb_refl).
      split; [exact Hmask|]. split; [exact Hy|]. split; [exact Hx|].
      exists info, a2, b2, c2, a3, b3, c3.
      split; [exact Hin|]. split; [exact H2|]. split; [exact H3|].
      split; [exact Htest|]. rewrite Hppm, Hbc. reflexivity.
    + apply (sound_same_pixel g gNew y' x' Hsame); [| |apply Hsound];
        unfold gNew; cbn [PPMGenerator.mask_ PPMGenerator.ppm_]; unfold PPMGenerator.assign; now rewrite E.
  - intro H. apply some_pair_inj' in H. destruct H as [<- <-].
    split; [exact Hsound|apply sameInput_refl].
Qed.

Lemma columns_sound (xs : list Z) (g g' : PPMGenerator.Generator) (y lastCell lastCell' : Z) :
  PPMGenerator.sound AlmostEqual emptyMap g ->
  0 <= y < PPMGenerator.height_ g -> (forall x, In x xs -> 0 <= x < PPMGenerator.width_ g) ->
  PPMGenerator.columns AlmostEqual normalize FindClosestNPoints g y xs lastCell
  = Some (Returned (g', lastCell')) ->
  PPMGenerator.sound AlmostEqual emptyMap g' /\ PPMGenerator.sameInput g g'.
Proof.
  revert g lastCell. induction xs as [|x rest IH]; intros g lastCell Hs Hy Hxs.
  - cbn. intro H. injection H as <- <-. split; [exact Hs|apply sameInput_refl].
  - cbn [PPMGenerator.columns].
    destruct (PPMGenerator.find_cell_ AlmostEqual normalize FindClosestNPoints g x y lastCell)
      as [[[g1 h1]|e]|] eqn:Hf; [|discriminate|discriminate].
    destruct (find_cell_sound g g1 x y lastCell h1 Hs Hy (Hxs x (or_introl eq_refl)) Hf)
      as [Hs1 Hsame1].
    intro H. pose proof Hsame1 as (Hw & Hh & _).
    destruct (IH g1 h1 Hs1 ltac:(lia)
                 ltac:(intros x' Hx'; rewrite Hw; apply Hxs; now right) H) as [Hs' Hsame'].
    split; [exact Hs'|]. eapply sameInput_trans; eassumption.
Qed.

Lemma rows_sound (ys : list Z) (g g' : PPMGenerator.Generator) (lastCell lastCell' : Z) :
  PPMGenerator.sound AlmostEqual emptyMap g ->
  (forall y, In y ys -> 0 <= y < PPMGenerator.height_ g) ->
  PPMGenerator.rows AlmostEqual normalize FindClosestNPoints g ys lastCell
  = Some (Returned (g', lastCell')) ->
  PPMGenerator.sound AlmostEqual emptyMap g' /\ PPMGenerator.sameInput g g'.
Proof.
  revert g lastCell. induction ys as [|y rest IH]; intros g lastCell Hs Hys.
  - cbn. intro H. injection H as <- <-. split; [exact Hs|apply sameInput_refl].
  - cbn [PPMGenerator.rows].
    destruct (PPMGenerator.columns AlmostEqual normalize FindClosestNPoints g y
                (Std.range (PPMGenerator.width_ g)) lastCell) as [[[g1 h1]|e]|] eqn:Hc;
      [|discriminate|discriminate].
    destruct (columns_sound _ g g1 y lastCell h1 Hs (Hys y (or_introl eq_refl))
                (fun x Hx => range_In_inv _ x Hx) Hc) as [Hs1 Hsame1].
    intro H. pose proof Hsame1 as (Hw & Hh & _).
    destruct (IH g1 h1 Hs1
                 ltac:(intros y' Hy'; rewrite Hh; apply Hys; now right) H) as [Hs' Hsame'].
    split; [exact Hs'|]. eapply sameInput_trans; eassumption.
Qed.

End SoundFacts.

(** X22.  When [generate_ppm_] returns, every pixel of the map is either
    unmapped, with mask 0 and the value the map was created with, or mapped,
    with mask 255: a mapped pixel lies inside the map, and its position is
    the point, in the 3D triangle of some cell, of the barycentric coordinate
    that its uv coordinate has in the 2D triangle of that cell, a coordinate
    that passed the test of [barycentric_in_triangle_]. *)
Theorem generate_ppm_maps_pixels_into_their_cells :
  forall (AlmostEqual : Qc -> Qc -> bool) (normalize : Cv.Vec3 -> Cv.Vec3)
         (FindClosestNPoints : Cv.Vec3 -> Z -> list Z)
         (emptyMap : Z -> Z -> Cv.Vec3 * Cv.Vec3) (g g' : PPMGenerator.Generator),
    PPMGenerator.generate_ppm_ AlmostEqual normalize FindClosestNPoints emptyMap g
    = Some (Returned g') ->
    PPMGenerator.width_ g' = PPMGenerator.width_ g /\ PPMGenerator.height_ g' = PPMGenerator.height_ g
    /\ PPMGenerator.cellInformation_ g' = PPMGenerator.cellInformation_ g
    /\ forall y x,
        PPMGenerator.unmapped emptyMap g' y x \/ PPMGenerator.mapped AlmostEqual g' y x.
Proof.
  intros AlmostEqual normalize FindClosestNPoints emptyMap g g'.
  unfold PPMGenerator.generate_ppm_. cbv zeta. set (g0 := PPMGenerator.mkGenerator _ _ _ _ _ _ _).
  destruct (PPMGenerator.rows AlmostEqual normalize FindClosestNPoints g0
              (Std.range (PPMGenerator.height_ g0)) 0) as [[[g1 h1]|e]|] eqn:Hr;
    [|discriminate|discriminate].
  intro H. assert (g1 = g') by congruence. subst g'. clear H.
  assert (Hs0 : PPMGenerator.sound AlmostEqual emptyMap g0)
    by (intros y x; left; split; reflexivity).
  destruct (rows_sound AlmostEqual normalize FindClosestNPoints emptyMap _ g0 g1 0 h1 Hs0
              (fun y Hy => range_In_inv _ y Hy) Hr) as [Hs (Hw & Hh & _ & Hc & _)].
  repeat split; auto.
Qed.

Lemma generate_ppm_maps_pixels_into_their_cells_witness :
  exists g',
    PPMGenerator.generate_ppm_ Inputs.exactlyEqual Inputs.unscaled Inputs.noNeighbours
                               Inputs.zeroMap Inputs.generator3x3
    = Some (Returned g')
    /\ PPMGenerator.width_ g' = PPMGenerator.width_ Inputs.generator3x3
    /\ PPMGenerator.height_ g' = PPMGenerator.height_ Inputs.generator3x3
    /\ PPMGenerator.cellInformation_ g' = PPMGenerator.cellInformation_ Inputs.generator3x3
    /\ forall y x,
        PPMGenerator.unmapped Inputs.zeroMap g' y x
        \/ PPMGenerator.mapped Inputs.exactlyEqual g' y x.
Proof.
  assert (Hrun : exists g',
             PPMGenerator.generate_ppm_ Inputs.exactlyEqual Inputs.unscaled
               Inputs.noNeighbours Inputs.zeroMap Inputs.generator3x3
             = Some (Returned g')) by (vm_compute; eexists; reflexivity).
  destruct Hrun as [g' Hrun]. exists g'. split; [exact Hrun|].
  apply (generate_ppm_maps_pixels_into_their_cells Inputs.exactlyEqual Inputs.unscaled
           Inputs.noNeighbours Inputs.zeroMap Inputs.generator3x3 g' Hrun).
Defined.

(** *** The half-edge mesh *)

Lemma length_update {A : Type} (l : list A) (i : nat) (f : A -> A) :
  length (HalfEdgeMesh.update l i f) = length l.
Proof.
  revert i. induction l as [|a l IH]; intros [|i]; cbn; auto.
Qed.

Lemma nth_error_update {A : Type} (l : list A) (i j : nat) (f : A -> A) :
  nth_error (HalfEdgeMesh.update l i f) j
  = if Nat.eqb j i then option_map f (nth_error l j) else nth_error l j.
Proof.
  revert i j. induction l as [|a l IH]; intros [|i] [|j]; cbn; auto;
    try (destruct (Nat.eqb j i); reflexivity); try (destruct j; reflexivity).
Qed.

Lemma length_linkBack {A : Type} (l : list A) (f : A -> A) :
  length (HalfEdgeMesh.linkBack l f) = length l.
Proof. destruct l; [reflexivity|]. unfold HalfEdgeMesh.linkBack. apply length_update. Qed.

Lemma nth_error_linkBack {A : Type} (l : list A) (f : A -> A) (i : nat) :
  nth_error (HalfEdgeMesh.linkBack l f) i
  = if Nat.eqb (S i) (length l) then option_map f (nth_error l i) else nth_error l i.
Proof.
  destruct l as [|a l].
  - cbn. destruct i; reflexivity.
  - unfold HalfEdgeMesh.linkBack. rewrite nth_error_update.
    replace (length (a :: l) - 1)%nat with (length l) by (cbn; lia).
    cbn [length]. destruct (Nat.eqb i (length l)) eqn:E.
    + apply Nat.eqb_eq in E. subst i. now rewrite Nat.eqb_refl.
    + apply Nat.eqb_neq in E.
      replace (Nat.eqb (S i) (S (length l))) with false
        by (symmetry; apply Nat.eqb_neq; lia).
      reflexivity.
Qed.

Lemma nextIn_grow (n k i : nat) :
  (S i < n)%nat -> HalfEdgeMesh.nextIn (n + k) i = HalfEdgeMesh.nextIn n i.
Proof.
  intro H. unfold HalfEdgeMesh.nextIn.
  replace (S i <? n + k)%nat with true by (symmetry; apply Nat.ltb_lt; lia).
  replace (S i <? n)%nat with true by (symmetry; apply Nat.ltb_lt; lia).
  reflexivity.
Qed.

Lemma nextIn_last (n k : nat) (i : nat) :
  S i = n -> (0 < k)%nat -> HalfEdgeMesh.nextIn (n + k) i = Some n.
Proof.
  intros H Hk. unfold HalfEdgeMesh.nextIn.
  replace (S i <? n + k)%nat with true by (symmetry; apply Nat.ltb_lt; lia).
  now subst.
Qed.

Lemma nextIn_end (n : nat) : HalfEdgeMesh.nextIn (S n) n = None.
Proof. unfold HalfEdgeMesh.nextIn. now rewrite Nat.ltb_irrefl. Qed.

Lemma SFcompare_antisym (x y : spec_float) :
  SFcompare y x = option_map CompOpp (SFcompare x y).
Proof.
  destruct x as [s|s| |s m e], y as [s'|s'| |s' m' e']; cbn; try reflexivity;
    try (destruct s; reflexivity); try (destruct s'; reflexivity);
    try (destruct s, s'; reflexivity).
  rewrite (Z.compare_antisym e e').
  change (PosDef.Pos.compare_cont Eq m' m) with (Pos.compare m' m).
  change (PosDef.Pos.compare_cont Eq m m') with (Pos.compare m m').
  rewrite (Pos.compare_antisym m m').
  destruct s, s'; cbn; try reflexivity;
    destruct (e ?= e')%Z; cbn; try reflexivity;
    destruct (m ?= m')%positive; reflexivity.
Qed.

Lemma is_nan_SF (x : float) :
  PrimFloat.is_nan x = false -> SFcompare (Prim2SF x) (Prim2SF x) = Some Eq.
Proof.
  unfold PrimFloat.is_nan. rewrite FloatAxioms.eqb_spec. unfold SFeqb.
  destruct (SFcompare (Prim2SF x) (Prim2SF x)) as [[| |]|]; cbn; congruence.
Qed.

(** A comparison [x < y] of doubles that fails leaves [y <= x], unless one
    of the two is a NaN. *)
Lemma float_not_lt (x y : float) :
  (x <? y)%float = false ->
  PrimFloat.is_nan x = true \/ PrimFloat.is_nan y = true \/ (y <=? x)%float = true.
Proof.
  intro H.
  destruct (PrimFloat.is_nan x) eqn:Hx; [now left|].
  destruct (PrimFloat.is_nan y) eqn:Hy; [now right; left|].
  right; right.
  apply is_nan_SF in Hx. apply is_nan_SF in Hy.
  rewrite FloatAxioms.ltb_spec in H. rewrite FloatAxioms.leb_spec.
  unfold SFltb in H. unfold SFleb.
  rewrite (SFcompare_antisym (Prim2SF x) (Prim2SF y)).
  destruct (SFcompare (Prim2SF x) (Prim2SF y)) as [[| |]|] eqn:Hc; cbn;
    try reflexivity; try discriminate H.
  exfalso.
  destruct (Prim2SF x) as [s|s| |s m e], (Prim2SF y) as [s'|s'| |s' m' e'];
    cbn in Hx, Hy, Hc; discriminate.
Qed.

(** The two bounds: pi / 180 and pi - pi / 180 as doubles. *)
Lemma angle_bounds :
  HalfEdgeMesh.MINANGLE = 0x1.1df46a2529d39p-6%float
  /\ HalfEdgeMesh.MAXANGLE = 0x1.8fe3cc6ff87dep+1%float
  /\ (0 <? HalfEdgeMesh.MINANGLE)%float = true
  /\ (HalfEdgeMesh.MINANGLE <=? HalfEdgeMesh.MINANGLE)%float = true
  /\ (HalfEdgeMesh.MINANGLE <=? HalfEdgeMesh.MAXANGLE)%float = true
  /\ (HalfEdgeMesh.MAXANGLE <=? HalfEdgeMesh.MAXANGLE)%float = true
  /\ PrimFloat.is_nan HalfEdgeMesh.MINANGLE = false
  /\ PrimFloat.is_nan HalfEdgeMesh.MAXANGLE = false.
Proof. repeat split; vm_compute; reflexivity. Qed.

(** What the clamping leaves: a NaN as it is, any other angle between the
    bounds. *)
Lemma clamp_range (a : float) :
  (PrimFloat.is_nan a = true /\ HalfEdgeMesh.clamp a = a)
  \/ ((HalfEdgeMesh.MINANGLE <=? HalfEdgeMesh.clamp a)%float = true
      /\ (HalfEdgeMesh.clamp a <=? HalfEdgeMesh.MAXANGLE)%float = true).
Proof.
  destruct angle_bounds as (_ & _ & _ & Hmm & Hmx & Hxx & Hnmin & Hnmax).
  unfold HalfEdgeMesh.clamp.
  destruct (a <? HalfEdgeMesh.MINANGLE)%float eqn:Hlo; [right; now split|].
  destruct (HalfEdgeMesh.MAXANGLE <? a)%float eqn:Hhi; [right; now split|].
  destruct (float_not_lt _ _ Hlo) as [Hn|[Hn|Hle1]];
    [left; now split|rewrite Hnmin in Hn; discriminate Hn|].
  destruct (float_not_lt _ _ Hhi) as [Hn|[Hn|Hle2]];
    [rewrite Hnmax in Hn; discriminate Hn|left; now split|].
  right. now split.
Qed.

(** An angle that is not below MINANGLE is positive. *)
Lemma above_minangle_positive (a : float) :
  (HalfEdgeMesh.MINANGLE <=? a)%float = true -> (0 <? a)%float = true.
Proof.
  rewrite FloatAxioms.leb_spec, FloatAxioms.ltb_spec.
  set (lo := Prim2SF HalfEdgeMesh.MINANGLE). vm_compute in lo. subst lo.
  set (z := Prim2SF 0). vm_compute in z. subst z.
  destruct (Prim2SF a) as [s|s| |s m e]; cbn; try discriminate;
    destruct s; cbn; try discriminate; reflexivity.
Qed.

(** The clamping keeps a NaN. *)
Lemma clamp_keeps_nan : HalfEdgeMesh.clamp PrimFloat.nan = PrimFloat.nan.
Proof. reflexivity. Qed.

Lemma newAngle_clamped (a : float) :
  HalfEdgeMesh.clamped HalfEdgeMesh.MINANGLE HalfEdgeMesh.MAXANGLE
                       (HalfEdgeMesh.newAngle (HalfEdgeMesh.clamp a)).
Proof.
  unfold HalfEdgeMesh.clamped, HalfEdgeMesh.newAngle.
  cbn [HalfEdgeMesh.alpha HalfEdgeMesh.beta HalfEdgeMesh.phi HalfEdgeMesh.weight].
  split; [|repeat split].
  destruct (clamp_range a) as [[Hn He]|H]; [left; now rewrite He|right; exact H].
Qed.

Lemma nth_error_grown {A : Type} (l new : list A) (g : A -> A) (i : nat) :
  nth_error (HalfEdgeMesh.linkBack l g ++ new) i
  = if (i <? length l)%nat
    then (if Nat.eqb (S i) (length l) then option_map g (nth_error l i) else nth_error l i)
    else nth_error new (i - length l).
Proof.
  destruct (i <? length l)%nat eqn:E.
  - apply Nat.ltb_lt in E. rewrite nth_error_app1 by (rewrite length_linkBack; exact E).
    apply nth_error_linkBack.
  - apply Nat.ltb_ge in E. rewrite nth_error_app2 by (rewrite length_linkBack; exact E).
    now rewrite length_linkBack.
Qed.

(** An element of the old vector is still there, up to its link. *)
Lemma grown_old {A : Type} (l new : list A) (g : A -> A) (i : nat) (X : A) :
  nth_error l i = Some X ->
  exists X', nth_error (HalfEdgeMesh.linkBack l g ++ new) i = Some X' /\ (X' = X \/ X' = g X).
Proof.
  intro H. rewrite nth_error_grown.
  replace (i <? length l)%nat with true
    by (symmetry; apply Nat.ltb_lt; apply nth_error_Some; congruence).
  rewrite H. destruct (Nat.eqb (S i) (length l)); cbn; eauto.
Qed.

Lemma grown_inv {A : Type} (l new : list A) (g : A -> A) (i : nat) (X' : A) :
  nth_error (HalfEdgeMesh.linkBack l g ++ new) i = Some X' ->
  ((i < length l)%nat
   /\ exists X, nth_error l i = Some X
                /\ ((S i = length l /\ X' = g X) \/ ((S i < length l)%nat /\ X' = X)))
  \/ ((length l <= i)%nat /\ nth_error new (i - length l) = Some X').
Proof.
  rewrite nth_error_grown. destruct (i <? length l)%nat eqn:E.
  - apply Nat.ltb_lt in E. intro H. left. split; [exact E|].
    destruct (nth_error l i) as [X|] eqn:HX.
    + exists X. split; [reflexivity|].
      destruct (Nat.eqb (S i) (length l)) eqn:E2.
      * apply Nat.eqb_eq in E2. cbn in H. injection H as <-. now left.
      * apply Nat.eqb_neq in E2. injection H as <-. right. split; [lia|reflexivity].
    + destruct (Nat.eqb (S i) (length l)); discriminate H.
  - apply Nat.ltb_ge in E. intro H. right. now split.
Qed.

Lemma length_linkVert (v e : nat) (l : list HalfEdgeMesh.Vert) :
  length (HalfEdgeMesh.linkVert v e l) = length l.
Proof. apply length_update. Qed.

Lemma linkVert_inv (v e : nat) (l : list HalfEdgeMesh.Vert) (i : nat) (V : HalfEdgeMesh.Vert) :
  nth_error (HalfEdgeMesh.linkVert v e l) i = Some V ->
  exists V0, nth_error l i = Some V0
             /\ HalfEdgeMesh.v_id V = HalfEdgeMesh.v_id V0 /\ HalfEdgeMesh.v_nextLink V = HalfEdgeMesh.v_nextLink V0.
Proof.
  unfold HalfEdgeMesh.linkVert. rewrite nth_error_update.
  destruct (Nat.eqb i v).
  - destruct (nth_error l i) as [V0|]; [|discriminate]. cbn. intro H. injection H as <-.
    exists V0. destruct (HalfEdgeMesh.v_edge V0); repeat split; reflexivity.
  - intro H. exists V. repeat split; auto.
Qed.

Lemma addVert_wellFormed (x y z : float) (m : HalfEdgeMesh.Mesh) (D : list (nat * nat)) :
  HalfEdgeMesh.wellFormed m D -> HalfEdgeMesh.wellFormed (fst (HalfEdgeMesh.addVert x y z m)) D.
Proof.
  intros (Hv & Hle & Hlf & He & Hf & Hm). unfold HalfEdgeMesh.addVert. cbn [fst].
  unfold HalfEdgeMesh.wellFormed. cbn [HalfEdgeMesh.verts_ HalfEdgeMesh.edges_ HalfEdgeMesh.faces_ HalfEdgeMesh.pairLookupMap_].
  rewrite length_app, length_linkBack. cbn [length].
  split; [|split; [exact Hle|split; [exact Hlf|split; [|split; [exact Hf|exact Hm]]]]].
  - intros i V H. apply grown_inv in H.
    destruct H as [[Hlt (V0 & HV0 & [[Hlast ->]|[Hmid ->]])]|[Hge H]].
    + destruct (Hv i V0 HV0) as [Hid _]. cbn. split; [exact Hid|].
      symmetry. apply nextIn_last; [exact Hlast|lia].
    + destruct (Hv i V0 HV0) as [Hid Hn]. split; [exact Hid|].
      rewrite Hn. symmetry. apply nextIn_grow. exact Hmid.
    + destruct (i - length (HalfEdgeMesh.verts_ m))%nat as [|k] eqn:E; [|destruct k; discriminate H].
      cbn in H. injection H as <-. cbn. assert (i = length (HalfEdgeMesh.verts_ m)) by lia. subst i.
      split; [reflexivity|]. rewrite Nat.add_1_r. symmetry. apply nextIn_end.
  - intros e E H. destruct (He e E H) as (H1 & H2 & H3 & H5).
    split; [exact H1|split; [exact H2|split; [lia|exact H5]]].
Qed.

Lemma addVert_unconnected (x y z : float) (m : HalfEdgeMesh.Mesh) :
  HalfEdgeMesh.unconnected m -> HalfEdgeMesh.unconnected (fst (HalfEdgeMesh.addVert x y z m)).
Proof. intro H. exact H. Qed.

Lemma three_more {A : Type} (a b c : A) (k : nat) (X : A) :
  nth_error [a; b; c] k = Some X ->
  (k = 0%nat /\ X = a) \/ (k = 1%nat /\ X = b) \/ (k = 2%nat /\ X = c).
Proof.
  destruct k as [|[|[|k]]]; cbn; intro H; try (injection H as <-); auto.
  destruct k; discriminate H.
Qed.

Lemma one_more {A : Type} (a : A) (k : nat) (X : A) :
  nth_error [a] k = Some X -> k = 0%nat /\ X = a.
Proof.
  destruct k as [|k]; cbn; intro H; [injection H as <-; auto|destruct k; discriminate H].
Qed.

Lemma grown_new {A : Type} (l new : list A) (g : A -> A) (k : nat) :
  nth_error (HalfEdgeMesh.linkBack l g ++ new) (length l + k) = nth_error new k.
Proof.
  rewrite nth_error_grown.
  replace (length l + k <? length l)%nat with false by (symmetry; apply Nat.ltb_ge; lia).
  f_equal. lia.
Qed.

Section AddFaceFacts.

Variable normalize : Cv.Vec3d -> Cv.Vec3d.
Variable dot : Cv.Vec3d -> Cv.Vec3d -> float.
Variable acos : float -> float.

Lemma addFace_wellFormed (v0 v1 v2 : nat) (m m' : HalfEdgeMesh.Mesh) (f : nat)
      (D : list (nat * nat)) :
  HalfEdgeMesh.wellFormed m D ->
  HalfEdgeMesh.addFace normalize dot acos v0 v1 v2 m = Some (m', f) ->
  HalfEdgeMesh.wellFormed m' (D ++ [(v0, v1); (v1, v2); (v2, v0)]).
Proof.
  intros (Hv & Hle & Hlf & He & Hf & Hm). unfold HalfEdgeMesh.addFace.
  destruct (nth_error (HalfEdgeMesh.verts_ m) v0) as [V0|] eqn:HV0; [|discriminate].
  destruct (nth_error (HalfEdgeMesh.verts_ m) v1) as [V1|] eqn:HV1; [|discriminate].
  destruct (nth_error (HalfEdgeMesh.verts_ m) v2) as [V2|] eqn:HV2; [|discriminate].
  intro H. injection H as <- <-.
  assert (Hv0 : (v0 < length (HalfEdgeMesh.verts_ m))%nat) by (apply nth_error_Some; congruence).
  assert (Hv1 : (v1 < length (HalfEdgeMesh.verts_ m))%nat) by (apply nth_error_Some; congruence).
  assert (Hv2 : (v2 < length (HalfEdgeMesh.verts_ m))%nat) by (apply nth_error_Some; congruence).
  set (n := length (HalfEdgeMesh.edges_ m)) in *.
  set (nf := length (HalfEdgeMesh.faces_ m)) in *.
  set (a0 := HalfEdgeMesh.clamp _). set (a1 := HalfEdgeMesh.clamp _). set (a2 := HalfEdgeMesh.clamp _).
  set (E0 := HalfEdgeMesh.mkEdge n v0 (S n) None nf (HalfEdgeMesh.newAngle a0) (Some (S n))).
  set (E1 := HalfEdgeMesh.mkEdge (S n) v1 (S (S n)) None nf (HalfEdgeMesh.newAngle a1) (Some (S (S n)))).
  set (E2 := HalfEdgeMesh.mkEdge (S (S n)) v2 n None nf (HalfEdgeMesh.newAngle a2) None).
  set (F := HalfEdgeMesh.mkFace nf n 0%float false None).
  set (L' := HalfEdgeMesh.linkBack (HalfEdgeMesh.edges_ m) (HalfEdgeMesh.setEdgeNextLink (Some n)) ++ [E0; E1; E2]).
  set (Fs' := HalfEdgeMesh.linkBack (HalfEdgeMesh.faces_ m) (HalfEdgeMesh.setFaceNextLink (Some nf)) ++ [F]).
  unfold HalfEdgeMesh.wellFormed. cbn [HalfEdgeMesh.verts_ HalfEdgeMesh.edges_ HalfEdgeMesh.faces_ HalfEdgeMesh.pairLookupMap_].
  fold L' Fs'.
  assert (HlenL : length L' = (n + 3)%nat)
    by (unfold L'; rewrite length_app, length_linkBack; reflexivity).
  assert (HlenF : length Fs' = (nf + 1)%nat)
    by (unfold Fs'; rewrite length_app, length_linkBack; reflexivity).
  assert (HlenV : length (HalfEdgeMesh.linkVert v2 (S (S n)) (HalfEdgeMesh.linkVert v1 (S n)
                    (HalfEdgeMesh.linkVert v0 n (HalfEdgeMesh.verts_ m)))) = length (HalfEdgeMesh.verts_ m))
    by (now rewrite !length_linkVert).
  (* old edges and faces are still there *)
  assert (HoldE : forall i X, nth_error (HalfEdgeMesh.edges_ m) i = Some X ->
            exists X', nth_error L' i = Some X'
                       /\ HalfEdgeMesh.vert X' = HalfEdgeMesh.vert X /\ HalfEdgeMesh.next X' = HalfEdgeMesh.next X
                       /\ HalfEdgeMesh.face X' = HalfEdgeMesh.face X).
  { intros i X HX. destruct (grown_old _ [E0; E1; E2] (HalfEdgeMesh.setEdgeNextLink (Some n)) i X HX)
      as (X' & HX' & [->| ->]).
    - exists X. auto.
    - eexists. split; [exact HX'|]. auto. }
  assert (HoldF : forall i X, nth_error (HalfEdgeMesh.faces_ m) i = Some X ->
            exists X', nth_error Fs' i = Some X' /\ HalfEdgeMesh.edge X' = HalfEdgeMesh.edge X).
  { intros i X HX. destruct (grown_old _ [F] (HalfEdgeMesh.setFaceNextLink (Some nf)) i X HX)
      as (X' & HX' & [->| ->]).
    - exists X. auto.
    - eexists. split; [exact HX'|]. auto. }
  assert (HnewE0 : nth_error L' n = Some E0)
    by (unfold L', n; rewrite <- (Nat.add_0_r (length (HalfEdgeMesh.edges_ m))) at 2;
        now rewrite grown_new).
  assert (HnewE1 : nth_error L' (S n) = Some E1)
    by (unfold L', n; replace (S (length (HalfEdgeMesh.edges_ m))) with (length (HalfEdgeMesh.edges_ m) + 1)%nat
          by lia; now rewrite grown_new).
  assert (HnewE2 : nth_error L' (S (S n)) = Some E2)
    by (unfold L', n;
        replace (S (S (length (HalfEdgeMesh.edges_ m)))) with (length (HalfEdgeMesh.edges_ m) + 2)%nat by lia;
        now rewrite grown_new).
  assert (HnewF : nth_error Fs' nf = Some F)
    by (unfold Fs', nf; rewrite <- (Nat.add_0_r (length (HalfEdgeMesh.faces_ m))) at 2;
        now rewrite grown_new).
  assert (HD0 : nth_error (D ++ [(v0, v1); (v1, v2); (v2, v0)]) n = Some (v0, v1))
    by (rewrite nth_error_app2 by lia; replace (n - length D)%nat with 0%nat by lia;
        reflexivity).
  assert (HD1 : nth_error (D ++ [(v0, v1); (v1, v2); (v2, v0)]) (S n) = Some (v1, v2))
    by (rewrite nth_error_app2 by lia; replace (S n - length D)%nat with 1%nat by lia;
        reflexivity).
  assert (HD2 : nth_error (D ++ [(v0, v1); (v1, v2); (v2, v0)]) (S (S n)) = Some (v2, v0))
    by (rewrite nth_error_app2 by lia; replace (S (S n) - length D)%nat with 2%nat by lia;
        reflexivity).
  split; [|split; [|split; [|split; [|split]]]].
  - (* vertices *)
    intros i V H. rewrite HlenV.
    apply linkVert_inv in H. destruct H as (Va & H & Hid & Hn). rewrite Hid, Hn.
    apply linkVert_inv in H. destruct H as (Vb & H & Hid' & Hn'). rewrite Hid', Hn'.
    apply linkVert_inv in H. destruct H as (Vc & H & Hid'' & Hn''). rewrite Hid'', Hn''.
    now apply Hv.
  - rewrite HlenL, length_app. cbn [length]. lia.
  - rewrite length_app, HlenF. cbn [length]. lia.
  - (* edges *)
    intros e E H. rewrite HlenL, HlenV. unfold L' in H. apply grown_inv in H.
    destruct H as [[Hlt (X & HX & Hcase)]|[Hge H]].
    + destruct (He e X HX) as (Hid & Hnl & Hvert & (Fo & X1 & X2 & HFo & HX1 & HX2
                                 & Hcyc & Hf1 & Hf2 & Hedge & HDe)).
      destruct (HoldF _ _ HFo) as (Fo' & HFo' & HedgeF).
      destruct (HoldE _ _ HX1) as (X1' & HX1' & Hv1' & Hn1' & Hfa1').
      destruct (HoldE _ _ HX2) as (X2' & HX2' & Hv2' & Hn2' & Hfa2').
      assert (Hproj : HalfEdgeMesh.e_id E = HalfEdgeMesh.e_id X /\ HalfEdgeMesh.vert E = HalfEdgeMesh.vert X
                      /\ HalfEdgeMesh.next E = HalfEdgeMesh.next X /\ HalfEdgeMesh.face E = HalfEdgeMesh.face X)
        by (destruct Hcase as [[_ ->]|[_ ->]]; repeat split; reflexivity).
      destruct Hproj as (Pid & Pv & Pn & Pf).
      rewrite Pid, Pv, Pn, Pf.
      split; [exact Hid|]. split.
      { destruct Hcase as [[Hlast ->]|[Hmid ->]].
        - cbn. symmetry. apply nextIn_last; [exact Hlast|lia].
        - rewrite Hnl. symmetry. apply nextIn_grow. exact Hmid. }
      split; [exact Hvert|].
      exists Fo', X1', X2'. rewrite Hn1', Hfa1', Hfa2', Hv1', HedgeF.
      split; [exact HFo'|]. split; [exact HX1'|]. split; [exact HX2'|].
      split; [now rewrite Hn2'|]. split; [exact Hf1|]. split; [exact Hf2|].
      split; [exact Hedge|].
      rewrite nth_error_app1 by (rewrite <- Hle; exact Hlt). exact HDe.
    + assert (He' : e = (n + (e - n))%nat) by (unfold n; lia).
      apply three_more in H. fold n in H.
      destruct H as [[Hk ->]|[[Hk ->]|[Hk ->]]].
      * assert (e = n) by lia. subst e. cbn [HalfEdgeMesh.e_id HalfEdgeMesh.e_nextLink HalfEdgeMesh.vert
          HalfEdgeMesh.face HalfEdgeMesh.next E0].
        split; [reflexivity|]. split.
        { unfold HalfEdgeMesh.nextIn. replace (S n <? n + 3)%nat with true
            by (symmetry; apply Nat.ltb_lt; lia). reflexivity. }
        split; [exact Hv0|].
        exists F, E1, E2. cbn [HalfEdgeMesh.next HalfEdgeMesh.face HalfEdgeMesh.edge HalfEdgeMesh.vert E1 E2 F].
        repeat split; auto.
      * assert (e = S n) by lia. subst e. cbn [HalfEdgeMesh.e_id HalfEdgeMesh.e_nextLink HalfEdgeMesh.vert
          HalfEdgeMesh.face HalfEdgeMesh.next E1].
        split; [reflexivity|]. split.
        { unfold HalfEdgeMesh.nextIn. replace (S (S n) <? n + 3)%nat with true
            by (symmetry; apply Nat.ltb_lt; lia). reflexivity. }
        split; [exact Hv1|].
        exists F, E2, E0. cbn [HalfEdgeMesh.next HalfEdgeMesh.face HalfEdgeMesh.edge HalfEdgeMesh.vert E0 E2 F].
        repeat split; auto.
      * assert (e = S (S n)) by lia. subst e. cbn [HalfEdgeMesh.e_id HalfEdgeMesh.e_nextLink HalfEdgeMesh.vert
          HalfEdgeMesh.face HalfEdgeMesh.next E2].
        split; [reflexivity|]. split.
        { unfold HalfEdgeMesh.nextIn. replace (S (S (S n)) <? n + 3)%nat with false
            by (symmetry; apply Nat.ltb_ge; lia). reflexivity. }
        split; [exact Hv2|].
        exists F, E0, E1. cbn [HalfEdgeMesh.next HalfEdgeMesh.face HalfEdgeMesh.edge HalfEdgeMesh.vert E0 E1 F].
        repeat split; auto.
  - (* faces *)
    intros i X' H. rewrite HlenF. unfold Fs' in H. apply grown_inv in H.
    destruct H as [[Hlt (X & HX & Hcase)]|[Hge H]].
    + destruct (Hf i X HX) as (Hid & Hnl & (E & HE & HfE)).
      destruct (HoldE _ _ HE) as (E' & HE' & _ & _ & HfE').
      assert (Hproj : HalfEdgeMesh.f_id X' = HalfEdgeMesh.f_id X /\ HalfEdgeMesh.edge X' = HalfEdgeMesh.edge X)
        by (destruct Hcase as [[_ ->]|[_ ->]]; split; reflexivity).
      destruct Hproj as (Pid & Pe). rewrite Pid, Pe.
      split; [exact Hid|]. split.
      { destruct Hcase as [[Hlast ->]|[Hmid ->]].
        - cbn. symmetry. apply nextIn_last; [exact Hlast|lia].
        - rewrite Hnl. symmetry. apply nextIn_grow. exact Hmid. }
      exists E'. split; [exact HE'|congruence].
    + apply one_more in H. destruct H as [Hk ->]. fold nf in Hk, Hge.
      assert (i = nf) by lia. subst i. cbn [HalfEdgeMesh.f_id HalfEdgeMesh.edge HalfEdgeMesh.f_nextLink F].
      split; [reflexivity|]. split.
      { rewrite Nat.add_1_r. symmetry. apply nextIn_end. }
      exists E0. split; [exact HnewE0|reflexivity].
  - (* lookup map *)
    intros k x. rewrite in_app_iff. split.
    + intros [Hin|Hin].
      * apply Hm in Hin. destruct Hin as [b Hb]. exists b.
        rewrite nth_error_app1 by (apply nth_error_Some; congruence). exact Hb.
      * cbn in Hin. fold n in Hin.
        destruct Hin as [Hin|[Hin|[Hin|[]]]]; injection Hin as <- <-; eauto.
    + intros [b Hb]. destruct (Nat.lt_ge_cases x (length D)) as [Hlt|Hge].
      * rewrite nth_error_app1 in Hb by exact Hlt. left. apply Hm. eauto.
      * rewrite nth_error_app2 in Hb by exact Hge. apply three_more in Hb. right.
        cbn. fold n.
        destruct Hb as [[Hk Hb]|[[Hk Hb]|[Hk Hb]]]; injection Hb as <- <-.
        -- left. f_equal. lia.
        -- right. left. f_equal. lia.
        -- right. right. left. f_equal. lia.
Qed.

End AddFaceFacts.

Section CallsFacts.

Variable normalize : Cv.Vec3d -> Cv.Vec3d.
Variable dot : Cv.Vec3d -> Cv.Vec3d -> float.
Variable acos : float -> float.

Lemma addFace_unconnected (v0 v1 v2 : nat) (m m' : HalfEdgeMesh.Mesh) (f : nat) :
  HalfEdgeMesh.unconnected m ->
  HalfEdgeMesh.addFace normalize dot acos v0 v1 v2 m = Some (m', f) ->
  HalfEdgeMesh.unconnected m'.
Proof.
  intros [Hp Hc]. unfold HalfEdgeMesh.addFace.
  destruct (nth_error (HalfEdgeMesh.verts_ m) v0) as [V0|]; [|discriminate].
  destruct (nth_error (HalfEdgeMesh.verts_ m) v1) as [V1|]; [|discriminate].
  destruct (nth_error (HalfEdgeMesh.verts_ m) v2) as [V2|]; [|discriminate].
  intro H. injection H as <- <-. split; cbn [HalfEdgeMesh.edges_ HalfEdgeMesh.faces_].
  - intros e E H. apply grown_inv in H.
    destruct H as [[_ (X & HX & [[_ ->]|[_ ->]])]|[_ H]].
    + cbn. now apply (Hp e).
    + now apply (Hp e).
    + apply three_more in H. destruct H as [[_ ->]|[[_ ->]|[_ ->]]]; reflexivity.
  - intros i F H. apply grown_inv in H.
    destruct H as [[_ (X & HX & [[_ ->]|[_ ->]])]|[_ H]].
    + cbn. now apply (Hc i).
    + now apply (Hc i).
    + apply one_more in H. destruct H as [_ ->]. reflexivity.
Qed.

Lemma calls_none (cs : list HalfEdgeMesh.Call) :
  fold_left (HalfEdgeMesh.call normalize dot acos) cs None = None.
Proof. induction cs as [|c cs IH]; [reflexivity|exact IH]. Qed.

Lemma calls_from (cs : list HalfEdgeMesh.Call) (m0 m : HalfEdgeMesh.Mesh) (D0 : list (nat * nat)) :
  HalfEdgeMesh.wellFormed m0 D0 -> HalfEdgeMesh.unconnected m0 ->
  fold_left (HalfEdgeMesh.call normalize dot acos) cs (Some m0) = Some m ->
  HalfEdgeMesh.wellFormed m (D0 ++ HalfEdgeMesh.directedEdges cs) /\ HalfEdgeMesh.unconnected m.
Proof.
  revert m0 D0. induction cs as [|c cs IH]; intros m0 D0 Hwf Hun H.
  - cbn in H. injection H as <-. cbn. rewrite app_nil_r. now split.
  - cbn [fold_left] in H. destruct c as [x y z|v0 v1 v2].
    + cbn [HalfEdgeMesh.call] in H. cbn [HalfEdgeMesh.directedEdges flat_map app].
      apply (IH _ D0) in H; [exact H| |].
      * now apply addVert_wellFormed.
      * exact Hun.
    + cbn [HalfEdgeMesh.call] in H.
      destruct (HalfEdgeMesh.addFace normalize dot acos v0 v1 v2 m0) as [[m1 f]|] eqn:E.
      * cbn [option_map fst] in H.
        apply (IH _ (D0 ++ [(v0, v1); (v1, v2); (v2, v0)])) in H.
        -- cbn [HalfEdgeMesh.directedEdges flat_map]. rewrite <- app_assoc in H. exact H.
        -- now apply (addFace_wellFormed normalize dot acos v0 v1 v2 m0 m1 f).
        -- now apply (addFace_unconnected v0 v1 v2 m0 m1 f).
      * cbn [option_map] in H. rewrite calls_none in H. discriminate H.
Qed.

Lemma empty_wellFormed : HalfEdgeMesh.wellFormed HalfEdgeMesh.empty [].
Proof.
  unfold HalfEdgeMesh.wellFormed, HalfEdgeMesh.empty. cbn [HalfEdgeMesh.verts_ HalfEdgeMesh.edges_ HalfEdgeMesh.faces_ HalfEdgeMesh.pairLookupMap_].
  split; [intros [|?] ? H; discriminate H|].
  split; [reflexivity|]. split; [reflexivity|].
  split; [intros [|?] ? H; discriminate H|].
  split; [intros [|?] ? H; discriminate H|].
  intros k x. split; [intros []|].
  intros [b H]. destruct x; discriminate H.
Qed.

Lemma calls_wellFormed (cs : list HalfEdgeMesh.Call) (m : HalfEdgeMesh.Mesh) :
  HalfEdgeMesh.calls normalize dot acos cs = Some m ->
  HalfEdgeMesh.wellFormed m (HalfEdgeMesh.directedEdges cs) /\ HalfEdgeMesh.unconnected m.
Proof.
  intro H. apply (calls_from cs HalfEdgeMesh.empty m []) in H; [exact H|apply empty_wellFormed|].
  split; intros [|?] ? H'; discriminate H'.
Qed.

End CallsFacts.

Lemma sameShape_refl (m : HalfEdgeMesh.Mesh) : HalfEdgeMesh.sameShape m m.
Proof. repeat split. Qed.

Lemma sameShape_trans (m1 m2 m3 : HalfEdgeMesh.Mesh) :
  HalfEdgeMesh.sameShape m1 m2 -> HalfEdgeMesh.sameShape m2 m3 -> HalfEdgeMesh.sameShape m1 m3.
Proof.
  intros (A1 & A2 & A3 & A4) (B1 & B2 & B3 & B4).
  repeat split; congruence.
Qed.

Lemma map_update_same {A B : Type} (g : A -> B) (f : A -> A) (l : list A) (i : nat) :
  (forall a, g (f a) = g a) -> map g (HalfEdgeMesh.update l i f) = map g l.
Proof.
  intro H. revert i. induction l as [|a l IH]; intros [|i]; cbn; auto.
  - now rewrite H.
  - now rewrite IH.
Qed.

Lemma same_nth {A B : Type} (g : A -> B) (l l' : list A) (i : nat) (X' : A) :
  map g l' = map g l -> nth_error l' i = Some X' ->
  exists X, nth_error l i = Some X /\ g X = g X'.
Proof.
  intros Hmap H. apply (map_nth_error g) in H. rewrite Hmap in H.
  rewrite nth_error_map in H. destruct (nth_error l i) as [X|]; [|discriminate H].
  exists X. split; [reflexivity|]. now injection H.
Qed.

Lemma same_length {A B : Type} (g : A -> B) (l l' : list A) :
  map g l' = map g l -> length l' = length l.
Proof. intro H. apply (f_equal (@length B)) in H. now rewrite !length_map in H. Qed.

Lemma wellFormed_same (m m' : HalfEdgeMesh.Mesh) (D : list (nat * nat)) :
  HalfEdgeMesh.wellFormed m D -> HalfEdgeMesh.sameShape m m' -> HalfEdgeMesh.wellFormed m' D.
Proof.
  intros (Hv & Hle & Hlf & He & Hf & Hm) (Sv & Se & Sf & Sm).
  pose proof (same_length _ _ _ Sv) as Lv.
  pose proof (same_length _ _ _ Se) as Le.
  pose proof (same_length _ _ _ Sf) as Lf.
  assert (Te : forall i X, nth_error (HalfEdgeMesh.edges_ m) i = Some X ->
            exists X', nth_error (HalfEdgeMesh.edges_ m') i = Some X'
                       /\ HalfEdgeMesh.setEdgePair None X' = HalfEdgeMesh.setEdgePair None X).
  { intros i X HX. destruct (same_nth _ _ _ i X (eq_sym Se) HX) as (X' & HX' & Hg).
    exists X'. split; [exact HX'|exact Hg]. }
  assert (Tf : forall i X, nth_error (HalfEdgeMesh.faces_ m) i = Some X ->
            exists X', nth_error (HalfEdgeMesh.faces_ m') i = Some X'
                       /\ HalfEdgeMesh.setFaceConnected false X' = HalfEdgeMesh.setFaceConnected false X).
  { intros i X HX. destruct (same_nth _ _ _ i X (eq_sym Sf) HX) as (X' & HX' & Hg).
    exists X'. split; [exact HX'|exact Hg]. }
  unfold HalfEdgeMesh.wellFormed. rewrite Lv, Le, Lf, Sm.
  split; [|split; [exact Hle|split; [exact Hlf|split; [|split; [|exact Hm]]]]].
  - intros i V' H. destruct (same_nth _ _ _ i V' Sv H) as (V & HV & Hg).
    destruct (Hv i V HV) as [Hid Hn].
    apply (f_equal HalfEdgeMesh.v_id) in Hg as Gid. apply (f_equal HalfEdgeMesh.v_nextLink) in Hg as Gn.
    cbn in Gid, Gn. split; congruence.
  - intros e E' H. destruct (same_nth _ _ _ e E' Se H) as (E & HE & Hg).
    destruct (He e E HE) as (Hid & Hnl & Hvert & (F & E1 & E2 & HF & HE1 & HE2
                               & Hcyc & Hf1 & Hf2 & Hedge & HD)).
    destruct (Tf _ _ HF) as (F' & HF' & GF).
    destruct (Te _ _ HE1) as (E1' & HE1' & G1).
    destruct (Te _ _ HE2) as (E2' & HE2' & G2).
    apply (f_equal HalfEdgeMesh.e_id) in Hg as Gid. apply (f_equal HalfEdgeMesh.e_nextLink) in Hg as Gnl.
    apply (f_equal HalfEdgeMesh.vert) in Hg as Gv. apply (f_equal HalfEdgeMesh.next) in Hg as Gn.
    apply (f_equal HalfEdgeMesh.face) in Hg as Gf.
    apply (f_equal HalfEdgeMesh.vert) in G1 as G1v. apply (f_equal HalfEdgeMesh.next) in G1 as G1n.
    apply (f_equal HalfEdgeMesh.face) in G1 as G1f.
    apply (f_equal HalfEdgeMesh.next) in G2 as G2n. apply (f_equal HalfEdgeMesh.face) in G2 as G2f.
    apply (f_equal HalfEdgeMesh.edge) in GF as GFe.
    cbn in Gid, Gnl, Gv, Gn, Gf, G1v, G1n, G1f, G2n, G2f, GFe.
    rewrite <- Gid, <- Gnl, <- Gv, <- Gn, <- Gf.
    split; [exact Hid|]. split; [exact Hnl|]. split; [exact Hvert|].
    exists F', E1', E2'. rewrite G1n, G1f, G2n, G2f, G1v, GFe.
    repeat split; assumption.
  - intros f F' H. destruct (same_nth _ _ _ f F' Sf H) as (F & HF & Hg).
    destruct (Hf f F HF) as (Hid & Hnl & (E & HE & HfE)).
    destruct (Te _ _ HE) as (E' & HE' & GE).
    apply (f_equal HalfEdgeMesh.f_id) in Hg as Gid. apply (f_equal HalfEdgeMesh.f_nextLink) in Hg as Gnl.
    apply (f_equal HalfEdgeMesh.edge) in Hg as Ge. apply (f_equal HalfEdgeMesh.face) in GE as GEf.
    cbn in Gid, Gnl, Ge, GEf. rewrite <- Gid, <- Gnl, <- Ge.
    split; [exact Hid|]. split; [exact Hnl|]. exists E'. split; [exact HE'|congruence].
Qed.

Lemma setPair_same (e : nat) (p : option nat) (m : HalfEdgeMesh.Mesh) : HalfEdgeMesh.sameShape m (HalfEdgeMesh.setPair e p m).
Proof.
  unfold HalfEdgeMesh.sameShape, HalfEdgeMesh.setPair. cbn. repeat split.
  apply map_update_same. intros []; reflexivity.
Qed.

Lemma connectEdge_same (e n : nat) (m : HalfEdgeMesh.Mesh) : HalfEdgeMesh.sameShape m (HalfEdgeMesh.connectEdge e n m).
Proof.
  unfold HalfEdgeMesh.connectEdge.
  destruct (nth_error (HalfEdgeMesh.edges_ m) e) as [E|]; [|apply sameShape_refl].
  destruct (nth_error (HalfEdgeMesh.edges_ m) n) as [N|]; [|apply sameShape_refl].
  destruct (HalfEdgeMesh.pair E); [apply sameShape_refl|].
  destruct (HalfEdgeMesh.find_edge_pair_ m (HalfEdgeMesh.vert E) (HalfEdgeMesh.vert N)) as [p|].
  - eapply sameShape_trans; apply setPair_same.
  - unfold HalfEdgeMesh.sameShape. cbn. repeat split.
    apply map_update_same. intros []; reflexivity.
Qed.

Lemma connectFace_same (f : nat) (m : HalfEdgeMesh.Mesh) : HalfEdgeMesh.sameShape m (HalfEdgeMesh.connectFace f m).
Proof.
  unfold HalfEdgeMesh.connectFace.
  destruct (nth_error (HalfEdgeMesh.faces_ m) f) as [F|]; [|apply sameShape_refl].
  destruct (HalfEdgeMesh.connected F); [apply sameShape_refl|].
  destruct (nth_error (HalfEdgeMesh.edges_ m) (HalfEdgeMesh.edge F)) as [E0|]; [|apply sameShape_refl].
  destruct (nth_error (HalfEdgeMesh.edges_ m) (HalfEdgeMesh.next E0)) as [E1|]; [|apply sameShape_refl].
  set (m1 := HalfEdgeMesh.connectEdge (HalfEdgeMesh.edge F) (HalfEdgeMesh.next E0) m).
  set (m2 := HalfEdgeMesh.connectEdge (HalfEdgeMesh.next E0) (HalfEdgeMesh.next E1) m1).
  set (m3 := HalfEdgeMesh.connectEdge (HalfEdgeMesh.next E1) (HalfEdgeMesh.edge F) m2).
  assert (S3 : HalfEdgeMesh.sameShape m m3).
  { eapply sameShape_trans; [|apply connectEdge_same].
    eapply sameShape_trans; [|apply connectEdge_same]. apply connectEdge_same. }
  destruct S3 as (A1 & A2 & A3 & A4). unfold HalfEdgeMesh.sameShape. cbn. repeat split; auto.
  rewrite <- A3. apply map_update_same. intros []; reflexivity.
Qed.

Lemma edge_of_D (m : HalfEdgeMesh.Mesh) (D : list (nat * nat)) (x k b : nat) :
  HalfEdgeMesh.wellFormed m D -> nth_error D x = Some (k, b) ->
  exists E N, nth_error (HalfEdgeMesh.edges_ m) x = Some E
              /\ nth_error (HalfEdgeMesh.edges_ m) (HalfEdgeMesh.next E) = Some N
              /\ HalfEdgeMesh.vert E = k /\ HalfEdgeMesh.vert N = b.
Proof.
  intros (Hv & Hle & Hlf & He & Hf & Hm) HD.
  assert (Hlt : (x < length (HalfEdgeMesh.edges_ m))%nat)
    by (rewrite Hle; apply nth_error_Some; congruence).
  destruct (nth_error (HalfEdgeMesh.edges_ m) x) as [E|] eqn:HE;
    [|apply nth_error_None in HE; lia].
  destruct (He x E HE) as (_ & _ & _ & (F & E1 & E2 & _ & HE1 & _ & _ & _ & _ & _ & HDx)).
  rewrite HD in HDx. injection HDx as -> ->. exists E, E1. repeat split; auto.
Qed.

Lemma ends_of_D (m : HalfEdgeMesh.Mesh) (D : list (nat * nat)) (x k b : nat) :
  HalfEdgeMesh.wellFormed m D -> nth_error D x = Some (k, b) ->
  HalfEdgeMesh.startOf m x = Some k /\ HalfEdgeMesh.endOf m x = Some b.
Proof.
  intros Hwf HD. destruct (edge_of_D m D x k b Hwf HD) as (E & N & HE & HN & <- & <-).
  unfold HalfEdgeMesh.startOf, HalfEdgeMesh.endOf. rewrite HE. cbn. rewrite HN. split; reflexivity.
Qed.

Lemma find_edge_pair_spec (m : HalfEdgeMesh.Mesh) (D : list (nat * nat)) (a b : nat) :
  HalfEdgeMesh.wellFormed m D ->
  match HalfEdgeMesh.find_edge_pair_ m a b with
  | Some p => nth_error D p = Some (b, a)
  | None => ~ In (b, a) D
  end.
Proof.
  intro Hwf. pose proof Hwf as (_ & _ & _ & _ & _ & Hm). unfold HalfEdgeMesh.find_edge_pair_.
  destruct (find _ (HalfEdgeMesh.pairLookupMap_ m)) as [[k x]|] eqn:Hfind; cbn [option_map snd].
  - apply find_some in Hfind. destruct Hfind as [Hin Hpred]. cbn [fst snd] in Hpred.
    apply andb_true_iff in Hpred. destruct Hpred as [Hk Hend].
    apply Nat.eqb_eq in Hk. subst k. apply Hm in Hin. destruct Hin as [b' HD].
    destruct (ends_of_D m D x b b' Hwf HD) as [_ Hend']. rewrite Hend' in Hend.
    apply Nat.eqb_eq in Hend. now subst b'.
  - intro Hin. apply In_nth_error in Hin. destruct Hin as [x HD].
    assert (Hmap : In (b, x) (HalfEdgeMesh.pairLookupMap_ m)) by (apply Hm; eauto).
    pose proof (find_none _ _ Hfind _ Hmap) as Hpred. cbn [fst snd] in Hpred.
    destruct (ends_of_D m D x b a Hwf HD) as [_ Hend]. rewrite Hend in Hpred.
    now rewrite !Nat.eqb_refl in Hpred.
Qed.

Lemma pairOf_setPair (e : nat) (p : option nat) (m : HalfEdgeMesh.Mesh) (x : nat) :
  HalfEdgeMesh.pairOf (HalfEdgeMesh.setPair e p m) x
  = if Nat.eqb x e
    then match nth_error (HalfEdgeMesh.edges_ m) x with Some _ => p | None => None end
    else HalfEdgeMesh.pairOf m x.
Proof.
  unfold HalfEdgeMesh.pairOf, HalfEdgeMesh.setPair. cbn [HalfEdgeMesh.edges_]. rewrite nth_error_update.
  destruct (Nat.eqb x e); [|reflexivity].
  destruct (nth_error (HalfEdgeMesh.edges_ m) x); reflexivity.
Qed.

Lemma pairOf_edge (m : HalfEdgeMesh.Mesh) (e : nat) (E : HalfEdgeMesh.Edge) :
  nth_error (HalfEdgeMesh.edges_ m) e = Some E -> HalfEdgeMesh.pairOf m e = HalfEdgeMesh.pair E.
Proof. intro H. unfold HalfEdgeMesh.pairOf. now rewrite H. Qed.

Section ConnectEdgeFacts.

Variable D : list (nat * nat).
Hypothesis distinct : NoDup D.

Lemma connectEdge_spec (m : HalfEdgeMesh.Mesh) (e n : nat) (E : HalfEdgeMesh.Edge) :
  HalfEdgeMesh.wellFormed m D -> HalfEdgeMesh.paired m D ->
  nth_error (HalfEdgeMesh.edges_ m) e = Some E -> n = HalfEdgeMesh.next E ->
  let m' := HalfEdgeMesh.connectEdge e n m in
  HalfEdgeMesh.paired m' D /\ HalfEdgeMesh.keepsPairs m m' /\ HalfEdgeMesh.settled m' D e /\ HalfEdgeMesh.faces_ m' = HalfEdgeMesh.faces_ m.
Proof.
  intros Hwf Hp HE -> m'. subst m'.
  pose proof Hwf as (_ & Hle & _ & He & _ & _).
  destruct (He e E HE) as (_ & _ & _ & (F & E1 & E2 & _ & HE1 & _ & _ & _ & _ & _ & HDe)).
  unfold HalfEdgeMesh.connectEdge. rewrite HE, HE1.
  destruct (HalfEdgeMesh.pair E) as [q|] eqn:Hq.
  - (* already HalfEdgeMesh.paired *)
    split; [exact Hp|]. split; [intros x Hx; exact Hx|]. split; [|reflexivity].
    intro Hnone. rewrite (pairOf_edge m e E HE), Hq in Hnone. discriminate Hnone.
  - pose proof (find_edge_pair_spec m D (HalfEdgeMesh.vert E) (HalfEdgeMesh.vert E1) Hwf) as Hfind.
    destruct (HalfEdgeMesh.find_edge_pair_ m (HalfEdgeMesh.vert E) (HalfEdgeMesh.vert E1)) as [p|].
    + (* a pair is found *)
      assert (Hpe : HalfEdgeMesh.pairOf m e = None) by (now rewrite (pairOf_edge m e E HE)).
      destruct (edge_of_D m D p _ _ Hwf Hfind) as (P & _ & HP & _).
      assert (Hpp : HalfEdgeMesh.pairOf m p = None).
      { destruct (HalfEdgeMesh.pairOf m p) as [q|] eqn:Hq'; [exfalso|reflexivity].
        destruct (Hp p q Hq') as [Hback (a & b & Hpa & Hqa)].
        rewrite Hfind in Hpa. injection Hpa as <- <-.
        assert (q = e).
        { apply (proj1 (NoDup_nth_error D) distinct).
          - apply nth_error_Some. congruence.
          - congruence. }
        subst q. congruence. }
      assert (Hnew : forall x,
                 HalfEdgeMesh.pairOf (HalfEdgeMesh.setPair p (Some e) (HalfEdgeMesh.setPair e (Some p) m)) x
                 = if Nat.eqb x p then Some e
                   else if Nat.eqb x e then Some p else HalfEdgeMesh.pairOf m x).
      { intro x. rewrite pairOf_setPair. cbn [HalfEdgeMesh.setPair HalfEdgeMesh.edges_].
        rewrite nth_error_update.
        destruct (Nat.eqb x p) eqn:Exp.
        - apply Nat.eqb_eq in Exp. subst x. rewrite HP.
          destruct (Nat.eqb p e); reflexivity.
        - rewrite pairOf_setPair. destruct (Nat.eqb x e) eqn:Exe; [|reflexivity].
          apply Nat.eqb_eq in Exe. subst x. now rewrite HE. }
      split; [|split; [|split; [|reflexivity]]].
      * intros x y Hxy. rewrite Hnew in Hxy. rewrite Hnew.
        destruct (Nat.eqb x p) eqn:Exp.
        -- apply Nat.eqb_eq in Exp. subst x. injection Hxy as <-.
           destruct (Nat.eqb e p) eqn:Eep.
           ++ apply Nat.eqb_eq in Eep. subst p. split; [reflexivity|].
              exists (HalfEdgeMesh.vert E1), (HalfEdgeMesh.vert E). split; congruence.
           ++ rewrite Nat.eqb_refl. split; [reflexivity|].
              exists (HalfEdgeMesh.vert E1), (HalfEdgeMesh.vert E). split; congruence.
        -- destruct (Nat.eqb x e) eqn:Exe.
           ++ apply Nat.eqb_eq in Exe. subst x. injection Hxy as <-.
              rewrite Nat.eqb_refl. split; [reflexivity|].
              exists (HalfEdgeMesh.vert E), (HalfEdgeMesh.vert E1). split; congruence.
           ++ destruct (Hp x y Hxy) as [Hback Hswap].
              apply Nat.eqb_neq in Exp, Exe.
              replace (Nat.eqb y p) with false
                by (symmetry; apply Nat.eqb_neq; intro; subst y; congruence).
              replace (Nat.eqb y e) with false
                by (symmetry; apply Nat.eqb_neq; intro; subst y; congruence).
              split; [exact Hback|exact Hswap].
      * intros x Hx. rewrite Hnew.
        destruct (Nat.eqb x p); [discriminate|]. destruct (Nat.eqb x e); [discriminate|].
        exact Hx.
      * intro Hnone. rewrite Hnew in Hnone. rewrite Nat.eqb_refl in Hnone.
        destruct (Nat.eqb e p); discriminate Hnone.
    + (* no pair *)
      assert (Hsame : forall x,
                 HalfEdgeMesh.pairOf (HalfEdgeMesh.mkMesh (HalfEdgeMesh.update (HalfEdgeMesh.verts_ m) (HalfEdgeMesh.vert E)
                                         (HalfEdgeMesh.setVertEdge (Some e)))
                                      (HalfEdgeMesh.edges_ m) (HalfEdgeMesh.faces_ m) (HalfEdgeMesh.pairLookupMap_ m)) x
                 = HalfEdgeMesh.pairOf m x) by reflexivity.
      split; [|split; [|split; [|reflexivity]]].
      * intros x y Hxy. rewrite Hsame in *. now apply Hp.
      * intros x Hx. now rewrite Hsame.
      * intros _ a b HD. rewrite HDe in HD. injection HD as <- <-. exact Hfind.
Qed.

End ConnectEdgeFacts.

Lemma settled_keeps (D : list (nat * nat)) (m m' : HalfEdgeMesh.Mesh) (e : nat) :
  HalfEdgeMesh.keepsPairs m m' -> HalfEdgeMesh.settled m D e -> HalfEdgeMesh.settled m' D e.
Proof.
  intros Hk Hs Hnone. apply Hs.
  destruct (HalfEdgeMesh.pairOf m e) eqn:E; [|reflexivity].
  exfalso. apply (Hk e); [congruence|exact Hnone].
Qed.

Lemma keepsPairs_trans (m1 m2 m3 : HalfEdgeMesh.Mesh) :
  HalfEdgeMesh.keepsPairs m1 m2 -> HalfEdgeMesh.keepsPairs m2 m3 -> HalfEdgeMesh.keepsPairs m1 m3.
Proof. intros H1 H2 e He. apply H2, H1, He. Qed.

Lemma same_edge (m m' : HalfEdgeMesh.Mesh) (e : nat) (E : HalfEdgeMesh.Edge) :
  HalfEdgeMesh.sameShape m m' -> nth_error (HalfEdgeMesh.edges_ m) e = Some E ->
  exists E', nth_error (HalfEdgeMesh.edges_ m') e = Some E'
             /\ HalfEdgeMesh.next E' = HalfEdgeMesh.next E /\ HalfEdgeMesh.face E' = HalfEdgeMesh.face E.
Proof.
  intros (_ & Se & _ & _) HE.
  destruct (same_nth _ _ _ e E (eq_sym Se) HE) as (E' & HE' & Hg).
  exists E'. split; [exact HE'|].
  apply (f_equal HalfEdgeMesh.next) in Hg as Gn. apply (f_equal HalfEdgeMesh.face) in Hg as Gf.
  cbn in Gn, Gf. now split.
Qed.

Lemma sameShape_sym (m m' : HalfEdgeMesh.Mesh) : HalfEdgeMesh.sameShape m m' -> HalfEdgeMesh.sameShape m' m.
Proof. intros (A & B & C & E). repeat split; congruence. Qed.

Section LoopFacts.

Variable D : list (nat * nat).
Hypothesis distinct : NoDup D.

Lemma connectFace_step (m : HalfEdgeMesh.Mesh) (k : nat) :
  HalfEdgeMesh.connecting D m k -> (k < length (HalfEdgeMesh.faces_ m))%nat ->
  HalfEdgeMesh.connecting D (HalfEdgeMesh.connectFace k m) (S k)
  /\ exists F', nth_error (HalfEdgeMesh.faces_ (HalfEdgeMesh.connectFace k m)) k = Some F'
                /\ HalfEdgeMesh.f_nextLink F' = HalfEdgeMesh.nextIn (length (HalfEdgeMesh.faces_ m)) k.
Proof.
  intros (Hwf & Hp & Hc & Hs) Hk.
  pose proof (connectFace_same k m) as Hsame.
  pose proof (wellFormed_same m _ D Hwf Hsame) as Hwf'.
  pose proof Hwf as (_ & _ & _ & He & Hf & _).
  destruct (nth_error (HalfEdgeMesh.faces_ m) k) as [F|] eqn:HF; [|apply nth_error_None in HF; lia].
  pose proof (Hc k F (le_n k) HF) as HcF.
  destruct (Hf k F HF) as (_ & HnlF & (E0 & HE0 & HfE0)).
  destruct (He _ E0 HE0) as (_ & _ & _ & (F0 & E1 & E2 & _ & HE1 & HE2 & Hcyc & Hf1 & Hf2
                               & _ & _)).
  (* the three steps *)
  set (e0 := HalfEdgeMesh.edge F) in *. set (e1 := HalfEdgeMesh.next E0) in *. set (e2 := HalfEdgeMesh.next E1) in *.
  set (m1 := HalfEdgeMesh.connectEdge e0 e1 m).
  destruct (connectEdge_spec D distinct m e0 e1 E0 Hwf Hp HE0 eq_refl)
    as (Hp1 & Hk1 & Hs1 & Hfa1). fold m1 in Hp1, Hk1, Hs1, Hfa1.
  pose proof (connectEdge_same e0 e1 m) as Sh1. fold m1 in Sh1.
  pose proof (wellFormed_same m m1 D Hwf Sh1) as Hwf1.
  destruct (same_edge m m1 e1 E1 Sh1 HE1) as (E1' & HE1' & Hn1 & _).
  set (m2 := HalfEdgeMesh.connectEdge e1 e2 m1).
  destruct (connectEdge_spec D distinct m1 e1 e2 E1' Hwf1 Hp1 HE1' (eq_sym Hn1))
    as (Hp2 & Hk2 & Hs2 & Hfa2). fold m2 in Hp2, Hk2, Hs2, Hfa2.
  pose proof (connectEdge_same e1 e2 m1) as Sh2. fold m2 in Sh2.
  pose proof (wellFormed_same m1 m2 D Hwf1 Sh2) as Hwf2.
  destruct (same_edge m m2 e2 E2 (sameShape_trans _ _ _ Sh1 Sh2) HE2)
    as (E2' & HE2' & Hn2 & _).
  set (m3 := HalfEdgeMesh.connectEdge e2 e0 m2).
  assert (Hn2' : e0 = HalfEdgeMesh.next E2') by congruence.
  destruct (connectEdge_spec D distinct m2 e2 e0 E2' Hwf2 Hp2 HE2' Hn2')
    as (Hp3 & Hk3 & Hs3 & Hfa3). fold m3 in Hp3, Hk3, Hs3, Hfa3.
  (* the mesh after the body *)
  assert (Hbody : HalfEdgeMesh.connectFace k m
                  = HalfEdgeMesh.mkMesh (HalfEdgeMesh.verts_ m3) (HalfEdgeMesh.edges_ m3)
                      (HalfEdgeMesh.update (HalfEdgeMesh.faces_ m3) k (HalfEdgeMesh.setFaceConnected true))
                      (HalfEdgeMesh.pairLookupMap_ m3)).
  { unfold HalfEdgeMesh.connectFace. rewrite HF, HcF. fold e0. rewrite HE0. fold e1. rewrite HE1.
    reflexivity. }
  assert (Hfaces : HalfEdgeMesh.faces_ m3 = HalfEdgeMesh.faces_ m) by congruence.
  assert (Hpair : forall x, HalfEdgeMesh.pairOf (HalfEdgeMesh.connectFace k m) x = HalfEdgeMesh.pairOf m3 x)
    by (intro x; rewrite Hbody; reflexivity).
  assert (Hk13 : HalfEdgeMesh.keepsPairs m m3)
    by (eapply keepsPairs_trans; [exact Hk1|]; eapply keepsPairs_trans; eassumption).
  split.
  - split; [exact Hwf'|]. split; [|split].
    + intros x y Hxy. rewrite Hpair in *. now apply Hp3.
    + intros f X Hle HX. rewrite Hbody in HX. cbn [HalfEdgeMesh.faces_] in HX.
      rewrite nth_error_update in HX.
      replace (Nat.eqb f k) with false in HX by (symmetry; apply Nat.eqb_neq; lia).
      rewrite Hfaces in HX. apply (Hc f X); [lia|exact HX].
    + intros e E' HE' Hface.
      destruct (same_edge _ m e E' (sameShape_sym _ _ Hsame) HE') as (E & HE & _ & HfE).
      assert (Hset3 : HalfEdgeMesh.settled m3 D e).
      { destruct (Nat.lt_ge_cases (HalfEdgeMesh.face E) k) as [Hlt|Hge].
        - apply (settled_keeps D m m3 e Hk13). now apply (Hs e E).
        - assert (Hfk : HalfEdgeMesh.face E = k) by lia.
          destruct (He e E HE) as (_ & _ & _ & (Fx & X1 & X2 & HFx & HX1 & HX2 & Hcx & _ & _
                                       & Hedge & _)).
          rewrite Hfk, HF in HFx. injection HFx as <-. fold e0 in Hedge.
          destruct Hedge as [Hedge|[Hedge|Hedge]].
          + rewrite <- Hedge. apply (settled_keeps D m1 m3 e0); [|exact Hs1].
            eapply keepsPairs_trans; eassumption.
          + assert (HX : E0 = X1) by (rewrite Hedge in HE0; congruence).
            rewrite <- HX in HX2. fold e1 in HX2.
            assert (HY : E1 = X2) by congruence.
            rewrite <- Hcx, <- HY. exact Hs3.
          + assert (HX : E0 = X2) by (rewrite Hedge in HE0; congruence).
            rewrite <- Hcx, <- HX. apply (settled_keeps D m2 m3 e1 Hk3 Hs2). }
      intros Hnone. apply Hset3. now rewrite <- Hpair.
  - rewrite Hbody. cbn [HalfEdgeMesh.faces_]. rewrite nth_error_update, Nat.eqb_refl, Hfaces, HF.
    eexists. split; [reflexivity|]. exact HnlF.
Qed.

Lemma connectLoop_runs (fuel : nat) (m : HalfEdgeMesh.Mesh) (k : nat) :
  HalfEdgeMesh.connecting D m k -> (k + fuel = length (HalfEdgeMesh.faces_ m))%nat -> (0 < fuel)%nat ->
  exists m', HalfEdgeMesh.connectLoop fuel (Some k) m = Some m'
             /\ HalfEdgeMesh.connecting D m' (length (HalfEdgeMesh.faces_ m))
             /\ HalfEdgeMesh.sameShape m m'.
Proof.
  revert m k. induction fuel as [|fuel IH]; intros m k Hinv Hsum Hpos; [lia|].
  cbn [HalfEdgeMesh.connectLoop].
  destruct (connectFace_step m k Hinv ltac:(lia)) as (Hinv' & F' & HF' & Hnl).
  rewrite HF', Hnl.
  pose proof (connectFace_same k m) as Hsame.
  assert (Hlen : length (HalfEdgeMesh.faces_ (HalfEdgeMesh.connectFace k m)) = length (HalfEdgeMesh.faces_ m))
    by (destruct Hsame as (_ & _ & Sf & _); exact (same_length _ _ _ Sf)).
  unfold HalfEdgeMesh.nextIn. destruct (S k <? length (HalfEdgeMesh.faces_ m))%nat eqn:E.
  - apply Nat.ltb_lt in E.
    destruct (IH (HalfEdgeMesh.connectFace k m) (S k) Hinv' ltac:(lia) ltac:(lia))
      as (m' & Hrun & Hfin & Hsh).
    exists m'. rewrite Hlen in Hfin. split; [exact Hrun|]. split; [exact Hfin|].
    eapply sameShape_trans; eassumption.
  - apply Nat.ltb_ge in E. assert (S k = length (HalfEdgeMesh.faces_ m)) by lia.
    exists (HalfEdgeMesh.connectFace k m). destruct fuel; cbn [HalfEdgeMesh.connectLoop];
      (split; [reflexivity|]); (split; [congruence|exact Hsame]).
Qed.

End LoopFacts.



Section AngleFacts.

Variable normalize : Cv.Vec3d -> Cv.Vec3d.
Variable dot : Cv.Vec3d -> Cv.Vec3d -> float.
Variable acos : float -> float.

Lemma addFace_clamped (v0 v1 v2 : nat) (m m' : HalfEdgeMesh.Mesh) (f : nat) :
  HalfEdgeMesh.anglesClamped m -> HalfEdgeMesh.addFace normalize dot acos v0 v1 v2 m = Some (m', f) -> HalfEdgeMesh.anglesClamped m'.
Proof.
  intros Hok. unfold HalfEdgeMesh.addFace.
  destruct (nth_error (HalfEdgeMesh.verts_ m) v0) as [V0|]; [|discriminate].
  destruct (nth_error (HalfEdgeMesh.verts_ m) v1) as [V1|]; [|discriminate].
  destruct (nth_error (HalfEdgeMesh.verts_ m) v2) as [V2|]; [|discriminate].
  intro H. injection H as <- <-. intros e E H. cbn [HalfEdgeMesh.edges_] in H.
  apply grown_inv in H. destruct H as [[_ (X & HX & [[_ ->]|[_ ->]])]|[_ H]].
  - cbn. now apply (Hok e).
  - now apply (Hok e).
  - apply three_more in H. destruct H as [[_ ->]|[[_ ->]|[_ ->]]];
      cbn [HalfEdgeMesh.angle]; apply newAngle_clamped.
Qed.

Lemma calls_clamped_from (cs : list HalfEdgeMesh.Call) (m0 m : HalfEdgeMesh.Mesh) :
  HalfEdgeMesh.anglesClamped m0 -> fold_left (HalfEdgeMesh.call normalize dot acos) cs (Some m0) = Some m -> HalfEdgeMesh.anglesClamped m.
Proof.
  revert m0. induction cs as [|c cs IH]; intros m0 Hok H.
  - cbn in H. now injection H as <-.
  - cbn [fold_left] in H. destruct c as [x y z|v0 v1 v2]; cbn [HalfEdgeMesh.call] in H.
    + apply (IH (fst (HalfEdgeMesh.addVert x y z m0))); [exact Hok|exact H].
    + destruct (HalfEdgeMesh.addFace normalize dot acos v0 v1 v2 m0) as [[m1 f]|] eqn:E.
      * cbn [option_map fst] in H. apply (IH m1); [|exact H].
        now apply (addFace_clamped v0 v1 v2 m0 m1 f).
      * cbn [option_map] in H. rewrite calls_none in H. discriminate H.
Qed.

Lemma calls_clamped (cs : list HalfEdgeMesh.Call) (m : HalfEdgeMesh.Mesh) :
  HalfEdgeMesh.calls normalize dot acos cs = Some m -> HalfEdgeMesh.anglesClamped m.
Proof.
  apply calls_clamped_from. intros [|e] E H; discriminate H.
Qed.

End AngleFacts.

(** X19.  After any sequence of [addVert] and [addFace] calls on an
    empty mesh that reads no vertex that does not exist: the id of every
    vertex, edge and face is its position in its vector; the [nextLink]
    chains run through the vectors in order and end at the last element;
    there are three edges for every face; every edge starts at a vertex of
    the mesh and lies on a cycle of three edges along [next], all of the same
    face, one of them the edge of that face; the edge of a face belongs to
    that face; the lookup map holds every edge exactly under the vertex it
    starts at; and no edge has a pair, no face is marked connected. *)
Theorem calls_build_a_well_formed_mesh :
  forall (normalize : Cv.Vec3d -> Cv.Vec3d) (dot : Cv.Vec3d -> Cv.Vec3d -> float)
         (acos : float -> float)
         (cs : list HalfEdgeMesh.Call) (m : HalfEdgeMesh.Mesh),
    HalfEdgeMesh.calls normalize dot acos cs = Some m ->
    HalfEdgeMesh.wellFormed m (HalfEdgeMesh.directedEdges cs) /\ HalfEdgeMesh.unconnected m.
Proof. intros normalize dot acos cs m. apply calls_wellFormed. Qed.

Lemma calls_build_a_well_formed_mesh_witness :
  HalfEdgeMesh.wellFormed Inputs.meshOfTwo (HalfEdgeMesh.directedEdges Inputs.twoTriangles)
  /\ HalfEdgeMesh.unconnected Inputs.meshOfTwo.
Proof.
  apply (calls_build_a_well_formed_mesh Inputs.unscaledd Inputs.dotOf Inputs.acosStub
           Inputs.twoTriangles Inputs.meshOfTwo).
  vm_compute. reflexivity.
Defined.

(** X20.  Every angle that [addFace] stores is either a NaN, which the
    clamping leaves as it is, or a double between MINANGLE = M_PI / 180 and
    MAXANGLE = M_PI - MINANGLE, and then positive, so that its weight does
    not divide by zero; its alpha, beta and phi are equal and its weight is
    1 / alpha^2. *)
Theorem angles_of_the_mesh_are_clamped :
  forall (normalize : Cv.Vec3d -> Cv.Vec3d) (dot : Cv.Vec3d -> Cv.Vec3d -> float)
         (acos : float -> float)
         (cs : list HalfEdgeMesh.Call) (m : HalfEdgeMesh.Mesh),
    HalfEdgeMesh.calls normalize dot acos cs = Some m ->
    forall (e : nat) (E : HalfEdgeMesh.Edge),
      nth_error (HalfEdgeMesh.edges_ m) e = Some E ->
      let a := HalfEdgeMesh.angle E in
      (PrimFloat.is_nan (HalfEdgeMesh.alpha a) = true
       \/ ((HalfEdgeMesh.MINANGLE <=? HalfEdgeMesh.alpha a)%float = true
           /\ (HalfEdgeMesh.alpha a <=? HalfEdgeMesh.MAXANGLE)%float = true
           /\ (0 <? HalfEdgeMesh.alpha a)%float = true))
      /\ HalfEdgeMesh.beta a = HalfEdgeMesh.alpha a
      /\ HalfEdgeMesh.phi a = HalfEdgeMesh.alpha a
      /\ HalfEdgeMesh.weight a = (1 / (HalfEdgeMesh.alpha a * HalfEdgeMesh.alpha a))%float.
Proof.
  intros normalize dot acos cs m Hcalls e E HE a.
  destruct (calls_clamped normalize dot acos cs m Hcalls e E HE)
    as (Hr & Hb & Hp & Hw).
  fold a in Hr, Hb, Hp, Hw. repeat split; auto.
  destruct Hr as [Hn|[Hlo Hhi]]; [now left|right].
  repeat split; auto. now apply above_minangle_positive.
Qed.

Lemma angles_of_the_mesh_are_clamped_witness :
  (PrimFloat.is_nan (HalfEdgeMesh.alpha (HalfEdgeMesh.angle Inputs.firstEdgeOfTwo)) = true
   \/ ((HalfEdgeMesh.MINANGLE
        <=? HalfEdgeMesh.alpha (HalfEdgeMesh.angle Inputs.firstEdgeOfTwo))%float = true
       /\ (HalfEdgeMesh.alpha (HalfEdgeMesh.angle Inputs.firstEdgeOfTwo)
           <=? HalfEdgeMesh.MAXANGLE)%float = true
       /\ (0 <? HalfEdgeMesh.alpha (HalfEdgeMesh.angle Inputs.firstEdgeOfTwo))%float = true))
  /\ HalfEdgeMesh.beta (HalfEdgeMesh.angle Inputs.firstEdgeOfTwo)
     = HalfEdgeMesh.alpha (HalfEdgeMesh.angle Inputs.firstEdgeOfTwo)
  /\ HalfEdgeMesh.phi (HalfEdgeMesh.angle Inputs.firstEdgeOfTwo)
     = HalfEdgeMesh.alpha (HalfEdgeMesh.angle Inputs.firstEdgeOfTwo)
  /\ HalfEdgeMesh.weight (HalfEdgeMesh.angle Inputs.firstEdgeOfTwo)
     = (1 / (HalfEdgeMesh.alpha (HalfEdgeMesh.angle Inputs.firstEdgeOfTwo)
             * HalfEdgeMesh.alpha (HalfEdgeMesh.angle Inputs.firstEdgeOfTwo)))%float.
Proof.
  apply (angles_of_the_mesh_are_clamped Inputs.unscaledd Inputs.dotOf Inputs.acosStub
           Inputs.twoTriangles Inputs.meshOfTwo
           ltac:(vm_compute; reflexivity) 0%nat Inputs.firstEdgeOfTwo).
  vm_compute. reflexivity.
Defined.

(** X21.  On a mesh built by [addVert] and [addFace] calls, with at least
    one face and no two edges of the same start and end vertex,
    [connect_all_pairs_] returns, keeps the start and end of every edge, and
    pairs every edge with the edge that runs the opposite way, mutually; an
    edge is left without pair exactly when no edge runs the opposite way. *)
Theorem connect_all_pairs_joins_opposite_edges :
  forall (normalize : Cv.Vec3d -> Cv.Vec3d) (dot : Cv.Vec3d -> Cv.Vec3d -> float)
         (acos : float -> float)
         (cs : list HalfEdgeMesh.Call) (m : HalfEdgeMesh.Mesh),
    HalfEdgeMesh.calls normalize dot acos cs = Some m ->
    HalfEdgeMesh.directedEdges cs <> [] ->
    NoDup (HalfEdgeMesh.directedEdges cs) ->
    exists m',
      HalfEdgeMesh.connect_all_pairs_ m = Some m'
      /\ forall e a b,
          nth_error (HalfEdgeMesh.directedEdges cs) e = Some (a, b) ->
          HalfEdgeMesh.startOf m' e = Some a /\ HalfEdgeMesh.endOf m' e = Some b
          /\ match HalfEdgeMesh.pairOf m' e with
             | Some p => nth_error (HalfEdgeMesh.directedEdges cs) p = Some (b, a)
                         /\ HalfEdgeMesh.pairOf m' p = Some e
             | None => ~ In (b, a) (HalfEdgeMesh.directedEdges cs)
             end.
Proof.
  intros normalize dot acos cs m Hcalls Hne Hnodup.
  destruct (calls_wellFormed normalize dot acos cs m Hcalls) as [Hwf [Hnopair Hnomark]].
  set (D := HalfEdgeMesh.directedEdges cs) in *.
  pose proof Hwf as (_ & Hle & Hlf & _ & _ & _).
  assert (Hfaces : (0 < length (HalfEdgeMesh.faces_ m))%nat)
    by (destruct D; [contradiction|cbn in Hlf; lia]).
  assert (Hinv : HalfEdgeMesh.connecting D m 0).
  { split; [exact Hwf|]. split; [|split].
    - intros e p Hep. unfold HalfEdgeMesh.pairOf in Hep.
      destruct (nth_error (HalfEdgeMesh.edges_ m) e) as [E|] eqn:HE; [|discriminate Hep].
      rewrite (Hnopair e E HE) in Hep. discriminate Hep.
    - intros f F _ HF. now apply (Hnomark f).
    - intros e E _ Hlt. lia. }
  destruct (connectLoop_runs D Hnodup (length (HalfEdgeMesh.faces_ m)) m 0%nat Hinv eq_refl Hfaces)
    as (m' & Hrun & (Hwf' & Hp' & _ & Hs') & Hsh).
  unfold HalfEdgeMesh.connect_all_pairs_. destruct (HalfEdgeMesh.faces_ m) as [|F0 rest] eqn:EF;
    [cbn in Hfaces; lia|]. rewrite Hrun.
  eexists. split; [reflexivity|].
  intros e a b HD.
  destruct (edge_of_D m' D e a b Hwf' HD) as (E & N & HE & HN & Hva & Hvb).
  unfold HalfEdgeMesh.startOf, HalfEdgeMesh.endOf, HalfEdgeMesh.pairOf. cbn [HalfEdgeMesh.edges_]. rewrite HE. cbn [option_map].
  rewrite HN. cbn [option_map]. rewrite Hva, Hvb.
  split; [reflexivity|]. split; [reflexivity|].
  destruct (HalfEdgeMesh.pair E) as [p|] eqn:Hpair.
  - assert (Hpe : HalfEdgeMesh.pairOf m' e = Some p) by (unfold HalfEdgeMesh.pairOf; now rewrite HE).
    destruct (Hp' e p Hpe) as [Hback (a' & b' & Ha & Hb)].
    rewrite HD in Ha. injection Ha as <- <-. split; [exact Hb|].
    unfold HalfEdgeMesh.pairOf in Hback. exact Hback.
  - assert (Hpe : HalfEdgeMesh.pairOf m' e = None) by (unfold HalfEdgeMesh.pairOf; now rewrite HE).
    pose proof Hwf' as (_ & _ & _ & He' & _ & _).
    destruct (He' e E HE) as (_ & _ & _ & (F & _ & _ & HF & _)).
    assert (Hlt : (HalfEdgeMesh.face E < length (HalfEdgeMesh.faces_ m))%nat).
    { destruct Hsh as (_ & _ & Sf & _). rewrite <- (same_length _ _ _ Sf).
      apply nth_error_Some. congruence. }
    rewrite EF in Hlt. exact (Hs' e E HE Hlt Hpe a b HD).
Qed.

Lemma connect_all_pairs_joins_opposite_edges_witness :
  exists m',
    HalfEdgeMesh.connect_all_pairs_ Inputs.meshOfTwo = Some m'
    /\ forall e a b,
        nth_error (HalfEdgeMesh.directedEdges Inputs.twoTriangles) e = Some (a, b) ->
        HalfEdgeMesh.startOf m' e = Some a /\ HalfEdgeMesh.endOf m' e = Some b
        /\ match HalfEdgeMesh.pairOf m' e with
           | Some p => nth_error (HalfEdgeMesh.directedEdges Inputs.twoTriangles) p
                       = Some (b, a)
                       /\ HalfEdgeMesh.pairOf m' p = Some e
           | None => ~ In (b, a) (HalfEdgeMesh.directedEdges Inputs.twoTriangles)
           end.
Proof.
  apply (connect_all_pairs_joins_opposite_edges Inputs.unscaledd Inputs.dotOf
           Inputs.acosStub Inputs.twoTriangles Inputs.meshOfTwo).
  - vm_compute. reflexivity.
  - discriminate.
  - cbn. repeat (constructor; [cbn; intuition discriminate|]). constructor.
Defined.

(** *** The generator as a whole *)

Lemma firstThree_some (v : list Cv.Vec3) :
  (3 <= length v)%nat -> exists a b c, PPMGenerator.firstThree v = Some (a, b, c).
Proof.
  destruct v as [|a [|b [|c r]]]; cbn [length]; try lia.
  intros _. now exists a, b, c.
Qed.

Lemma cellAt_some (g : PPMGenerator.Generator) (cell : Z) :
  PPMGenerator.cellId g cell -> exists info, PPMGenerator.cellAt g cell = Some info.
Proof.
  unfold PPMGenerator.cellId, PPMGenerator.cellAt. intro H.
  destruct (0 <=? cell) eqn:E; [|lia].
  destruct (nth_error (PPMGenerator.cellInformation_ g) (Z.to_nat cell)) as [i|] eqn:N.
  - now exists i.
  - apply nth_error_None in N. lia.
Qed.

Section ReturnFacts.

Variable AlmostEqual : Qc -> Qc -> bool.
Variable normalize : Cv.Vec3 -> Cv.Vec3.
Variable FindClosestNPoints : Cv.Vec3 -> Z -> list Z.
Variable emptyMap : Z -> Z -> Cv.Vec3 * Cv.Vec3.

Lemma locate_some (uv : Cv.Vec3) (s : PPMGenerator.Shading) (info : PPMGenerator.CellInfo) :
  PPMGenerator.readable s info ->
  exists bc found, PPMGenerator.locate AlmostEqual uv info = Some (bc, found).
Proof.
  intros (H2 & _). unfold PPMGenerator.locate.
  destruct (firstThree_some _ H2) as (a & b & c & ->). eauto.
Qed.

Lemma searchNeighborhood_some (g : PPMGenerator.Generator) (uv : Cv.Vec3) (cellHint : Z)
      (neighborhood : list Z) :
  Forall (PPMGenerator.readable (PPMGenerator.shading_ g)) (PPMGenerator.cellInformation_ g) ->
  (forall c, In c neighborhood -> PPMGenerator.cellId g c) ->
  exists r, PPMGenerator.searchNeighborhood AlmostEqual g uv cellHint neighborhood = Some r
    /\ forall cell info bc, r = Some (cell, info, bc) -> PPMGenerator.cellId g cell.
Proof.
  intros Hall. induction neighborhood as [|c rest IH]; intro Hn.
  - exists None. split; [reflexivity|discriminate].
  - cbn [PPMGenerator.searchNeighborhood].
    assert (Hrest : forall c', In c' rest -> PPMGenerator.cellId g c') by (intros; apply Hn; now right).
    destruct (c =? cellHint); [now apply IH|].
    destruct (cellAt_some g c (Hn c (or_introl eq_refl))) as [info Hc]. rewrite Hc.
    assert (Hr : PPMGenerator.readable (PPMGenerator.shading_ g) info).
    { rewrite Forall_forall in Hall. apply Hall. now apply (cellAt_In g c). }
    destruct (locate_some uv _ info Hr) as (bc & found & Hl). rewrite Hl.
    destruct found; [|now apply IH].
    eexists. split; [reflexivity|].
    intros cell info' bc' H. apply some_pair_inj in H. destruct H as [H _].
    assert (c = cell) by congruence. subst cell. apply Hn. now left.
Qed.

Lemma pixelNormal_returns (g : PPMGenerator.Generator) (info : PPMGenerator.CellInfo)
      (bc : Cv.Vec3) :
  PPMGenerator.readable (PPMGenerator.shading_ g) info ->
  exists n, PPMGenerator.pixelNormal normalize g info bc = Returned n.
Proof.
  intros (_ & _ & H). unfold PPMGenerator.pixelNormal, Std.at_.
  destruct (PPMGenerator.shading_ g); destruct (PPMGenerator.normals info) as [|n0 [|n1 [|n2 r]]];
    cbn [length nth_error] in *; try lia; eauto.
Qed.

Lemma find_cell_returns (g : PPMGenerator.Generator) (x y cellHint : Z) :
  Forall (PPMGenerator.readable (PPMGenerator.shading_ g)) (PPMGenerator.cellInformation_ g) ->
  (forall uv n c, In c (FindClosestNPoints uv n) -> PPMGenerator.cellId g c) ->
  PPMGenerator.cellId g cellHint ->
  exists g' cellHint',
    PPMGenerator.find_cell_ AlmostEqual normalize FindClosestNPoints g x y cellHint
    = Some (Returned (g', cellHint'))
    /\ PPMGenerator.sameInput g g' /\ PPMGenerator.cellId g cellHint'.
Proof.
  intros Hall Hkd Hhint. unfold PPMGenerator.find_cell_.
  destruct (cellAt_some g cellHint Hhint) as [info0 Hc0]. rewrite Hc0.
  assert (Hr0 : PPMGenerator.readable (PPMGenerator.shading_ g) info0).
  { rewrite Forall_forall in Hall. apply Hall. now apply (cellAt_In g cellHint). }
  destruct (locate_some (PPMGenerator.pixelUV g x y) _ info0 Hr0) as (bc0 & found0 & Hl0).
  rewrite Hl0.
  set (search := if found0 then _ else _).
  assert (Hsearch : exists r, search = Some r
            /\ forall cell info bc, r = Some (cell, info, bc) ->
                 PPMGenerator.cellId g cell /\ PPMGenerator.cellAt g cell = Some info).
  { unfold search. destruct found0.
    - eexists. split; [reflexivity|]. intros cell info bc H.
      apply some_pair_inj in H. destruct H as [H _].
      assert (cellHint = cell /\ info0 = info) as [<- <-] by (split; congruence).
      now split.
    - destruct (searchNeighborhood_some g (PPMGenerator.pixelUV g x y) cellHint
                  (FindClosestNPoints (PPMGenerator.pixelUV g x y) (PPMGenerator.kdSearchSize_ g))
                  Hall (Hkd _ _)) as (r & Hr & Hid).
      exists r. split; [exact Hr|]. intros cell info bc ->. split; [eapply Hid; reflexivity|].
      now apply searchNeighborhood_found in Hr. }
  destruct Hsearch as (r & -> & Hr).
  destruct r as [[[cell info] bc]|].
  - destruct (Hr cell info bc eq_refl) as [Hid Hc].
    assert (Hrd : PPMGenerator.readable (PPMGenerator.shading_ g) info).
    { rewrite Forall_forall in Hall. apply Hall. now apply (cellAt_In g cell). }
    destruct (firstThree_some _ (proj1 (proj2 Hrd))) as (a & b & c & ->).
    destruct (pixelNormal_returns g info bc Hrd) as [n ->].
    eexists. eexists. split; [reflexivity|]. split; [repeat split|exact Hid].
  - eexists. eexists. split; [reflexivity|]. split; [apply sameInput_refl|exact Hhint].
Qed.

Lemma same_readable (g g' : PPMGenerator.Generator) :
  PPMGenerator.sameInput g g' ->
  Forall (PPMGenerator.readable (PPMGenerator.shading_ g)) (PPMGenerator.cellInformation_ g) ->
  Forall (PPMGenerator.readable (PPMGenerator.shading_ g')) (PPMGenerator.cellInformation_ g').
Proof. intros (_ & _ & -> & -> & _). exact (fun H => H). Qed.

Lemma same_cellId (g g' : PPMGenerator.Generator) (c : Z) :
  PPMGenerator.sameInput g g' -> PPMGenerator.cellId g c -> PPMGenerator.cellId g' c.
Proof. intros (_ & _ & _ & E & _). unfold PPMGenerator.cellId. now rewrite E. Qed.

Lemma columns_returns (xs : list Z) (g : PPMGenerator.Generator) (y lastCell : Z) :
  Forall (PPMGenerator.readable (PPMGenerator.shading_ g)) (PPMGenerator.cellInformation_ g) ->
  (forall uv n c, In c (FindClosestNPoints uv n) -> PPMGenerator.cellId g c) ->
  PPMGenerator.cellId g lastCell ->
  exists g' lastCell',
    PPMGenerator.columns AlmostEqual normalize FindClosestNPoints g y xs lastCell
    = Some (Returned (g', lastCell'))
    /\ PPMGenerator.sameInput g g' /\ PPMGenerator.cellId g lastCell'.
Proof.
  revert g lastCell. induction xs as [|x rest IH]; intros g lastCell Hall Hkd Hid.
  - eexists. eexists. split; [reflexivity|]. split; [apply sameInput_refl|exact Hid].
  - cbn [PPMGenerator.columns].
    destruct (find_cell_returns g x y lastCell Hall Hkd Hid) as (g1 & h1 & -> & Hs1 & Hid1).
    destruct (IH g1 h1 (same_readable g g1 Hs1 Hall)
                 (fun uv n c H => same_cellId g g1 c Hs1 (Hkd uv n c H))
                 (same_cellId g g1 h1 Hs1 Hid1)) as (g' & h' & E & Hs' & Hid').
    exists g', h'. split; [exact E|]. split; [eapply sameInput_trans; eassumption|].
    destruct Hs1 as (_ & _ & _ & Ec & _). unfold PPMGenerator.cellId in *. now rewrite <- Ec.
Qed.

Lemma rows_returns (ys : list Z) (g : PPMGenerator.Generator) (lastCell : Z) :
  Forall (PPMGenerator.readable (PPMGenerator.shading_ g)) (PPMGenerator.cellInformation_ g) ->
  (forall uv n c, In c (FindClosestNPoints uv n) -> PPMGenerator.cellId g c) ->
  PPMGenerator.cellId g lastCell ->
  exists g' lastCell',
    PPMGenerator.rows AlmostEqual normalize FindClosestNPoints g ys lastCell
    = Some (Returned (g', lastCell'))
    /\ PPMGenerator.sameInput g g' /\ PPMGenerator.cellId g lastCell'.
Proof.
  revert g lastCell. induction ys as [|y rest IH]; intros g lastCell Hall Hkd Hid.
  - eexists. eexists. split; [reflexivity|]. split; [apply sameInput_refl|exact Hid].
  - cbn [PPMGenerator.rows].
    destruct (columns_returns (Std.range (PPMGenerator.width_ g)) g y lastCell Hall Hkd Hid)
      as (g1 & h1 & -> & Hs1 & Hid1).
    destruct (IH g1 h1 (same_readable g g1 Hs1 Hall)
                 (fun uv n c H => same_cellId g g1 c Hs1 (Hkd uv n c H))
                 (same_cellId g g1 h1 Hs1 Hid1)) as (g' & h' & E & Hs' & Hid').
    exists g', h'. split; [exact E|]. split; [eapply sameInput_trans; eassumption|].
    destruct Hs1 as (_ & _ & _ & Ec & _). unfold PPMGenerator.cellId in *. now rewrite <- Ec.
Qed.

Lemma generate_ppm_returns (g : PPMGenerator.Generator) :
  PPMGenerator.cellInformation_ g <> [] ->
  Forall (PPMGenerator.readable (PPMGenerator.shading_ g)) (PPMGenerator.cellInformation_ g) ->
  (forall uv n c, In c (FindClosestNPoints uv n) -> PPMGenerator.cellId g c) ->
  exists g', PPMGenerator.generate_ppm_ AlmostEqual normalize FindClosestNPoints emptyMap g
             = Some (Returned g').
Proof.
  intros Hne Hall Hkd. unfold PPMGenerator.generate_ppm_. cbv zeta.
  set (g0 := PPMGenerator.mkGenerator _ _ _ _ _ _ _).
  assert (H0 : PPMGenerator.cellId g0 0).
  { unfold PPMGenerator.cellId, g0. cbn [PPMGenerator.cellInformation_].
    destruct (PPMGenerator.cellInformation_ g); [congruence|cbn [length]; lia]. }
  destruct (rows_returns (Std.range (PPMGenerator.height_ g0)) g0 0 Hall Hkd H0)
    as (g' & h' & E & _).
  rewrite E. now exists g'.
Qed.

End ReturnFacts.

Section ComputeFacts.

Variable AlmostEqual : Qc -> Qc -> bool.
Variable normalize : Cv.Vec3 -> Cv.Vec3.
Variable emptyMap : Z -> Z -> Cv.Vec3 * Cv.Vec3.
Variable FindClosestNPoints : list Cv.Vec3 -> Cv.Vec3 -> Z -> list Z.
Variable CalculateNormals : PPMGenerator.ITKMesh -> PPMGenerator.ITKMesh.

Lemma generate_ppm_sound (locator : Cv.Vec3 -> Z -> list Z) (g g' : PPMGenerator.Generator) :
  PPMGenerator.generate_ppm_ AlmostEqual normalize locator emptyMap g
  = Some (Returned g') ->
  PPMGenerator.width_ g' = PPMGenerator.width_ g
  /\ PPMGenerator.height_ g' = PPMGenerator.height_ g
  /\ PPMGenerator.shading_ g' = PPMGenerator.shading_ g
  /\ PPMGenerator.cellInformation_ g' = PPMGenerator.cellInformation_ g
  /\ PPMGenerator.sound AlmostEqual emptyMap g'.
Proof.
  unfold PPMGenerator.generate_ppm_. cbv zeta. set (g0 := PPMGenerator.mkGenerator _ _ _ _ _ _ _).
  destruct (PPMGenerator.rows AlmostEqual normalize locator g0
              (Std.range (PPMGenerator.height_ g0)) 0) as [[[g1 h1]|e]|] eqn:Hr;
    [|discriminate|discriminate].
  intro H. assert (g1 = g') by congruence. subst g'. clear H.
  assert (Hs0 : PPMGenerator.sound AlmostEqual emptyMap g0)
    by (intros y x; left; split; reflexivity).
  destruct (rows_sound AlmostEqual normalize locator emptyMap _ g0 g1 0 h1 Hs0
              (fun y Hy => range_In_inv _ y Hy) Hr) as [Hs (Hw & Hh & Hsh & Hc & Hk)].
  repeat split; auto.
Qed.

Lemma length_normals (m : PPMGenerator.ITKMesh) (cell : list Z) :
  (forall id, In id cell -> PPMGenerator.GetPointData m id <> None) ->
  length (flat_map (fun pointID => match PPMGenerator.GetPointData m pointID with
                                   | Some n => [n]
                                   | None => []
                                   end) cell) = length cell.
Proof.
  induction cell as [|id rest IH]; intro H; [reflexivity|].
  cbn [flat_map]. rewrite length_app, IH by (intros; apply H; now right).
  destruct (PPMGenerator.GetPointData m id) eqn:E; [reflexivity|].
  exfalso. apply (H id); [now left|exact E].
Qed.

Lemma cellInfo_readable (s : PPMGenerator.Shading) (m : PPMGenerator.ITKMesh)
      (uvMap : PPMGenerator.UVMap) (cell : list Z) :
  (3 <= length cell)%nat ->
  (s = PPMGenerator.Smooth -> forall id, In id cell -> PPMGenerator.GetPointData m id <> None) ->
  exists info centroid,
    PPMGenerator.cellInfo normalize s m uvMap cell = Some (info, centroid)
    /\ PPMGenerator.readable s info
    /\ length (PPMGenerator.pts2D info) = length cell
    /\ forall p, In p (PPMGenerator.pts2D info) -> Cv.vz p = 0%Qc.
Proof.
  intros H3 Hdata. unfold PPMGenerator.cellInfo. cbv zeta.
  set (p2 := map _ cell). set (p3 := map _ cell). set (ns := flat_map _ cell).
  assert (L2 : length p2 = length cell) by apply length_map.
  assert (L3 : length p3 = length cell) by apply length_map.
  destruct (firstThree_some p2 ltac:(lia)) as (a & b & c & ->).
  destruct (firstThree_some p3 ltac:(lia)) as (p0 & p1 & q2 & ->).
  eexists. eexists. split; [reflexivity|].
  cbn [PPMGenerator.pts2D PPMGenerator.pts3D PPMGenerator.normals].
  split; [|split; [exact L2|]].
  - unfold PPMGenerator.readable.
    cbn [PPMGenerator.pts2D PPMGenerator.pts3D PPMGenerator.normals].
    split; [lia|]. split; [lia|].
    destruct s; [cbn [length]; lia|].
    unfold ns. rewrite length_normals; [lia|]. now apply Hdata.
  - intros p Hp. unfold p2 in Hp. apply in_map_iff in Hp. destruct Hp as (id & <- & _).
    reflexivity.
Qed.

Lemma generate_centroid_mesh_returns (s : PPMGenerator.Shading) (m : PPMGenerator.ITKMesh)
      (uvMap : PPMGenerator.UVMap) (cells : list (list Z)) :
  Forall (fun cell => (3 <= length cell)%nat) cells ->
  (s = PPMGenerator.Smooth ->
   forall cell id, In cell cells -> In id cell -> PPMGenerator.GetPointData m id <> None) ->
  exists infos centroids,
    PPMGenerator.generate_centroid_mesh_ normalize s m uvMap cells = Some (infos, centroids)
    /\ length centroids = length cells
    /\ Forall (PPMGenerator.readable s) infos
    /\ Forall2 (fun cell info => length (PPMGenerator.pts2D info) = length cell) cells infos
    /\ forall info p, In info infos -> In p (PPMGenerator.pts2D info) -> Cv.vz p = 0%Qc.
Proof.
  induction cells as [|cell rest IH]; intros Hall Hdata.
  - exists [], []. split; [reflexivity|]. split; [reflexivity|].
    split; [constructor|]. split; [constructor|].
    intros info p [].
  - inversion Hall as [|? ? H3 Hrest]; subst.
    cbn [PPMGenerator.generate_centroid_mesh_].
    destruct (cellInfo_readable s m uvMap cell H3
                (fun E id Hid => Hdata E cell id (or_introl eq_refl) Hid))
      as (info & centroid & -> & Hr & Hl & Hz).
    destruct (IH Hrest (fun E c id Hc Hid => Hdata E c id (or_intror Hc) Hid))
      as (infos & centroids & -> & Hcs & Hrs & Hls & Hzs).
    exists (info :: infos), (centroid :: centroids). split; [reflexivity|].
    split; [cbn [length]; now rewrite Hcs|]. split; [now constructor|].
    split; [now constructor|].
    intros i p [<-|Hi]; [apply Hz|now apply Hzs].
Qed.

Lemma compute_of_triangles (inputMesh : PPMGenerator.ITKMesh) (uvMap : PPMGenerator.UVMap)
      (height width : Z) (shading : PPMGenerator.Shading) :
  PPMGenerator.GetCells (PPMGenerator.workingMesh_ CalculateNormals inputMesh shading)
  = PPMGenerator.GetCells inputMesh ->
  Forall (fun cell => (3 <= length cell)%nat) (PPMGenerator.GetCells inputMesh) ->
  (shading = PPMGenerator.Smooth ->
   forall cell id, In cell (PPMGenerator.GetCells inputMesh) -> In id cell ->
     PPMGenerator.GetPointData (PPMGenerator.workingMesh_ CalculateNormals inputMesh shading) id
     <> None) ->
  (forall points uv n c, In c (FindClosestNPoints points uv n) ->
     0 <= c < Z.of_nat (length points)) ->
  if PPMGenerator.invalidInput inputMesh uvMap height width
  then PPMGenerator.compute AlmostEqual normalize emptyMap FindClosestNPoints CalculateNormals
         inputMesh uvMap height width shading = PPMGenerator.InvalidArgument
  else exists g,
      PPMGenerator.compute AlmostEqual normalize emptyMap FindClosestNPoints CalculateNormals
        inputMesh uvMap height width shading = PPMGenerator.Computed g
      /\ PPMGenerator.width_ g = width /\ PPMGenerator.height_ g = height
      /\ Forall2 (fun cell info => length (PPMGenerator.pts2D info) = length cell)
                 (PPMGenerator.GetCells inputMesh) (PPMGenerator.cellInformation_ g)
      /\ (forall info p, In info (PPMGenerator.cellInformation_ g) ->
            In p (PPMGenerator.pts2D info) -> Cv.vz p = 0%Qc)
      /\ forall y x, PPMGenerator.unmapped emptyMap g y x \/ PPMGenerator.mapped AlmostEqual g y x.
Proof.
  intros Hcells Htri Hdata Hkd. unfold PPMGenerator.compute.
  destruct (PPMGenerator.invalidInput inputMesh uvMap height width) eqn:Hinv; [reflexivity|].
  cbv zeta. rewrite Hcells.
  destruct (generate_centroid_mesh_returns shading
              (PPMGenerator.workingMesh_ CalculateNormals inputMesh shading) uvMap
              (PPMGenerator.GetCells inputMesh) Htri Hdata)
    as (infos & centroids & -> & Hcs & Hrs & Hls & Hzs).
  set (g0 := PPMGenerator.mkGenerator _ _ _ _ _ _ _).
  assert (Hlen : length infos = length (PPMGenerator.GetCells inputMesh))
    by (symmetry; eapply Forall2_length; exact Hls).
  assert (Hne : PPMGenerator.cellInformation_ g0 <> []).
  { unfold g0. cbn [PPMGenerator.cellInformation_]. intro E. rewrite E in Hlen.
    unfold PPMGenerator.invalidInput in Hinv.
    rewrite <- Hlen in Hinv. cbn [length Z.of_nat] in Hinv. rewrite Z.eqb_refl in Hinv.
    rewrite !orb_true_r in Hinv. cbn in Hinv. discriminate. }
  destruct (generate_ppm_returns AlmostEqual normalize (FindClosestNPoints centroids) emptyMap
              g0 Hne Hrs) as [g' Hg'].
  { intros uv n c Hc. unfold PPMGenerator.cellId, g0. cbn [PPMGenerator.cellInformation_].
    rewrite Hlen, <- Hcs. now apply (Hkd centroids uv n). }
  rewrite Hg'. exists g'. split; [reflexivity|].
  destruct (generate_ppm_sound _ g0 g' Hg') as (Hw & Hh & _ & Hc & Hs).
  rewrite Hw, Hh, Hc. unfold g0. cbn [PPMGenerator.width_ PPMGenerator.height_ PPMGenerator.cellInformation_].
  repeat split; auto.
Qed.

End ComputeFacts.

(** X23.  [generate_ppm_] returns for a generator with at least one cell
    whose cells all have three 2D points, three 3D points and the normals
    that the shading reads (one for flat, three for smooth shading), when the
    point locator returns identifiers of cells only: no cell and no vertex is
    read that does not exist, and [normals.at] does not throw. *)
Theorem generate_ppm_returns_for_readable_cells :
  forall (AlmostEqual : Qc -> Qc -> bool) (normalize : Cv.Vec3 -> Cv.Vec3)
         (FindClosestNPoints : Cv.Vec3 -> Z -> list Z)
         (emptyMap : Z -> Z -> Cv.Vec3 * Cv.Vec3) (g : PPMGenerator.Generator),
    PPMGenerator.cellInformation_ g <> [] ->
    Forall (PPMGenerator.readable (PPMGenerator.shading_ g)) (PPMGenerator.cellInformation_ g) ->
    (forall uv n c, In c (FindClosestNPoints uv n) -> PPMGenerator.cellId g c) ->
    exists g', PPMGenerator.generate_ppm_ AlmostEqual normalize FindClosestNPoints emptyMap g
               = Some (Returned g').
Proof.
  intros AlmostEqual normalize FindClosestNPoints emptyMap.
  exact (generate_ppm_returns AlmostEqual normalize FindClosestNPoints emptyMap).
Qed.

Lemma generate_ppm_returns_for_readable_cells_witness :
  exists g', PPMGenerator.generate_ppm_ Inputs.exactlyEqual Inputs.unscaled Inputs.noNeighbours
               Inputs.zeroMap Inputs.generator3x3 = Some (Returned g').
Proof.
  apply (generate_ppm_returns_for_readable_cells Inputs.exactlyEqual Inputs.unscaled
           Inputs.noNeighbours Inputs.zeroMap Inputs.generator3x3).
  - discriminate.
  - repeat constructor.
  - intros uv n c [].
Defined.

(** X24.  [compute] on a mesh whose cells have three points or more each,
    with a normal stored for each of them when the shading is smooth, a
    working mesh with the cells of the input mesh, and a point locator that
    returns identifiers of the points it was set up on.  The call throws
    [std::invalid_argument] exactly when the mesh is null or has no point or
    no cell, the uv map is empty, or the width or the height is zero.
    Otherwise it returns: the map has the size asked for; there is one cell
    information for every cell of the mesh, in the order of the cells, with
    one 2D point for every point of the cell, each with third coordinate 0;
    and every pixel is either not mapped or mapped into one of the cells, as
    [generate_ppm_] maps it. *)
Theorem compute_rejects_invalid_input_and_maps_triangle_meshes :
  forall (AlmostEqual : Qc -> Qc -> bool) (normalize : Cv.Vec3 -> Cv.Vec3)
         (emptyMap : Z -> Z -> Cv.Vec3 * Cv.Vec3)
         (FindClosestNPoints : list Cv.Vec3 -> Cv.Vec3 -> Z -> list Z)
         (CalculateNormals : PPMGenerator.ITKMesh -> PPMGenerator.ITKMesh)
         (inputMesh : PPMGenerator.ITKMesh) (uvMap : PPMGenerator.UVMap)
         (height width : Z) (shading : PPMGenerator.Shading),
    PPMGenerator.GetCells (PPMGenerator.workingMesh_ CalculateNormals inputMesh shading)
    = PPMGenerator.GetCells inputMesh ->
    Forall (fun cell => (3 <= length cell)%nat) (PPMGenerator.GetCells inputMesh) ->
    (shading = PPMGenerator.Smooth ->
     forall cell id, In cell (PPMGenerator.GetCells inputMesh) -> In id cell ->
       PPMGenerator.GetPointData (PPMGenerator.workingMesh_ CalculateNormals inputMesh shading) id
       <> None) ->
    (forall points uv n c, In c (FindClosestNPoints points uv n) ->
       0 <= c < Z.of_nat (length points)) ->
    if PPMGenerator.invalidInput inputMesh uvMap height width
    then PPMGenerator.compute AlmostEqual normalize emptyMap FindClosestNPoints CalculateNormals
           inputMesh uvMap height width shading = PPMGenerator.InvalidArgument
    else exists g,
        PPMGenerator.compute AlmostEqual normalize emptyMap FindClosestNPoints CalculateNormals
          inputMesh uvMap height width shading = PPMGenerator.Computed g
        /\ PPMGenerator.width_ g = width /\ PPMGenerator.height_ g = height
        /\ Forall2 (fun cell info => length (PPMGenerator.pts2D info) = length cell)
                   (PPMGenerator.GetCells inputMesh) (PPMGenerator.cellInformation_ g)
        /\ (forall info p, In info (PPMGenerator.cellInformation_ g) ->
              In p (PPMGenerator.pts2D info) -> Cv.vz p = 0%Qc)
        /\ forall y x, PPMGenerator.unmapped emptyMap g y x \/ PPMGenerator.mapped AlmostEqual g y x.
Proof.
  intros AlmostEqual normalize emptyMap FindClosestNPoints CalculateNormals.
  exact (compute_of_triangles AlmostEqual normalize emptyMap FindClosestNPoints CalculateNormals).
Qed.

Lemma compute_rejects_invalid_input_and_maps_triangle_meshes_witness :
  exists g,
    PPMGenerator.compute Inputs.exactlyEqual Inputs.unscaled Inputs.zeroMap
      Inputs.firstPoint Inputs.sameMesh Inputs.meshOfOne Inputs.uvOfOne 3 3 PPMGenerator.Flat
    = PPMGenerator.Computed g
    /\ PPMGenerator.width_ g = 3 /\ PPMGenerator.height_ g = 3
    /\ Forall2 (fun cell info => length (PPMGenerator.pts2D info) = length cell)
               (PPMGenerator.GetCells Inputs.meshOfOne) (PPMGenerator.cellInformation_ g)
    /\ (forall info p, In info (PPMGenerator.cellInformation_ g) ->
          In p (PPMGenerator.pts2D info) -> Cv.vz p = 0%Qc)
    /\ forall y x, PPMGenerator.unmapped Inputs.zeroMap g y x
                   \/ PPMGenerator.mapped Inputs.exactlyEqual g y x.
Proof.
  apply (compute_rejects_invalid_input_and_maps_triangle_meshes Inputs.exactlyEqual
           Inputs.unscaled Inputs.zeroMap Inputs.firstPoint Inputs.sameMesh
           Inputs.meshOfOne Inputs.uvOfOne 3 3 PPMGenerator.Flat).
  - reflexivity.
  - repeat constructor.
  - discriminate.
  - intros [|p points] uv n c; cbn [Inputs.firstPoint In length]; [tauto|lia].
Defined.

(** *** The edges of the vertices *)

Lemma linkVert_edge (v e : nat) (l : list HalfEdgeMesh.Vert) (i : nat) (V : HalfEdgeMesh.Vert) :
  nth_error (HalfEdgeMesh.linkVert v e l) i = Some V ->
  exists V0, nth_error l i = Some V0
             /\ HalfEdgeMesh.v_edge V
                = if Nat.eqb i v
                  then match HalfEdgeMesh.v_edge V0 with
                       | None => Some e
                       | Some x => Some x
                       end
                  else HalfEdgeMesh.v_edge V0.
Proof.
  unfold HalfEdgeMesh.linkVert. rewrite nth_error_update.
  destruct (Nat.eqb i v).
  - destruct (nth_error l i) as [V0|]; [|discriminate]. cbn [option_map]. intro H.
    injection H as <-. exists V0. split; [reflexivity|].
    destruct (HalfEdgeMesh.v_edge V0) eqn:E; [exact E|reflexivity].
  - intro H. exists V. now split.
Qed.

Lemma start_in_range (m : HalfEdgeMesh.Mesh) (D : list (nat * nat)) (e a b : nat) :
  HalfEdgeMesh.wellFormed m D -> nth_error D e = Some (a, b) ->
  (a < length (HalfEdgeMesh.verts_ m))%nat.
Proof.
  intros Hwf HD. destruct (edge_of_D m D e a b Hwf HD) as (E & N & HE & _ & <- & _).
  destruct Hwf as (_ & _ & _ & He & _). now destruct (He e E HE) as (_ & _ & H & _).
Qed.

Lemma addVert_vertEdges (x y z : float) (m : HalfEdgeMesh.Mesh) (D : list (nat * nat)) :
  HalfEdgeMesh.wellFormed m D -> HalfEdgeMesh.vertEdges m D ->
  HalfEdgeMesh.vertEdges (fst (HalfEdgeMesh.addVert x y z m)) D.
Proof.
  intros Hwf Hve v V. unfold HalfEdgeMesh.addVert. cbn [fst HalfEdgeMesh.verts_]. intro H.
  apply grown_inv in H.
  destruct H as [[Hlt (V0 & HV0 & [[_ ->]|[_ ->]])]|[Hge H]].
  - cbn [HalfEdgeMesh.setVertNextLink HalfEdgeMesh.v_edge]. exact (Hve v V0 HV0).
  - exact (Hve v V0 HV0).
  - apply one_more in H. destruct H as [_ ->]. cbn [HalfEdgeMesh.v_edge].
    intros e b HD. pose proof (start_in_range m D e v b Hwf HD). lia.
Qed.

Section AddFaceEdges.

Variable normalize : Cv.Vec3d -> Cv.Vec3d.
Variable dot : Cv.Vec3d -> Cv.Vec3d -> float.
Variable acos : float -> float.

Lemma addFace_vertEdges (v0 v1 v2 : nat) (m m' : HalfEdgeMesh.Mesh) (f : nat)
      (D : list (nat * nat)) :
  HalfEdgeMesh.wellFormed m D -> HalfEdgeMesh.vertEdges m D ->
  HalfEdgeMesh.addFace normalize dot acos v0 v1 v2 m = Some (m', f) ->
  HalfEdgeMesh.vertEdges m' (D ++ [(v0, v1); (v1, v2); (v2, v0)]).
Proof.
  intros Hwf Hve. pose proof Hwf as (_ & Hle & _). unfold HalfEdgeMesh.addFace.
  destruct (nth_error (HalfEdgeMesh.verts_ m) v0) as [V0|]; [|discriminate].
  destruct (nth_error (HalfEdgeMesh.verts_ m) v1) as [V1|]; [|discriminate].
  destruct (nth_error (HalfEdgeMesh.verts_ m) v2) as [V2|]; [|discriminate].
  cbv zeta. intro H. apply some_pair_inj in H. destruct H as [<- _].
  intros v V. cbn [HalfEdgeMesh.verts_]. rewrite Hle. set (n := length D).
  intro HV.
  apply linkVert_edge in HV. destruct HV as (W2 & HW2 & E2).
  apply linkVert_edge in HW2. destruct HW2 as (W1 & HW1 & E1).
  apply linkVert_edge in HW1. destruct HW1 as (W0 & HW0 & E0).
  pose proof (Hve v W0 HW0) as Hold.
  assert (Hn0 : nth_error (D ++ [(v0, v1); (v1, v2); (v2, v0)]) n = Some (v0, v1))
    by (rewrite nth_error_app2 by (unfold n; lia); now replace (n - length D)%nat with 0%nat by (unfold n; lia)).
  assert (Hn1 : nth_error (D ++ [(v0, v1); (v1, v2); (v2, v0)]) (S n) = Some (v1, v2))
    by (rewrite nth_error_app2 by (unfold n; lia); now replace (S n - length D)%nat with 1%nat by (unfold n; lia)).
  assert (Hn2 : nth_error (D ++ [(v0, v1); (v1, v2); (v2, v0)]) (S (S n)) = Some (v2, v0))
    by (rewrite nth_error_app2 by (unfold n; lia); now replace (S (S n) - length D)%nat with 2%nat by (unfold n; lia)).
  destruct (HalfEdgeMesh.v_edge W0) as [x|] eqn:EW0.
  - (* the vertex had an edge *)
    assert (HV : HalfEdgeMesh.v_edge V = Some x).
    { rewrite E2, E1, E0. destruct (Nat.eqb v v0), (Nat.eqb v v1), (Nat.eqb v v2); reflexivity. }
    rewrite HV. destruct Hold as [b Hb]. exists b.
    rewrite nth_error_app1 by (apply nth_error_Some; congruence). exact Hb.
  - rewrite E2, E1, E0.
    destruct (Nat.eqb v v0) eqn:Q0.
    + apply Nat.eqb_eq in Q0. subst v0.
      destruct (Nat.eqb v v1), (Nat.eqb v v2); eauto.
    + destruct (Nat.eqb v v1) eqn:Q1.
      * apply Nat.eqb_eq in Q1. subst v1. destruct (Nat.eqb v v2); eauto.
      * destruct (Nat.eqb v v2) eqn:Q2.
        -- apply Nat.eqb_eq in Q2. subst v2. eauto.
        -- apply Nat.eqb_neq in Q0, Q1, Q2. intros e b HD.
           destruct (Nat.lt_ge_cases e (length D)) as [Hlt|Hge].
           ++ rewrite nth_error_app1 in HD by exact Hlt. exact (Hold e b HD).
           ++ rewrite nth_error_app2 in HD by exact Hge. apply three_more in HD.
              destruct HD as [[_ HD]|[[_ HD]|[_ HD]]]; congruence.
Qed.

Lemma calls_vertEdges_from (cs : list HalfEdgeMesh.Call) (m0 m : HalfEdgeMesh.Mesh)
      (D0 : list (nat * nat)) :
  HalfEdgeMesh.wellFormed m0 D0 -> HalfEdgeMesh.vertEdges m0 D0 ->
  fold_left (HalfEdgeMesh.call normalize dot acos) cs (Some m0) = Some m ->
  HalfEdgeMesh.vertEdges m (D0 ++ HalfEdgeMesh.directedEdges cs).
Proof.
  revert m0 D0. induction cs as [|c cs IH]; intros m0 D0 Hwf Hve H.
  - cbn in H. injection H as <-. cbn. now rewrite app_nil_r.
  - cbn [fold_left] in H. destruct c as [x y z|v0 v1 v2].
    + cbn [HalfEdgeMesh.call] in H. cbn [HalfEdgeMesh.directedEdges flat_map app].
      apply (IH _ D0) in H; [exact H| |].
      * now apply addVert_wellFormed.
      * now apply addVert_vertEdges.
    + cbn [HalfEdgeMesh.call] in H.
      destruct (HalfEdgeMesh.addFace normalize dot acos v0 v1 v2 m0) as [[m1 f]|] eqn:E.
      * cbn [option_map fst] in H.
        apply (IH _ (D0 ++ [(v0, v1); (v1, v2); (v2, v0)])) in H.
        -- cbn [HalfEdgeMesh.directedEdges flat_map]. rewrite <- app_assoc in H. exact H.
        -- now apply (addFace_wellFormed normalize dot acos v0 v1 v2 m0 m1 f).
        -- now apply (addFace_vertEdges v0 v1 v2 m0 m1 f).
      * cbn [option_map] in H. rewrite calls_none in H. discriminate H.
Qed.

Lemma calls_vertEdges (cs : list HalfEdgeMesh.Call) (m : HalfEdgeMesh.Mesh) :
  HalfEdgeMesh.calls normalize dot acos cs = Some m ->
  HalfEdgeMesh.vertEdges m (HalfEdgeMesh.directedEdges cs).
Proof.
  intro H. apply (calls_vertEdges_from cs HalfEdgeMesh.empty m []) in H;
    [exact H|apply empty_wellFormed|].
  intros [|?] ? H'; discriminate H'.
Qed.

End AddFaceEdges.

Section MarkFacts.

Variable D : list (nat * nat).
Hypothesis distinct : NoDup D.

Lemma connectEdge_verts (m : HalfEdgeMesh.Mesh) (e n : nat) (E : HalfEdgeMesh.Edge) :
  HalfEdgeMesh.wellFormed m D -> HalfEdgeMesh.paired m D ->
  nth_error (HalfEdgeMesh.edges_ m) e = Some E -> n = HalfEdgeMesh.next E ->
  (HalfEdgeMesh.vertEdges m D -> HalfEdgeMesh.vertEdges (HalfEdgeMesh.connectEdge e n m) D)
  /\ (forall a, HalfEdgeMesh.onBoundary m D a -> HalfEdgeMesh.onBoundary (HalfEdgeMesh.connectEdge e n m) D a)
  /\ (forall a, HalfEdgeMesh.boundaryEdge D a e -> HalfEdgeMesh.onBoundary (HalfEdgeMesh.connectEdge e n m) D a).
Proof.
  intros Hwf Hp HE ->.
  pose proof Hwf as (_ & Hle & _ & He & _ & _).
  destruct (He e E HE) as (_ & _ & Hvlt & (F & E1 & E2 & _ & HE1 & _ & _ & _ & _ & _ & HDe)).
  unfold HalfEdgeMesh.connectEdge. rewrite HE, HE1.
  destruct (HalfEdgeMesh.pair E) as [q|] eqn:Hq.
  - split; [exact (fun H => H)|]. split; [exact (fun a H => H)|].
    intros a (b & HD & Hno). exfalso.
    assert (Hpe : HalfEdgeMesh.pairOf m e = Some q) by (rewrite (pairOf_edge m e E HE); exact Hq).
    destruct (Hp e q Hpe) as [_ (a' & b' & Ha & Hb)].
    rewrite HD in Ha. injection Ha as <- <-. apply Hno. eapply nth_error_In. exact Hb.
  - pose proof (find_edge_pair_spec m D (HalfEdgeMesh.vert E) (HalfEdgeMesh.vert E1) Hwf) as Hfind.
    destruct (HalfEdgeMesh.find_edge_pair_ m (HalfEdgeMesh.vert E) (HalfEdgeMesh.vert E1)) as [p|].
    + split; [exact (fun H => H)|]. split; [exact (fun a H => H)|].
      intros a (b & HD & Hno). exfalso. rewrite HDe in HD. injection HD as <- <-.
      apply Hno. eapply nth_error_In. exact Hfind.
    + assert (Hb : HalfEdgeMesh.boundaryEdge D (HalfEdgeMesh.vert E) e)
        by (exists (HalfEdgeMesh.vert E1); split; [exact HDe|exact Hfind]).
      destruct (nth_error (HalfEdgeMesh.verts_ m) (HalfEdgeMesh.vert E)) as [W|] eqn:HW;
        [|apply nth_error_None in HW; lia].
      assert (Hnew : HalfEdgeMesh.onBoundary
                       (HalfEdgeMesh.mkMesh
                          (HalfEdgeMesh.update (HalfEdgeMesh.verts_ m) (HalfEdgeMesh.vert E)
                             (HalfEdgeMesh.setVertEdge (Some e)))
                          (HalfEdgeMesh.edges_ m) (HalfEdgeMesh.faces_ m)
                          (HalfEdgeMesh.pairLookupMap_ m)) D (HalfEdgeMesh.vert E)).
      { exists (HalfEdgeMesh.setVertEdge (Some e) W), e. cbn [HalfEdgeMesh.verts_].
        rewrite nth_error_update, Nat.eqb_refl, HW. repeat split; auto. }
      split; [|split].
      * intros Hve v V. cbn [HalfEdgeMesh.verts_]. rewrite nth_error_update.
        destruct (Nat.eqb v (HalfEdgeMesh.vert E)) eqn:Q.
        -- apply Nat.eqb_eq in Q. subst v. rewrite HW. cbn [option_map]. intro H.
           injection H as <-. cbn [HalfEdgeMesh.setVertEdge HalfEdgeMesh.v_edge]. eauto.
        -- intro H. exact (Hve v V H).
      * intros a (V & e' & HV & HVe & Hbe).
        destruct (Nat.eqb a (HalfEdgeMesh.vert E)) eqn:Q.
        -- apply Nat.eqb_eq in Q. subst a. exact Hnew.
        -- exists V, e'. cbn [HalfEdgeMesh.verts_]. rewrite nth_error_update, Q. repeat split; auto.
      * intros a (b & HD & Hno). rewrite HDe in HD. injection HD as <- <-. exact Hnew.
Qed.

Lemma connectFace_marks (m : HalfEdgeMesh.Mesh) (k : nat) :
  HalfEdgeMesh.connecting D m k -> (k < length (HalfEdgeMesh.faces_ m))%nat ->
  HalfEdgeMesh.vertEdges m D -> HalfEdgeMesh.marked m D k ->
  HalfEdgeMesh.vertEdges (HalfEdgeMesh.connectFace k m) D
  /\ HalfEdgeMesh.marked (HalfEdgeMesh.connectFace k m) D (S k).
Proof.
  intros (Hwf & Hp & Hc & Hs) Hk Hve Hmk.
  pose proof (connectFace_same k m) as Hsame.
  pose proof Hwf as (_ & _ & _ & He & Hf & _).
  destruct (nth_error (HalfEdgeMesh.faces_ m) k) as [F|] eqn:HF; [|apply nth_error_None in HF; lia].
  pose proof (Hc k F (le_n k) HF) as HcF.
  destruct (Hf k F HF) as (_ & HnlF & (E0 & HE0 & HfE0)).
  destruct (He _ E0 HE0) as (_ & _ & _ & (F0 & E1 & E2 & _ & HE1 & HE2 & Hcyc & Hf1 & Hf2
                               & _ & _)).
  set (e0 := HalfEdgeMesh.edge F) in *. set (e1 := HalfEdgeMesh.next E0) in *.
  set (e2 := HalfEdgeMesh.next E1) in *.
  set (m1 := HalfEdgeMesh.connectEdge e0 e1 m).
  destruct (connectEdge_spec D distinct m e0 e1 E0 Hwf Hp HE0 eq_refl)
    as (Hp1 & _ & _ & _). fold m1 in Hp1.
  destruct (connectEdge_verts m e0 e1 E0 Hwf Hp HE0 eq_refl) as (Hv1 & Hb1 & Hn1e).
  fold m1 in Hv1, Hb1, Hn1e.
  pose proof (connectEdge_same e0 e1 m) as Sh1. fold m1 in Sh1.
  pose proof (wellFormed_same m m1 D Hwf Sh1) as Hwf1.
  destruct (same_edge m m1 e1 E1 Sh1 HE1) as (E1' & HE1' & Hn1 & _).
  set (m2 := HalfEdgeMesh.connectEdge e1 e2 m1).
  destruct (connectEdge_spec D distinct m1 e1 e2 E1' Hwf1 Hp1 HE1' (eq_sym Hn1))
    as (Hp2 & _ & _ & _). fold m2 in Hp2.
  destruct (connectEdge_verts m1 e1 e2 E1' Hwf1 Hp1 HE1' (eq_sym Hn1)) as (Hv2 & Hb2 & Hn2e).
  fold m2 in Hv2, Hb2, Hn2e.
  pose proof (connectEdge_same e1 e2 m1) as Sh2. fold m2 in Sh2.
  pose proof (wellFormed_same m1 m2 D Hwf1 Sh2) as Hwf2.
  destruct (same_edge m m2 e2 E2 (sameShape_trans _ _ _ Sh1 Sh2) HE2)
    as (E2' & HE2' & Hn2 & _).
  set (m3 := HalfEdgeMesh.connectEdge e2 e0 m2).
  assert (Hn2' : e0 = HalfEdgeMesh.next E2') by congruence.
  destruct (connectEdge_verts m2 e2 e0 E2' Hwf2 Hp2 HE2' Hn2') as (Hv3 & Hb3 & Hn3e).
  fold m3 in Hv3, Hb3, Hn3e.
  assert (Hbody : HalfEdgeMesh.connectFace k m
                  = HalfEdgeMesh.mkMesh (HalfEdgeMesh.verts_ m3) (HalfEdgeMesh.edges_ m3)
                      (HalfEdgeMesh.update (HalfEdgeMesh.faces_ m3) k (HalfEdgeMesh.setFaceConnected true))
                      (HalfEdgeMesh.pairLookupMap_ m3)).
  { unfold HalfEdgeMesh.connectFace. rewrite HF, HcF. fold e0. rewrite HE0. fold e1. rewrite HE1.
    reflexivity. }
  assert (Hon : forall a, HalfEdgeMesh.onBoundary m3 D a -> HalfEdgeMesh.onBoundary (HalfEdgeMesh.connectFace k m) D a)
    by (intros a H; rewrite Hbody; exact H).
  split.
  - rewrite Hbody. exact (Hv3 (Hv2 (Hv1 Hve))).
  - intros e E' a HE' Hface Hbe. apply Hon.
    destruct (same_edge _ m e E' (sameShape_sym _ _ Hsame) HE') as (E & HE & _ & HfE).
    destruct (Nat.lt_ge_cases (HalfEdgeMesh.face E) k) as [Hlt|Hge].
    + apply Hb3, Hb2, Hb1. exact (Hmk e E a HE Hlt Hbe).
    + assert (Hfk : HalfEdgeMesh.face E = k) by lia.
      destruct (He e E HE) as (_ & _ & _ & (Fx & X1 & X2 & HFx & HX1 & HX2 & Hcx & _ & _
                                   & Hedge & _)).
      rewrite Hfk, HF in HFx. injection HFx as <-. fold e0 in Hedge.
      destruct Hedge as [Hedge|[Hedge|Hedge]].
      * rewrite <- Hedge in Hbe. apply Hb3, Hb2. now apply Hn1e.
      * assert (HX : E0 = X1) by (rewrite Hedge in HE0; congruence).
        rewrite <- HX in HX2. fold e1 in HX2.
        assert (HY : E1 = X2) by congruence.
        rewrite <- Hcx, <- HY in Hbe. now apply Hn3e.
      * assert (HX : E0 = X2) by (rewrite Hedge in HE0; congruence).
        rewrite <- Hcx, <- HX in Hbe. apply Hb3. now apply Hn2e.
Qed.

Lemma connectLoop_marks (fuel : nat) (m m' : HalfEdgeMesh.Mesh) (k : nat) :
  HalfEdgeMesh.connecting D m k -> (k + fuel = length (HalfEdgeMesh.faces_ m))%nat ->
  (0 < fuel)%nat -> HalfEdgeMesh.vertEdges m D -> HalfEdgeMesh.marked m D k ->
  HalfEdgeMesh.connectLoop fuel (Some k) m = Some m' ->
  HalfEdgeMesh.vertEdges m' D /\ HalfEdgeMesh.marked m' D (length (HalfEdgeMesh.faces_ m)).
Proof.
  revert m k. induction fuel as [|fuel IH]; intros m k Hinv Hsum Hpos Hve Hmk; [lia|].
  cbn [HalfEdgeMesh.connectLoop].
  destruct (connectFace_step D distinct m k Hinv ltac:(lia)) as (Hinv' & F' & HF' & Hnl).
  destruct (connectFace_marks m k Hinv ltac:(lia) Hve Hmk) as (Hve' & Hmk').
  rewrite HF', Hnl.
  pose proof (connectFace_same k m) as Hsame.
  assert (Hlen : length (HalfEdgeMesh.faces_ (HalfEdgeMesh.connectFace k m))
                 = length (HalfEdgeMesh.faces_ m))
    by (destruct Hsame as (_ & _ & Sf & _); exact (same_length _ _ _ Sf)).
  unfold HalfEdgeMesh.nextIn. destruct (S k <? length (HalfEdgeMesh.faces_ m))%nat eqn:E.
  - apply Nat.ltb_lt in E. intro Hrun.
    destruct (IH (HalfEdgeMesh.connectFace k m) (S k) Hinv' ltac:(lia) ltac:(lia) Hve' Hmk' Hrun)
      as (Hfin & Hfin2).
    rewrite Hlen in Hfin2. now split.
  - apply Nat.ltb_ge in E. assert (Hl : S k = length (HalfEdgeMesh.faces_ m)) by lia.
    intro Hrun. assert (m' = HalfEdgeMesh.connectFace k m)
      by (destruct fuel; cbn [HalfEdgeMesh.connectLoop] in Hrun; congruence).
    subst m'. rewrite <- Hl. now split.
Qed.

End MarkFacts.

(** X25.  After [connect_all_pairs_], on a mesh built by [addVert] and
    [addFace] calls with at least one face and no two edges of the same start
    and end vertex: the edge of a vertex starts at that vertex; it is without
    pair exactly when some edge that starts at the vertex has no opposite
    edge, so that the pair of the edge of a vertex tells whether the vertex
    lies on the boundary; and a vertex is without edge only when no edge
    starts at it. *)
Theorem edge_of_a_vertex_tells_whether_it_is_on_the_boundary :
  forall (normalize : Cv.Vec3d -> Cv.Vec3d) (dot : Cv.Vec3d -> Cv.Vec3d -> float)
         (acos : float -> float)
         (cs : list HalfEdgeMesh.Call) (m : HalfEdgeMesh.Mesh),
    HalfEdgeMesh.calls normalize dot acos cs = Some m ->
    HalfEdgeMesh.directedEdges cs <> [] ->
    NoDup (HalfEdgeMesh.directedEdges cs) ->
    exists m',
      HalfEdgeMesh.connect_all_pairs_ m = Some m'
      /\ forall v V,
          nth_error (HalfEdgeMesh.verts_ m') v = Some V ->
          match HalfEdgeMesh.v_edge V with
          | Some e =>
              (exists b, nth_error (HalfEdgeMesh.directedEdges cs) e = Some (v, b))
              /\ (HalfEdgeMesh.pairOf m' e = None
                  <-> exists e', HalfEdgeMesh.boundaryEdge (HalfEdgeMesh.directedEdges cs) v e')
          | None => forall e b, nth_error (HalfEdgeMesh.directedEdges cs) e <> Some (v, b)
          end.
Proof.
  intros normalize dot acos cs m Hcalls Hne Hnodup.
  destruct (calls_wellFormed normalize dot acos cs m Hcalls) as [Hwf [Hnopair Hnomark]].
  pose proof (calls_vertEdges normalize dot acos cs m Hcalls) as Hve.
  set (D := HalfEdgeMesh.directedEdges cs) in *.
  pose proof Hwf as (_ & Hle & Hlf & _ & _ & _).
  assert (Hfaces : (0 < length (HalfEdgeMesh.faces_ m))%nat)
    by (destruct D; [contradiction|cbn in Hlf; lia]).
  assert (Hinv : HalfEdgeMesh.connecting D m 0).
  { split; [exact Hwf|]. split; [|split].
    - intros e p Hep. unfold HalfEdgeMesh.pairOf in Hep.
      destruct (nth_error (HalfEdgeMesh.edges_ m) e) as [E|] eqn:HE; [|discriminate Hep].
      rewrite (Hnopair e E HE) in Hep. discriminate Hep.
    - intros f F _ HF. now apply (Hnomark f).
    - intros e E _ Hlt. lia. }
  assert (Hmk : HalfEdgeMesh.marked m D 0) by (intros e E a _ Hlt; lia).
  destruct (connectLoop_runs D Hnodup (length (HalfEdgeMesh.faces_ m)) m 0%nat Hinv eq_refl Hfaces)
    as (m' & Hrun & (Hwf' & Hp' & _ & Hs') & Hsh).
  destruct (connectLoop_marks D Hnodup (length (HalfEdgeMesh.faces_ m)) m m' 0%nat Hinv eq_refl
              Hfaces Hve Hmk Hrun) as (Hve' & Hmk').
  unfold HalfEdgeMesh.connect_all_pairs_. destruct (HalfEdgeMesh.faces_ m) as [|F0 rest] eqn:EF;
    [cbn in Hfaces; lia|]. rewrite Hrun.
  eexists. split; [reflexivity|].
  cbn [HalfEdgeMesh.verts_]. intros v V HV. pose proof (Hve' v V HV) as Hv.
  destruct (HalfEdgeMesh.v_edge V) as [e|] eqn:HVe; [|exact Hv].
  split; [exact Hv|]. destruct Hv as [b HD].
  destruct (edge_of_D m' D e v b Hwf' HD) as (E & N & HE & HN & Hva & Hvb).
  change (HalfEdgeMesh.pairOf (HalfEdgeMesh.mkMesh (HalfEdgeMesh.verts_ m') (HalfEdgeMesh.edges_ m')
                                 (HalfEdgeMesh.faces_ m') []) e)
    with (HalfEdgeMesh.pairOf m' e).
  assert (Hlt : forall x X, nth_error (HalfEdgeMesh.edges_ m') x = Some X ->
                            (HalfEdgeMesh.face X < length (F0 :: rest))%nat).
  { intros x X HX. pose proof Hwf' as (_ & _ & _ & He' & _ & _).
    destruct (He' x X HX) as (_ & _ & _ & (F & _ & _ & HF & _)).
    destruct Hsh as (_ & _ & Sf & _). rewrite <- EF, <- (same_length _ _ _ Sf).
    apply nth_error_Some. congruence. }
  split.
  - intro Hnone. exists e, b. split; [exact HD|].
    exact (Hs' e E HE (Hlt e E HE) Hnone v b HD).
  - intros (e' & b' & HD' & Hno).
    destruct (edge_of_D m' D e' v b' Hwf' HD') as (E' & _ & HE' & _).
    destruct (Hmk' e' E' v HE' (Hlt e' E' HE') (ex_intro _ b' (conj HD' Hno)))
      as (V' & x & HV' & HVx & (bx & HDx & Hnox)).
    assert (V' = V) by congruence. subst V'. assert (x = e) by congruence. subst x.
    destruct (HalfEdgeMesh.pairOf m' e) as [p|] eqn:Hpe; [exfalso|reflexivity].
    destruct (Hp' e p Hpe) as [_ (a1 & b1 & Ha & Hb)].
    rewrite HDx in Ha. injection Ha as <- <-. apply Hnox. eapply nth_error_In. exact Hb.
Qed.

Lemma edge_of_a_vertex_tells_whether_it_is_on_the_boundary_witness :
  exists m',
    HalfEdgeMesh.connect_all_pairs_ Inputs.meshOfTwo = Some m'
    /\ forall v V,
        nth_error (HalfEdgeMesh.verts_ m') v = Some V ->
        match HalfEdgeMesh.v_edge V with
        | Some e =>
            (exists b, nth_error (HalfEdgeMesh.directedEdges Inputs.twoTriangles) e = Some (v, b))
            /\ (HalfEdgeMesh.pairOf m' e = None
                <-> exists e', HalfEdgeMesh.boundaryEdge (HalfEdgeMesh.directedEdges Inputs.twoTriangles) v e')
        | None => forall e b, nth_error (HalfEdgeMesh.directedEdges Inputs.twoTriangles) e
                              <> Some (v, b)
        end.
Proof.
  apply (edge_of_a_vertex_tells_whether_it_is_on_the_boundary Inputs.unscaledd Inputs.dotOf
           Inputs.acosStub Inputs.twoTriangles Inputs.meshOfTwo).
  - vm_compute. reflexivity.
  - discriminate.
  - cbn. repeat (constructor; [cbn; intuition discriminate|]). constructor.
Defined.
